(** * golibs / proxypool: entries, the pool container and its replenishment

    A shallow embedding of [proxypool.ProxyItem] and [proxypool.ProxyPool]
    (Go) and the properties of the entry life cycle, of insertion,
    replenishment and round-robin selection; then of the code around
    them: the default pool of the package and the manager
    [proxypool.Proxy], which serves a proxy by one of four modes and owns
    a pool.

    Conventions of the embedding:
    - Go [int] (on 64-bit targets) and [int64] are [Z]; where the code does
      arithmetic on them the two's-complement wrap-around is written out
      with [wrap64];
    - a [time.Time] is an instant on a line, in nanoseconds ([Z]); the
      calls of [time.Now()] read a clock [clock : nat -> Time], the n-th
      read of an execution returning [clock n];
    - [*ProxyItem] is an address into a store of entries: the pool's slice,
      the list built by [Get] and the pointers callers keep all alias the
      same entry;
    - a nil dereference or an index out of range (a Go panic) is the
      absence of a result ([None]);
    - callbacks and the supplier are external: their invocations are
      recorded in a trace, as is each entry into [Refresh]; [go]
      statements are recorded in a list of spawned goroutines, which a
      sequential execution does not run;
    - [SimpleFetchFunc], which asks the source over HTTP, and
      [rand.Intn] are given from outside, as the clock is; the durations
      passed to [time.Sleep] are recorded. *)

From Stdlib Require DecimalString.
From stdpp Require Import base numbers option list strings gmap.

Local Open Scope Z_scope.

(** ** Machine integers and time *)

Definition int64_min : Z := - 2 ^ 63.
Definition int64_max : Z := 2 ^ 63 - 1.

Definition is_int64 (z : Z) : Prop := int64_min ≤ z ≤ int64_max.

(** Two's-complement reduction of an integer to 64 bits. *)
Definition wrap64 (z : Z) : Z := (z + 2 ^ 63) `mod` 2 ^ 64 - 2 ^ 63.

Abbreviation Time := Z.
Abbreviation Duration := Z.

(** [time.Second], in nanoseconds. *)
Definition Second : Duration := 1000000000.

(** [t.Before(u)], [t.After(u)], [t.Add(d)]. *)
Definition Before (t u : Time) : bool := t <? u.
Definition After (t u : Time) : bool := u <? t.
Definition Add (t : Time) (d : Duration) : Time := t + d.

(** [time.Duration(seconds) * time.Second]: an int64 product. *)
Definition seconds (n : Z) : Duration := wrap64 (n * Second).

(** ** ProxyItem *)

Module ProxyItem.

Record t : Type := mk {
  IP : string;
  Port : string;
  usedCount : Z;
  maxUseCount : Z;
  expireTime : Time;
  createTime : Time;
  lastUseTime : Time
}.

Definition set_usedCount (v : Z) (p : t) : t :=
  mk (IP p) (Port p) v (maxUseCount p) (expireTime p) (createTime p)
     (lastUseTime p).

Definition set_maxUseCount (v : Z) (p : t) : t :=
  mk (IP p) (Port p) (usedCount p) v (expireTime p) (createTime p)
     (lastUseTime p).

Definition set_expireTime (v : Time) (p : t) : t :=
  mk (IP p) (Port p) (usedCount p) (maxUseCount p) v (createTime p)
     (lastUseTime p).

Definition set_lastUseTime (v : Time) (p : t) : t :=
  mk (IP p) (Port p) (usedCount p) (maxUseCount p) (expireTime p)
     (createTime p) v.

(** The zero [time.Time], the value of a field the constructor leaves
    out. *)
Definition zeroTime : Time := 0.

(** [NewProxyItem]; [now1] and [now2] are the two readings of
    [time.Now()], in evaluation order. *)
Definition NewProxyItem (now1 now2 : Time) (ip port : string) : t :=
  mk ip port 0 5 (Add now1 (seconds 180)) now2 zeroTime.

Definition NewProxyItemWithConfig (now1 now2 : Time) (ip port : string)
    (maxUseCount expireSeconds : Z) : t :=
  mk ip port 0 maxUseCount (Add now1 (seconds expireSeconds)) now2 zeroTime.

(** [fmt.Sprintf("%s:%s", p.IP, p.Port)] *)
Definition String (p : t) : string := IP p +:+ ":" +:+ Port p.

Definition URL (p : t) : string := "http://" +:+ IP p +:+ ":" +:+ Port p.

Definition IsAvailable (now : Time) (p : t) : bool :=
  Before now (expireTime p) && (usedCount p <? maxUseCount p).

Definition IsExpired (now : Time) (p : t) : bool :=
  After now (expireTime p).

Definition IsMaxUsed (p : t) : bool :=
  usedCount p >=? maxUseCount p.

(** [atomic.CompareAndSwapInt64(&p.usedCount, old, new)] *)
Definition CompareAndSwapInt64 (p : t) (old new : Z) : bool * t :=
  if usedCount p =? old then (true, set_usedCount new p) else (false, p).

(** The retry loop of [IncrementUseCount], run by a goroutine that is
    alone on the entry: [fuel] bounds the number of iterations. *)
Fixpoint IncrementUseCount_loop (fuel : nat) (now : Time) (p : t)
    : option (bool * t) :=
  match fuel with
  | O => None
  | S fuel' =>
      let current := usedCount p in
      if current >=? maxUseCount p then Some (false, p)
      else
        let '(swapped, p') :=
          CompareAndSwapInt64 p current (wrap64 (current + 1)) in
        if swapped then Some (true, set_lastUseTime now p')
        else IncrementUseCount_loop fuel' now p'
  end.

(** One call of [IncrementUseCount] without interference. *)
Definition IncrementUseCount (now : Time) (p : t) : option (bool * t) :=
  IncrementUseCount_loop 1 now p.

Definition GetUsedCount (p : t) : Z := usedCount p.

Definition GetMaxUseCount (p : t) : Z := maxUseCount p.

Definition GetRemainingCount (p : t) : Z :=
  let remaining := wrap64 (maxUseCount p - usedCount p) in
  if remaining <? 0 then 0 else remaining.

Definition SetMaxUseCount (count : Z) (p : t) : t := set_maxUseCount count p.

Definition SetExpireTime (expire : Time) (p : t) : t :=
  set_expireTime expire p.

Definition Reset (now : Time) (expireSeconds : Z) (p : t) : t :=
  set_expireTime (Add now (seconds expireSeconds)) (set_usedCount 0 p).

(** [fmt.Sprintf("socks5://%s:%s", p.IP, p.Port)] *)
Definition Socks5URL (p : t) : string :=
  "socks5://" +:+ IP p +:+ ":" +:+ Port p.

(** [t.Sub(u)]: the difference as an int64 [Duration]; Go returns the
    largest or the smallest [Duration] when the difference does not fit. *)
Definition Sub (t u : Time) : Duration :=
  if t - u <? int64_min then int64_min
  else if int64_max <? t - u then int64_max
  else t - u.

(** [time.Until(t)], with [now] the reading of [time.Now()]. *)
Definition Until (now : Time) (t : Time) : Duration := Sub t now.

Definition GetRemainingTime (now : Time) (p : t) : Duration :=
  let remaining := Until now (expireTime p) in
  if remaining <? 0 then 0 else remaining.

Definition ExtendExpireTime (duration : Duration) (p : t) : t :=
  set_expireTime (Add (expireTime p) duration) p.

(** Calls of [IncrementUseCount] one after the other by a goroutine that is
    alone on the entry, with the times they read; the results in call
    order. *)
Fixpoint IncrementUseCountN (nows : list Time) (p : t) : list bool * t :=
  match nows with
  | [] => ([], p)
  | now :: rest =>
      match IncrementUseCount now p with
      | Some (claimed, p') =>
          let '(results, p'') := IncrementUseCountN rest p' in
          (claimed :: results, p'')
      | None => ([], p)
      end
  end.

End ProxyItem.

(** ** Goroutines racing on one entry

    [IncrementUseCount] as a small-step machine, one atomic action per
    step, so that any number of goroutines can be interleaved on the same
    entry. *)

Module Race.

(** Where a goroutine stands in [IncrementUseCount]. *)
Inductive pc : Type :=
| AtLoad                        (* about to load usedCount *)
| AtCas (current : Z)           (* loaded [current], limit not reached *)
| AtStamp                       (* swap done, about to set lastUseTime *)
| Returned (result : bool).

Definition step (now : Time) (p : ProxyItem.t) (c : pc)
    : ProxyItem.t * pc :=
  match c with
  | AtLoad =>
      let current := ProxyItem.usedCount p in
      if current >=? ProxyItem.maxUseCount p then (p, Returned false)
      else (p, AtCas current)
  | AtCas current =>
      let '(swapped, p') :=
        ProxyItem.CompareAndSwapInt64 p current (wrap64 (current + 1)) in
      if swapped then (p', AtStamp) else (p', AtLoad)
  | AtStamp => (ProxyItem.set_lastUseTime now p, Returned true)
  | Returned r => (p, Returned r)
  end.

(** The entry and the goroutines running [IncrementUseCount] on it. *)
Record config : Type := mkConfig {
  entry : ProxyItem.t;
  threads : list pc
}.

(** Goroutine [i] takes one step, reading [now] if it needs the time. *)
Definition sched_step (cfg : config) (i : nat) (now : Time) : config :=
  match threads cfg !! i with
  | None => cfg
  | Some c =>
      let '(p', c') := step now (entry cfg) c in
      mkConfig p' (<[i := c']> (threads cfg))
  end.

(** A schedule: which goroutine moves, and the time it would read. *)
Fixpoint run (schedule : list (nat * Time)) (cfg : config) : config :=
  match schedule with
  | [] => cfg
  | (i, now) :: rest => run rest (sched_step cfg i now)
  end.

(** Goroutines whose swap succeeded. *)
Definition succeeded (c : pc) : bool :=
  match c with
  | AtStamp | Returned true => true
  | _ => false
  end.

Fixpoint successes (cs : list pc) : Z :=
  match cs with
  | [] => 0
  | c :: rest => (if succeeded c then 1 else 0) + successes rest
  end.

Definition returned (c : pc) : bool :=
  match c with
  | Returned _ => true
  | _ => false
  end.

Definition start (p : ProxyItem.t) (n : nat) : config :=
  mkConfig p (replicate n AtLoad).

(** *** The invariant of the race

    [u0] and [limit] are the use count and the limit of the entry when
    the goroutines start. *)

Section Invariant.

Variables u0 limit : Z.

(** What a goroutine knows, relative to the current entry. *)
Definition thread_ok (p : ProxyItem.t) (c : pc) : Prop :=
  match c with
  | AtCas current => u0 ≤ current < limit
  | Returned false => limit ≤ ProxyItem.usedCount p
  | _ => True
  end.

Record race_inv (cfg : config) : Prop := mkRaceInv {
  inv_limit : ProxyItem.maxUseCount (entry cfg) = limit;
  inv_count : ProxyItem.usedCount (entry cfg) = u0 + successes (threads cfg);
  inv_bound : ProxyItem.usedCount (entry cfg) ≤ limit;
  inv_threads : Forall (thread_ok (entry cfg)) (threads cfg)
}.

End Invariant.

End Race.

(** ** ProxyPool *)

Module ProxyPool.

Abbreviation addr := positive.

Inductive error : Type :=
| ErrNoAvailableProxy
| ErrPoolNotInit
| ErrAPIURLEmpty
| ErrFetchFuncUnset               (* the errors.New(...) inside Refresh *)
| SupplierError (msg : string).   (* an error made by the supplier *)

Record ProxyAddr : Type := mkProxyAddr { IP : string; Port : string }.

(** A supplier: the candidates and the error it returns for a source. *)
Definition FetchFunc : Type := string → list ProxyAddr * option error.

Module Config.
Record t : Type := mk {
  APIURL : string;
  MaxUseCount : Z;
  ExpireSeconds : Z;
  MinPoolSize : Z;
  FetchFunc : option ProxyPool.FetchFunc;
  OnProxyGet : bool;     (* the callback is non-nil *)
  OnRefresh : bool       (* the callback is non-nil *)
}.
End Config.

(** The pool. [refreshMu] is [true] while a [Refresh] holds the refresh
    lock. [poolMu] guards [proxies] and is free between the calls of a
    sequential execution; it is left out. *)
Record t : Type := mk {
  proxies : list addr;
  refreshMu : bool;
  apiURL : string;
  maxUseCount : Z;
  expireSeconds : Z;
  minPoolSize : Z;
  fetchFunc : option FetchFunc;
  onProxyGet : bool;
  onRefresh : bool;
  roundRobinIdx : Z
}.

Definition set_proxies (v : list addr) (p : t) : t :=
  mk v (refreshMu p) (apiURL p) (maxUseCount p) (expireSeconds p)
     (minPoolSize p) (fetchFunc p) (onProxyGet p) (onRefresh p)
     (roundRobinIdx p).

Definition set_refreshMu (v : bool) (p : t) : t :=
  mk (proxies p) v (apiURL p) (maxUseCount p) (expireSeconds p)
     (minPoolSize p) (fetchFunc p) (onProxyGet p) (onRefresh p)
     (roundRobinIdx p).

Definition set_roundRobinIdx (v : Z) (p : t) : t :=
  mk (proxies p) (refreshMu p) (apiURL p) (maxUseCount p) (expireSeconds p)
     (minPoolSize p) (fetchFunc p) (onProxyGet p) (onRefresh p) v.

(** [New] *)
Definition New (cfg : Config.t) : t :=
  let maxUse :=
    if Config.MaxUseCount cfg <=? 0 then 5 else Config.MaxUseCount cfg in
  let expire :=
    if Config.ExpireSeconds cfg <=? 0 then 180
    else Config.ExpireSeconds cfg in
  let minSize :=
    if Config.MinPoolSize cfg <=? 0 then 3 else Config.MinPoolSize cfg in
  mk [] false (Config.APIURL cfg) maxUse expire minSize
     (Config.FetchFunc cfg) (Config.OnProxyGet cfg) (Config.OnRefresh cfg) 0.

(** The chained setters. *)
Definition SetAPIURL (url : string) (p : t) : t :=
  mk (proxies p) (refreshMu p) url (maxUseCount p) (expireSeconds p)
     (minPoolSize p) (fetchFunc p) (onProxyGet p) (onRefresh p)
     (roundRobinIdx p).

Definition SetMaxUseCount (count : Z) (p : t) : t :=
  mk (proxies p) (refreshMu p) (apiURL p) count (expireSeconds p)
     (minPoolSize p) (fetchFunc p) (onProxyGet p) (onRefresh p)
     (roundRobinIdx p).

Definition SetExpireSeconds (secs : Z) (p : t) : t :=
  mk (proxies p) (refreshMu p) (apiURL p) (maxUseCount p) secs
     (minPoolSize p) (fetchFunc p) (onProxyGet p) (onRefresh p)
     (roundRobinIdx p).

Definition SetMinPoolSize (size : Z) (p : t) : t :=
  mk (proxies p) (refreshMu p) (apiURL p) (maxUseCount p) (expireSeconds p)
     size (fetchFunc p) (onProxyGet p) (onRefresh p) (roundRobinIdx p).

Definition SetFetchFunc (fn : option FetchFunc) (p : t) : t :=
  mk (proxies p) (refreshMu p) (apiURL p) (maxUseCount p) (expireSeconds p)
     (minPoolSize p) fn (onProxyGet p) (onRefresh p) (roundRobinIdx p).

(** What the outside observes of an execution. *)
Inductive event : Type :=
| EvRefresh                                   (* Refresh is entered *)
| EvFetch (url : string)                      (* the supplier is called *)
| EvOnRefresh (count : Z) (err : option error)
| EvOnProxyGet (proxy : addr).

Inductive goroutine : Type :=
| GoRefresh.                                  (* go p.Refresh() *)

(** The store of entries, the pool, the number of clock readings so far,
    the trace and the goroutines started and not yet run. *)
Record World : Type := mkWorld {
  heap : gmap addr ProxyItem.t;
  pool : t;
  ticks : nat;
  trace : list event;
  spawned : list goroutine
}.

(** [Stats] *)
Record Stats : Type := mkStats {
  Total : Z;
  Available : Z;
  Expired : Z;
  MaxUsed : Z
}.

(** State and panic monad. *)
Definition M (A : Type) : Type := World → option (A * World).

Definition ret {A : Type} (x : A) : M A := λ w, Some (x, w).

Definition bind {A B : Type} (m : M A) (f : A → M B) : M B := λ w,
  match m w with
  | Some (x, w') => f x w'
  | None => None
  end.

Declare Scope M_scope.
Delimit Scope M_scope with M.
Bind Scope M_scope with M.
Notation "x ← m ; k" := (bind m (λ x, k)) (only parsing) : M_scope.
Notation "m ;; k" := (bind m (λ _, k)) (only parsing) : M_scope.
Local Open Scope M_scope.

Definition panic {A : Type} : M A := λ _, None.

Definition getPool : M t := λ w, Some (pool w, w).

Definition setPool (p : t) : M unit := λ w,
  Some (tt, mkWorld (heap w) p (ticks w) (trace w) (spawned w)).

Definition emit (e : event) : M unit := λ w,
  Some (tt, mkWorld (heap w) (pool w) (ticks w) (trace w ++ [e]) (spawned w)).

Definition go (g : goroutine) : M unit := λ w,
  Some (tt, mkWorld (heap w) (pool w) (ticks w) (trace w) (spawned w ++ [g])).

(** [*p]: a panic on an address that holds no entry. *)
Definition deref (a : addr) : M ProxyItem.t := λ w,
  match heap w !! a with
  | Some it => Some (it, w)
  | None => None
  end.

Definition store (a : addr) (it : ProxyItem.t) : M unit := λ w,
  Some (tt, mkWorld (<[a := it]> (heap w)) (pool w) (ticks w) (trace w)
                    (spawned w)).

(** [&ProxyItem{...}]: a new address. *)
Definition alloc (it : ProxyItem.t) : M addr := λ w,
  let a := fresh (dom (heap w)) in
  Some (a, mkWorld (<[a := it]> (heap w)) (pool w) (ticks w) (trace w)
                   (spawned w)).

Section Methods.

(** The readings of [time.Now()], in order. *)
Variable clock : nat → Time.

(** What the goroutines that hold entry pointers (from [GetAll],
    [GetAvailable] or an earlier [Get]) do to the entries between the
    availability scan of [Get] and its claim. *)
Variable racers : gmap addr ProxyItem.t → gmap addr ProxyItem.t.

Definition Now : M Time := λ w,
  Some (clock (ticks w),
        mkWorld (heap w) (pool w) (S (ticks w)) (trace w) (spawned w)).

Definition interfere : M unit := λ w,
  Some (tt, mkWorld (racers (heap w)) (pool w) (ticks w) (trace w)
                    (spawned w)).

(** Methods of [*ProxyItem], on an address. *)
Definition String (a : addr) : M string :=
  it ← deref a; ret (ProxyItem.String it).

Definition IsAvailable (a : addr) : M bool :=
  now ← Now; it ← deref a; ret (ProxyItem.IsAvailable now it).

Definition IsExpired (a : addr) : M bool :=
  now ← Now; it ← deref a; ret (ProxyItem.IsExpired now it).

Definition IsMaxUsed (a : addr) : M bool :=
  it ← deref a; ret (ProxyItem.IsMaxUsed it).

(** [IncrementUseCount] on an address; [time.Now()] is read only after
    a successful swap. A call that never returns has no result. *)
Definition IncrementUseCount (a : addr) : M bool := λ w,
  match heap w !! a with
  | None => None
  | Some it =>
      match ProxyItem.IncrementUseCount (clock (ticks w)) it with
      | Some (true, it') =>
          Some (true, mkWorld (<[a := it']> (heap w)) (pool w)
                              (S (ticks w)) (trace w) (spawned w))
      | Some (false, _) => Some (false, w)
      | None => None
      end
  end.

Definition NewProxyItemWithConfig (ip port : string)
    (maxUseCount expireSeconds : Z) : M addr :=
  now1 ← Now;
  now2 ← Now;
  alloc (ProxyItem.NewProxyItemWithConfig now1 now2 ip port maxUseCount
           expireSeconds).

(** The scan of [AddProxy]: is [key] the identity of an entry? *)
Fixpoint hasKey (key : string) (ps : list addr) : M bool :=
  match ps with
  | [] => ret false
  | a :: rest =>
      s ← String a;
      if String.eqb s key then ret true else hasKey key rest
  end.

(** [AddProxy] *)
Definition AddProxy (ip port : string) : M bool :=
  p ← getPool;
  let key := ip +:+ ":" +:+ port in
  dup ← hasKey key (proxies p);
  if dup then ret false
  else
    proxy ← NewProxyItemWithConfig ip port (maxUseCount p)
              (expireSeconds p);
    p ← getPool;
    setPool (set_proxies (proxies p ++ [proxy]) p);;
    ret true.

(** The loop of [Refresh] over the candidates. *)
Fixpoint addAll (candidates : list ProxyAddr) (count : Z) : M Z :=
  match candidates with
  | [] => ret count
  | c :: rest =>
      added ← AddProxy (IP c) (Port c);
      addAll rest (if added then count + 1 else count)
  end.

Definition callOnRefresh (count : Z) (err : option error) : M unit :=
  p ← getPool;
  if onRefresh p then emit (EvOnRefresh count err) else ret tt.

Definition unlockRefresh : M unit :=
  p ← getPool; setPool (set_refreshMu false p).

(** [Refresh]. The first event only marks that the method was entered;
    the deferred unlock is run on both paths that took the lock. *)
Definition Refresh : M (option error) :=
  emit EvRefresh;;
  p ← getPool;
  if String.eqb (apiURL p) "" && bool_decide (fetchFunc p = None)
  then ret (Some ErrAPIURLEmpty)
  else if refreshMu p then ret None
  else
    setPool (set_refreshMu true p);;
    fetched ←
      match fetchFunc p with
      | Some fn => emit (EvFetch (apiURL p));; ret (fn (apiURL p))
      | None => ret ([], Some ErrFetchFuncUnset)
      end;
    match fetched.2 with
    | Some err =>
        callOnRefresh 0 (Some err);;
        unlockRefresh;;
        ret (Some err)
    | None =>
        count ← addAll fetched.1 0;
        callOnRefresh count None;;
        unlockRefresh;;
        ret None
    end.

(** The filtering loop shared by [cleanupUnsafe], [Get],
    [AvailableCount] and [GetAvailable]. *)
Fixpoint filterAvailable (ps : list addr) : M (list addr) :=
  match ps with
  | [] => ret []
  | a :: rest =>
      ok ← IsAvailable a;
      kept ← filterAvailable rest;
      ret (if ok then a :: kept else kept)
  end.

(** [cleanupUnsafe] *)
Definition cleanupUnsafe : M unit :=
  p ← getPool;
  valid ← filterAvailable (proxies p);
  p ← getPool;
  setPool (set_proxies valid p).

(** [available[idx]] *)
Definition index (l : list addr) (idx : Z) : M addr := λ w,
  if idx <? 0 then None
  else match l !! Z.to_nat idx with
       | Some a => Some (a, w)
       | None => None
       end.

(** [Get], up to the deferred unlock: pruning and replenishment. *)
Definition Get_replenish : M unit :=
  cleanupUnsafe;;
  p ← getPool;
  if (length (proxies p) =? 0)%nat then
    _ ← Refresh; ret tt
  else if Z.of_nat (length (proxies p)) <? minPoolSize p then
    go GoRefresh
  else ret tt.

(** [Get], from the scan for available entries on. [interfere] is where
    the goroutines that hold pointers to the entries get to act before the
    claim; the entries themselves are not guarded by the lock of the
    pool. *)
Definition Get_select : M (option addr * option error) :=
  p ← getPool;
  available ← filterAvailable (proxies p);
  if (length available =? 0)%nat then
    ret (None, Some ErrNoAvailableProxy)
  else
    p ← getPool;
    let idx := Z.rem (roundRobinIdx p) (Z.of_nat (length available)) in
    setPool (set_roundRobinIdx (wrap64 (roundRobinIdx p + 1)) p);;
    proxy ← index available idx;
    interfere;;
    claimed ← IncrementUseCount proxy;
    if claimed then
      p ← getPool;
      (if onProxyGet p then emit (EvOnProxyGet proxy) else ret tt);;
      ret (Some proxy, None)
    else ret (None, Some ErrNoAvailableProxy).

(** [Get] *)
Definition Get : M (option addr * option error) :=
  Get_replenish;; Get_select.

(** [Cleanup] *)
Definition Cleanup : M Z :=
  p ← getPool;
  let before := length (proxies p) in
  cleanupUnsafe;;
  p ← getPool;
  ret (Z.of_nat before - Z.of_nat (length (proxies p))).

(** [Clear] *)
Definition Clear : M unit :=
  p ← getPool; setPool (set_proxies [] p).

(** The scan of [Remove] and [RemoveByString]. *)
Fixpoint removeKey (key : string) (before ps : list addr)
    : M (option (list addr)) :=
  match ps with
  | [] => ret None
  | a :: rest =>
      s ← String a;
      if String.eqb s key then ret (Some (before ++ rest))
      else removeKey key (before ++ [a]) rest
  end.

Definition RemoveByString (proxyStr : string) : M bool :=
  p ← getPool;
  r ← removeKey proxyStr [] (proxies p);
  match r with
  | Some ps => p ← getPool; setPool (set_proxies ps p);; ret true
  | None => ret false
  end.

Definition Remove (ip port : string) : M bool :=
  RemoveByString (ip +:+ ":" +:+ port).

(** [Size] *)
Definition Size : M Z :=
  p ← getPool; ret (Z.of_nat (length (proxies p))).

(** The loop of [GetStats]. *)
Fixpoint statsLoop (ps : list addr) (stats : Stats) : M Stats :=
  match ps with
  | [] => ret stats
  | a :: rest =>
      av ← IsAvailable a;
      ex ← IsExpired a;
      mu ← IsMaxUsed a;
      statsLoop rest
        (mkStats (Total stats)
           (if av then Available stats + 1 else Available stats)
           (if ex then Expired stats + 1 else Expired stats)
           (if mu then MaxUsed stats + 1 else MaxUsed stats))
  end.

(** [GetStats] *)
Definition GetStats : M Stats :=
  p ← getPool;
  statsLoop (proxies p)
    (mkStats (Z.of_nat (length (proxies p))) 0 0 0).

(** Sequential calls of [Get], results in call order. *)
Fixpoint GetN (n : nat) : M (list (option addr * option error)) :=
  match n with
  | O => ret []
  | S n' => r ← Get; rs ← GetN n'; ret (r :: rs)
  end.

(** [URL] on an address. *)
Definition URL (a : addr) : M string :=
  it ← deref a; ret (ProxyItem.URL it).

(** [AddProxyItem]: only the host and the port of the entry are read. *)
Definition AddProxyItem (proxy : addr) : M bool :=
  it ← deref proxy; AddProxy (ProxyItem.IP it) (ProxyItem.Port it).

(** [GetString] *)
Definition GetString : M (string * option error) :=
  r ← Get;
  match r.2 with
  | Some err => ret ("", Some err)
  | None =>
      match r.1 with
      | Some proxy => s ← String proxy; ret (s, None)
      | None => panic
      end
  end.

(** [GetURL] *)
Definition GetURL : M (string * option error) :=
  r ← Get;
  match r.2 with
  | Some err => ret ("", Some err)
  | None =>
      match r.1 with
      | Some proxy => s ← URL proxy; ret (s, None)
      | None => panic
      end
  end.

(** The loop of [AvailableCount]. *)
Fixpoint countAvailable (ps : list addr) (count : Z) : M Z :=
  match ps with
  | [] => ret count
  | a :: rest =>
      ok ← IsAvailable a;
      countAvailable rest (if ok then count + 1 else count)
  end.

(** [AvailableCount] *)
Definition AvailableCount : M Z :=
  p ← getPool; countAvailable (proxies p) 0.

(** [GetAll]: a copy of the slice, the same addresses. *)
Definition GetAll : M (list addr) :=
  p ← getPool; ret (proxies p).

(** [GetAvailable] *)
Definition GetAvailable : M (list addr) :=
  p ← getPool; filterAvailable (proxies p).

End Methods.

End ProxyPool.

(** ** The vocabulary of the properties

    Worlds reached by the methods, what a trace contains, and the
    conditions under which the methods are looked at. *)

Section Vocabulary.

Import ProxyPool.

Variable clock : nat → Time.
Variable racers : gmap addr ProxyItem.t → gmap addr ProxyItem.t.

Implicit Types (w : World) (a : addr) (it : ProxyItem.t) (ps : list addr).

(** [n] more readings of the clock. *)
Definition tick (n : nat) w : World :=
  mkWorld (heap w) (pool w) (n + ticks w) (trace w) (spawned w).

Definition with_pool (p : ProxyPool.t) w : World :=
  mkWorld (heap w) p (ticks w) (trace w) (spawned w).

(** The entries behind a list of addresses. *)
Definition entries_of (h : gmap addr ProxyItem.t) ps
    (items : list ProxyItem.t) : Prop :=
  Forall2 (λ a it, h !! a = Some it) ps items.

(** Every address of the pool holds an entry. *)
Definition well_formed w : Prop :=
  ∀ a, a ∈ proxies (pool w) → is_Some (heap w !! a).

(** Counting the entries that satisfy a test. *)
Fixpoint count_if (f : ProxyItem.t → bool) (items : list ProxyItem.t) : Z :=
  match items with
  | [] => 0
  | it :: rest => (if f it then 1 else 0) + count_if f rest
  end.

(** The identity under which [AddProxy] looks a pair up. *)
Definition key_of (ip port : string) : string := ip +:+ ":" +:+ port.

Definition identities (items : list ProxyItem.t) : list string :=
  ProxyItem.String <$> items.

Definition endpoints (items : list ProxyItem.t) : list (string * string) :=
  (λ it, (ProxyItem.IP it, ProxyItem.Port it)) <$> items.

(** The entry [AddProxy] makes, and the world after an insertion. *)
Definition new_entry (ip port : string) w : ProxyItem.t :=
  ProxyItem.NewProxyItemWithConfig (clock (ticks w)) (clock (S (ticks w)))
    ip port (maxUseCount (pool w)) (expireSeconds (pool w)).

Definition new_addr w : addr := fresh (dom (heap w)).

Definition inserted (ip port : string) w : World :=
  mkWorld (<[new_addr w := new_entry ip port w]> (heap w))
          (set_proxies (proxies (pool w) ++ [new_addr w]) (pool w))
          (2 + ticks w) (trace w) (spawned w).

(** The supplier is configured: [Refresh] passes its first test. *)
Definition configured (p : ProxyPool.t) : Prop :=
  apiURL p ≠ "" ∨ fetchFunc p ≠ None.

(** What the fetch step of [Refresh] obtains, and the call it makes. *)
Definition fetched (p : ProxyPool.t) : list ProxyAddr * option error :=
  match fetchFunc p with
  | Some fn => fn (apiURL p)
  | None => ([], Some ErrFetchFuncUnset)
  end.

Definition fetch_events (p : ProxyPool.t) : list event :=
  match fetchFunc p with
  | Some _ => [EvFetch (apiURL p)]
  | None => []
  end.

Definition callback_events (p : ProxyPool.t) (count : Z)
    (err : option error) : list event :=
  if onRefresh p then [EvOnRefresh count err] else [].

(** The invocations of the on-refresh callback in a trace. *)
Fixpoint refresh_calls (tr : list event) : list (Z * option error) :=
  match tr with
  | [] => []
  | EvOnRefresh count err :: rest => (count, err) :: refresh_calls rest
  | _ :: rest => refresh_calls rest
  end.

Definition logged (evs : list event) w : World :=
  mkWorld (heap w) (pool w) (ticks w) (trace w ++ evs) (spawned w).

(** Two pools that differ in their collection at most. *)
Definition same_settings (p p' : ProxyPool.t) : Prop :=
  p' = set_proxies (proxies p') p.

(** The entries of [ps] found available by a scan whose first clock
    reading is the [t]-th. *)
Fixpoint available_at (h : gmap addr ProxyItem.t) (t : nat) ps
    : list addr :=
  match ps with
  | [] => []
  | a :: rest =>
      match h !! a with
      | Some it =>
          if ProxyItem.IsAvailable (clock t) it
          then a :: available_at h (S t) rest
          else available_at h (S t) rest
      | None => available_at h (S t) rest
      end
  end.

Definition spawn (g : goroutine) w : World :=
  mkWorld (heap w) (pool w) (ticks w) (trace w) (spawned w ++ [g]).

(** The calls of [Refresh] in a trace. *)
Fixpoint refreshes (tr : list event) : nat :=
  match tr with
  | [] => 0
  | EvRefresh :: rest => S (refreshes rest)
  | _ :: rest => refreshes rest
  end.

(** An entry that is available whenever it is looked at. *)
Definition always_available (it : ProxyItem.t) : Prop :=
  (∀ t, clock t < ProxyItem.expireTime it) ∧
  ProxyItem.usedCount it < ProxyItem.maxUseCount it.

(** The world after the pruning pass of [Get]. *)
Definition pruned w : World :=
  with_pool
    (set_proxies (available_at (heap w) (ticks w) (proxies (pool w)))
       (pool w))
    (tick (length (proxies (pool w))) w).

(** The list [Get] builds at a world, and the entry its cursor picks. *)
Definition scanned w : list addr :=
  available_at (heap w) (ticks w) (proxies (pool w)).

Definition chosen w : option addr :=
  let idx :=
    Z.rem (roundRobinIdx (pool w)) (Z.of_nat (length (scanned w))) in
  if idx <? 0 then None else scanned w !! Z.to_nat idx.

(** The world at the claim: the scan done, the cursor advanced, the
    other goroutines having acted on the entries. *)
Definition at_claim w : World :=
  mkWorld (racers (heap w))
          (set_roundRobinIdx (wrap64 (roundRobinIdx (pool w) + 1)) (pool w))
          (length (proxies (pool w)) + ticks w) (trace w) (spawned w).

(** The entry after a successful claim at the [t]-th clock reading. *)
Definition claimed_entry (t : nat) it : ProxyItem.t :=
  ProxyItem.set_lastUseTime (clock t)
    (ProxyItem.set_usedCount (wrap64 (ProxyItem.usedCount it + 1)) it).

Definition after_claim a it w : World :=
  mkWorld (<[a := claimed_entry (ticks (at_claim w)) it]> (heap (at_claim w)))
          (pool (at_claim w)) (S (ticks (at_claim w)))
          (trace w ++ (if onProxyGet (pool w) then [EvOnProxyGet a] else []))
          (spawned w).

(** The claim of [Get] on the entry at [a] fails: at the claim the entry
    has reached its limit. *)
Definition claim_fails w a : Prop :=
  ∃ it, racers (heap w) !! a = Some it ∧
        ProxyItem.maxUseCount it ≤ ProxyItem.usedCount it.

(** Every entry of the pool never expires while we look and has at least
    [budget a] uses left. *)
Definition ready (budget : addr → Z) w : Prop :=
  ∀ a, a ∈ proxies (pool w) →
    ∃ it, heap w !! a = Some it ∧
          (∀ t, clock t < ProxyItem.expireTime it) ∧
          is_int64 (ProxyItem.usedCount it) ∧
          is_int64 (ProxyItem.maxUseCount it) ∧
          ProxyItem.usedCount it + budget a ≤ ProxyItem.maxUseCount it.

(** One use of the budget of [a]. *)
Definition spend (a : addr) (budget : addr → Z) : addr → Z :=
  λ b, if decide (b = a) then budget b - 1 else budget b.

(** *** The pool over its life *)

(** A call of a method that can change the collection. *)
Inductive call : Type :=
| CallAddProxy (ip port : string)
| CallRefresh
| CallGet
| CallCleanup
| CallClear
| CallRemove (ip port : string)
| CallRemoveByString (proxyStr : string).

Definition perform (c : call) : M unit :=
  match c with
  | CallAddProxy ip port => bind (AddProxy clock ip port) (λ _, ret tt)
  | CallRefresh => bind (Refresh clock) (λ _, ret tt)
  | CallGet => bind (Get clock racers) (λ _, ret tt)
  | CallCleanup => bind (Cleanup clock) (λ _, ret tt)
  | CallClear => Clear
  | CallRemove ip port => bind (Remove ip port) (λ _, ret tt)
  | CallRemoveByString proxyStr =>
      bind (RemoveByString proxyStr) (λ _, ret tt)
  end.

(** Calls one after the other. *)
Fixpoint perform_all (cs : list call) : M unit :=
  match cs with
  | [] => ret tt
  | c :: rest => bind (perform c) (λ _, perform_all rest)
  end.

(** No two entries of the pool have the same (host, port). *)
Definition distinct_endpoints w : Prop :=
  ∃ items, entries_of (heap w) (proxies (pool w)) items ∧
           NoDup (endpoints items).

(** Every entry of [h] is in [h'], with the host and the port it had. *)
Definition same_identities (h h' : gmap addr ProxyItem.t) : Prop :=
  ∀ a it, h !! a = Some it →
    ∃ it', h' !! a = Some it' ∧
           ProxyItem.IP it' = ProxyItem.IP it ∧
           ProxyItem.Port it' = ProxyItem.Port it.

End Vocabulary.

(** ** Sample worlds *)

Module Demo.

Import ProxyPool.

(** A clock that stands still, and nobody else on the entries. *)
Definition frozen (now : Time) : nat → Time := λ _, now.

Definition quiet (h : gmap addr ProxyItem.t) : gmap addr ProxyItem.t := h.

Definition entry (ip : string) (used limit : Z) (expire : Time)
    : ProxyItem.t :=
  ProxyItem.mk ip "8080" used limit expire 0 ProxyItem.zeroTime.

Definition pool_of (ps : list addr) (minSize cursor : Z) : ProxyPool.t :=
  ProxyPool.mk ps false "" 5 180 minSize None false false cursor.

(** Three entries with uses to spare, the cursor at 4. *)
Definition three : World :=
  mkWorld (<[1%positive := entry "10.0.0.1" 0 5 1000]>
           (<[2%positive := entry "10.0.0.2" 0 5 1000]>
            (<[3%positive := entry "10.0.0.3" 1 5 1000]> ∅)))
          (pool_of [1; 2; 3]%positive 3 4) 0 [] [].

(** At time 100: an entry that expires at 100 with uses left, and an
    entry that expired at 50 and has used its 5 uses. *)
Definition boundary : World :=
  mkWorld (<[1%positive := entry "10.0.0.1" 0 5 100]>
           (<[2%positive := entry "10.0.0.2" 5 5 50]> ∅))
          (pool_of [1; 2]%positive 1 0) 0 [] [].

(** At time 100: a single entry that expires at 100 and has used its 5
    uses. *)
Definition boundary_spent : World :=
  mkWorld (<[1%positive := entry "10.0.0.1" 5 5 100]> ∅)
          (pool_of [1]%positive 1 0) 0 [] [].

(** Two entries with one use each; a rival goroutine takes the use of
    the first one between the scan and the claim. *)
Definition contested : World :=
  mkWorld (<[1%positive := entry "10.0.0.1" 0 1 1000]>
           (<[2%positive := entry "10.0.0.2" 0 1 1000]> ∅))
          (pool_of [1; 2]%positive 1 0) 0 [] [].

Definition rival (h : gmap addr ProxyItem.t) : gmap addr ProxyItem.t :=
  alter (ProxyItem.set_usedCount 1) 1%positive h.

Definition contested_lost : World :=
  mkWorld (<[1%positive := entry "10.0.0.1" 1 1 1000]>
           (<[2%positive := entry "10.0.0.2" 0 1 1000]> ∅))
          (pool_of [1; 2]%positive 1 1) 4 [] [].

(** Suppliers. *)
Definition supplier : FetchFunc :=
  λ _, ([mkProxyAddr "10.0.0.1" "8080"; mkProxyAddr "10.0.0.2" "8080"],
        None).

Definition broken_supplier : FetchFunc :=
  λ _, ([], Some (SupplierError "supplier down")).

Definition supplied (fn : option FetchFunc) (url : string) (busy : bool)
    : ProxyPool.t :=
  ProxyPool.mk [] busy url 5 180 3 fn false true 0.

(** An empty pool with a working supplier and a callback. *)
Definition drained : World :=
  mkWorld ∅ (supplied (Some supplier) "http://supplier" false) 0 [] [].

(** Two entries of five uses, a minimum size of three. *)
Definition low : World :=
  mkWorld (<[1%positive := entry "10.0.0.1" 0 5 1000]>
           (<[2%positive := entry "10.0.0.2" 0 5 1000]> ∅))
          (ProxyPool.mk [1; 2]%positive false "http://supplier" 5 180 3
             (Some supplier) false true 0)
          0 [] [].

(** A refresh in flight, the supplier configured. *)
Definition busy : World :=
  mkWorld ∅ (supplied (Some supplier) "http://supplier" true) 0 [] [].

(** The lock free, the supplier failing. *)
Definition failing : World :=
  mkWorld ∅ (supplied (Some broken_supplier) "http://supplier" false)
          0 [] [].

(** Nothing configured: the lock held, and the lock free. *)
Definition busy_unconfigured : World :=
  mkWorld ∅ (supplied None "" true) 0 [] [].

Definition unconfigured : World :=
  mkWorld ∅ (supplied None "" false) 0 [] [].

End Demo.

(** ** More sample values *)

Module Samples.

(** An entry with a single use, and two goroutines racing for it: both
    load, the first swaps, the second fails its swap, loads again and
    returns false; then the first sets the time and returns. *)
Definition one_use : ProxyItem.t :=
  ProxyItem.mk "10.0.0.1" "8080" 0 1 100 0 0.

Definition race_midway : list (nat * Time) :=
  [(0%nat, 5); (1%nat, 5); (0%nat, 6); (1%nat, 6); (1%nat, 7)].

Definition race_finished : list (nat * Time) :=
  race_midway ++ [(0%nat, 8)].

(** The third entry of [Demo.three] taken out of the collection: it is
    in the store and the pool no longer refers to it. *)
Definition detached : ProxyPool.World :=
  with_pool (ProxyPool.set_proxies [1; 2]%positive
               (ProxyPool.pool Demo.three)) Demo.three.

(** [Demo.three] with the cursor of a pool that has wrapped around. *)
Definition wrapped : ProxyPool.World :=
  with_pool (ProxyPool.set_roundRobinIdx (-1) (ProxyPool.pool Demo.three))
    Demo.three.

End Samples.

(** ** Strings without a colon *)

(** [s] holds no byte 58, the colon. *)
Fixpoint colon_free (s : string) : bool :=
  match s with
  | EmptyString => true
  | String c rest => negb (Ascii.eqb c (Ascii.ascii_of_nat 58)) && colon_free rest
  end.

(** ** The proxy manager

    The type [Proxy] serves a proxy by one of four modes; in the pool mode
    it owns a [ProxyPool], made at the first use from the settings the
    manager holds. *)

Module Router.

(** [ProxyMode] and [ProxyType] are string types. *)
Definition ProxyMode : Type := string.
Definition ProxyType : Type := string.

Definition ModeNone : ProxyMode := "不换IP".
Definition ModeVirtual : ProxyMode := "虚拟IP".
Definition ModePool : ProxyMode := "代理池IP".
Definition ModeAuth : ProxyMode := "账密IP".

Definition TypeHTTP : ProxyType := "http".
Definition TypeSocks5 : ProxyType := "socks5".

(** [ProxyResult]; [Headers] is [None] for a nil map. *)
Record ProxyResult : Type := mkResult {
  Typ : ProxyType;
  Proxy : string;
  Headers : option (gmap string string);
  IP : string
}.

(** The errors of the manager: an error of the pool passed on, and the
    two made with [fmt.Errorf]. *)
Inductive error : Type :=
| PoolError (err : ProxyPool.error)
| ErrAuthUnset                       (* "账密代理未配置" *)
| ErrRetriesExhausted (maxRetry : Z). (* "获取代理失败，已重试 %d 次" *)

(** The struct [Proxy]; [pool] is [None] for nil and holds the pool
    otherwise. The lock [mu] is free between the calls of a sequential
    execution; it is left out. *)
Record t : Type := mk {
  mode : ProxyMode;
  proxyType : ProxyType;
  pool : option ProxyPool.t;
  poolAPIURL : string;
  poolMaxUseCount : Z;
  poolExpireSeconds : Z;
  poolMinSize : Z;
  authHost : string;
  authPort : string;
  authUsername : string;
  authPassword : string
}.

Definition set_mode (v : ProxyMode) (p : t) : t :=
  mk v (proxyType p) (pool p) (poolAPIURL p) (poolMaxUseCount p)
     (poolExpireSeconds p) (poolMinSize p) (authHost p) (authPort p)
     (authUsername p) (authPassword p).

Definition set_proxyType (v : ProxyType) (p : t) : t :=
  mk (mode p) v (pool p) (poolAPIURL p) (poolMaxUseCount p)
     (poolExpireSeconds p) (poolMinSize p) (authHost p) (authPort p)
     (authUsername p) (authPassword p).

Definition set_pool (v : option ProxyPool.t) (p : t) : t :=
  mk (mode p) (proxyType p) v (poolAPIURL p) (poolMaxUseCount p)
     (poolExpireSeconds p) (poolMinSize p) (authHost p) (authPort p)
     (authUsername p) (authPassword p).

Definition set_poolAPIURL (v : string) (p : t) : t :=
  mk (mode p) (proxyType p) (pool p) v (poolMaxUseCount p)
     (poolExpireSeconds p) (poolMinSize p) (authHost p) (authPort p)
     (authUsername p) (authPassword p).

Definition set_poolMaxUseCount (v : Z) (p : t) : t :=
  mk (mode p) (proxyType p) (pool p) (poolAPIURL p) v
     (poolExpireSeconds p) (poolMinSize p) (authHost p) (authPort p)
     (authUsername p) (authPassword p).

Definition set_poolExpireSeconds (v : Z) (p : t) : t :=
  mk (mode p) (proxyType p) (pool p) (poolAPIURL p) (poolMaxUseCount p)
     v (poolMinSize p) (authHost p) (authPort p)
     (authUsername p) (authPassword p).

Definition set_poolMinSize (v : Z) (p : t) : t :=
  mk (mode p) (proxyType p) (pool p) (poolAPIURL p) (poolMaxUseCount p)
     (poolExpireSeconds p) v (authHost p) (authPort p)
     (authUsername p) (authPassword p).

Definition set_authAddr (host port : string) (p : t) : t :=
  mk (mode p) (proxyType p) (pool p) (poolAPIURL p) (poolMaxUseCount p)
     (poolExpireSeconds p) (poolMinSize p) host port
     (authUsername p) (authPassword p).

Definition set_authCredentials (username password : string) (p : t) : t :=
  mk (mode p) (proxyType p) (pool p) (poolAPIURL p) (poolMaxUseCount p)
     (poolExpireSeconds p) (poolMinSize p) (authHost p) (authPort p)
     username password.

(** [NewProxy] *)
Definition NewProxy : t :=
  mk ModeNone TypeHTTP None "" 5 180 3 "" "" "" "".

(** [SetMode], [SetType] *)
Definition SetMode (mode : ProxyMode) (p : t) : t := set_mode mode p.

Definition SetType (proxyType : ProxyType) (p : t) : t :=
  set_proxyType proxyType p.

(** The settings of the pool: kept by the manager, and passed to the
    pool when there is one. *)
Definition SetPoolAPI (apiURL : string) (p : t) : t :=
  let p := set_poolAPIURL apiURL p in
  match pool p with
  | Some pl => set_pool (Some (ProxyPool.SetAPIURL apiURL pl)) p
  | None => p
  end.

Definition SetPoolMaxUseCount (count : Z) (p : t) : t :=
  let p := set_poolMaxUseCount count p in
  match pool p with
  | Some pl => set_pool (Some (ProxyPool.SetMaxUseCount count pl)) p
  | None => p
  end.

Definition SetPoolExpireSeconds (secs : Z) (p : t) : t :=
  let p := set_poolExpireSeconds secs p in
  match pool p with
  | Some pl => set_pool (Some (ProxyPool.SetExpireSeconds secs pl)) p
  | None => p
  end.

Definition SetPoolMinSize (size : Z) (p : t) : t :=
  let p := set_poolMinSize size p in
  match pool p with
  | Some pl => set_pool (Some (ProxyPool.SetMinPoolSize size pl)) p
  | None => p
  end.

(** *** The account string *)

(** The byte [':']. *)
Definition colon : Ascii.ascii := Ascii.ascii_of_nat 58.

(** The loop of [splitAuthProxy], with [i], [start], [count] and [result]
    as in the source; it returns [start] and [result] at its exit. The
    index [i] grows at every iteration, so the loop is left after at most
    [len(s)] iterations; [fuel] is more than that. *)
Fixpoint splitAuthProxy_loop (fuel : nat) (s : string)
    (i start count : nat) (result : list string) : nat * list string :=
  match fuel with
  | O => (start, result)
  | S fuel' =>
      if (i <? String.length s)%nat && (count <? 4)%nat then
        if bool_decide (String.get i s = Some colon) then
          splitAuthProxy_loop fuel' s (S i) (S i) (S count)
            (result ++ [String.substring start (i - start) s])
        else splitAuthProxy_loop fuel' s (S i) start count result
      else (start, result)
  end.

(** [splitAuthProxy] *)
Definition splitAuthProxy (s : string) : list string :=
  let '(start, result) :=
    splitAuthProxy_loop (S (String.length s)) s 0 0 0 [] in
  if (start <? String.length s)%nat
  then result ++ [String.substring start (String.length s - start) s]
  else result.

(** [parts[i]], for an index within the slice. *)
Definition part (parts : list string) (i : nat) : string :=
  default "" (parts !! i).

(** [SetAuthProxy] *)
Definition SetAuthProxy (authStr : string) (p : t) : t :=
  let parts := splitAuthProxy authStr in
  let p :=
    if (2 <=? length parts)%nat
    then set_authAddr (part parts 0) (part parts 1) p
    else p in
  if (4 <=? length parts)%nat
  then set_authCredentials (part parts 2) (part parts 3) p
  else set_authCredentials "" "" p.

(** [getNoProxy] *)
Definition getNoProxy : option ProxyResult * option error :=
  (Some (mkResult "" "" None "直连"), None).

(** [getAuthProxy] *)
Definition getAuthProxy (proxyType : ProxyType) (p : t)
    : option ProxyResult * option error :=
  let host := authHost p in
  let port := authPort p in
  let username := authUsername p in
  let password := authPassword p in
  if String.eqb host "" || String.eqb port "" then (None, Some ErrAuthUnset)
  else
    let proxy :=
      if negb (String.eqb username "") && negb (String.eqb password "")
      then host +:+ ":" +:+ port +:+ ":" +:+ username +:+ ":" +:+ password
      else host +:+ ":" +:+ port in
    (Some (mkResult proxyType proxy None (host +:+ ":" +:+ port)), None).

(** [GetMode], [GetType] *)
Definition GetMode (p : t) : ProxyMode := mode p.

Definition GetType (p : t) : ProxyType := proxyType p.

(** *** The methods that reach the pool *)

(** The manager, the store of entries, the clock readings so far, the
    trace of the pool, the goroutines started, the durations slept and
    the number of draws from the random source so far. *)
Record World : Type := mkWorld {
  proxy : t;
  heap : gmap ProxyPool.addr ProxyItem.t;
  ticks : nat;
  trace : list ProxyPool.event;
  spawned : list ProxyPool.goroutine;
  slept : list Duration;
  draws : nat
}.

Definition M (A : Type) : Type := World → option (A * World).

Definition ret {A : Type} (x : A) : M A := λ w, Some (x, w).

Definition bind {A B : Type} (m : M A) (f : A → M B) : M B := λ w,
  match m w with
  | Some (x, w') => f x w'
  | None => None
  end.

Declare Scope R_scope.
Delimit Scope R_scope with R.
Bind Scope R_scope with M.
Notation "x ← m ; k" := (bind m (λ x, k)) (only parsing) : R_scope.
Notation "m ;; k" := (bind m (λ _, k)) (only parsing) : R_scope.
Local Open Scope R_scope.

Definition getProxy : M t := λ w, Some (proxy w, w).

Definition setProxy (p : t) : M unit := λ w,
  Some (tt, mkWorld p (heap w) (ticks w) (trace w) (spawned w) (slept w)
                    (draws w)).

(** [time.Sleep(d)] *)
Definition Sleep (d : Duration) : M unit := λ w,
  Some (tt, mkWorld (proxy w) (heap w) (ticks w) (trace w) (spawned w)
                    (slept w ++ [d]) (draws w)).

(** The world of the pool the manager owns, and the world of the manager
    after a method of the pool. *)
Definition pool_world (pl : ProxyPool.t) (w : World) : ProxyPool.World :=
  ProxyPool.mkWorld (heap w) pl (ticks w) (trace w) (spawned w).

Definition after_pool (pw : ProxyPool.World) (w : World) : World :=
  mkWorld (set_pool (Some (ProxyPool.pool pw)) (proxy w))
          (ProxyPool.heap pw) (ProxyPool.ticks pw) (ProxyPool.trace pw)
          (ProxyPool.spawned pw) (slept w) (draws w).

(** A method of the pool, called through the field [pool]; a panic when
    the field is nil. *)
Definition onPool {A : Type} (m : ProxyPool.M A) : M A := λ w,
  match pool (proxy w) with
  | None => None
  | Some pl =>
      match m (pool_world pl w) with
      | Some (x, pw) => Some (x, after_pool pw w)
      | None => None
      end
  end.

Section Methods.

(** The readings of [time.Now()], what the holders of entry pointers do
    between the scan and the claim of [Get], the results of
    [SimpleFetchFunc], which asks the source over HTTP, and the numbers
    drawn by [rand.Intn]: the [k]-th draw, for the bound [n]. *)
Variable clock : nat → Time.
Variable racers : gmap ProxyPool.addr ProxyItem.t
                  → gmap ProxyPool.addr ProxyItem.t.
Variable SimpleFetchFunc : ProxyPool.FetchFunc.
Variable rand : nat → Z → Z.

(** [initPool] *)
Definition initPool (p : t) : t :=
  match pool p with
  | None =>
      set_pool
        (Some (ProxyPool.New
                 (ProxyPool.Config.mk (poolAPIURL p) (poolMaxUseCount p)
                    (poolExpireSeconds p) (poolMinSize p)
                    (Some SimpleFetchFunc) false false)))
        p
  | Some _ => p
  end.

(** [GetPool]: the pool is returned by reference; here, its state. *)
Definition GetPool : M (option ProxyPool.t) :=
  p ← getProxy;
  setProxy (initPool p);;
  p ← getProxy;
  ret (pool p).

(** [rand.Intn(n)] *)
Definition Intn (n : Z) : M Z := λ w,
  Some (rand (draws w) n,
        mkWorld (proxy w) (heap w) (ticks w) (trace w) (spawned w)
                (slept w) (S (draws w))).

(** [%d] of a number. *)
Definition itoa (z : Z) : string := DecimalString.NilZero.string_of_int (Z.to_int z).

(** [getVirtualProxy] *)
Definition getVirtualProxy : M (option ProxyResult * option error) :=
  a ← Intn 223;
  b ← Intn 256;
  c ← Intn 256;
  d ← Intn 254;
  let ip := itoa (a + 1) +:+ "." +:+ itoa b +:+ "." +:+ itoa c +:+ "."
            +:+ itoa (d + 1) in
  let headers : gmap string string :=
    <["X-Forwarded-For" := ip]>
    (<["X-Real-IP" := ip]>
    (<["X-Client-IP" := ip]>
    (<["X-Originating-IP" := ip]>
    (<["CF-Connecting-IP" := ip]>
    (<["True-Client-IP" := ip]>
    (<["X-Remote-IP" := ip]>
    (<["X-Remote-Addr" := ip]>
    (<["X-Cluster-Client-IP" := ip]> ∅)))))))) in
  ret (Some (mkResult "" "" (Some headers) (ip +:+ " (虚拟)")), None).

(** [getPoolProxy] *)
Definition getPoolProxy (proxyType : ProxyType)
    : M (option ProxyResult * option error) :=
  p ← getProxy;
  setProxy (initPool p);;
  r ← onPool (ProxyPool.Get clock racers);
  match r.2 with
  | Some err => ret (None, Some (PoolError err))
  | None =>
      match r.1 with
      | Some item =>
          s1 ← onPool (ProxyPool.String item);
          s2 ← onPool (ProxyPool.String item);
          ret (Some (mkResult proxyType s1 None s2), None)
      | None => λ _, None
      end
  end.

(** [maxRetry] in [GetProxy] *)
Definition maxRetry : nat := 10.

(** The loop of [GetProxy], with [left] iterations to go:
    [left = maxRetry - i]. *)
Fixpoint GetProxy_loop (left : nat) (proxyType : ProxyType)
    : M (option ProxyResult * option error) :=
  match left with
  | O => ret (None, Some (ErrRetriesExhausted (Z.of_nat maxRetry)))
  | S left' =>
      r ← getPoolProxy proxyType;
      match r.2 with
      | None => ret r
      | Some _ => Sleep Second;; GetProxy_loop left' proxyType
      end
  end.

(** [GetProxy] *)
Definition GetProxy : M (option ProxyResult * option error) :=
  p ← getProxy;
  let mode := mode p in
  let proxyType := proxyType p in
  if String.eqb mode ModeNone then ret getNoProxy
  else if String.eqb mode ModeVirtual then getVirtualProxy
  else if String.eqb mode ModeAuth then ret (getAuthProxy proxyType p)
  else GetProxy_loop maxRetry proxyType.

(** [GetPoolStats] *)
Definition GetPoolStats : M ProxyPool.Stats :=
  p ← getProxy;
  setProxy (initPool p);;
  onPool (ProxyPool.GetStats clock).

End Methods.

End Router.

(** ** The default pool

    The package keeps one pool for all callers: the variables
    [defaultPool] and [once]. A [*ProxyPool] is the index of the pool in
    the list of the pools made so far. *)

Module Singleton.

Record state : Type := mk {
  pools : list ProxyPool.t;
  defaultPool : option nat;      (* nil, or the address of the pool *)
  once : bool                    (* [once.Do] has run its function *)
}.

(** The state at the start of the program. *)
Definition initial : state := mk [] None false.

(** [once.Do(f)]: [f] is run unless a call of [Do] has run before. *)
Definition Do (f : state → state) (s : state) : state :=
  if once s then s
  else let s' := f s in mk (pools s') (defaultPool s') true.

(** [defaultPool = New(cfg)] *)
Definition makeDefault (cfg : ProxyPool.Config.t) (s : state) : state :=
  mk (pools s ++ [ProxyPool.New cfg]) (Some (length (pools s))) (once s).

(** [Config{}] *)
Definition zeroConfig : ProxyPool.Config.t :=
  ProxyPool.Config.mk "" 0 0 0 None false false.

(** [Default] *)
Definition Default (s : state) : option nat * state :=
  let s' := Do (makeDefault zeroConfig) s in (defaultPool s', s').

(** [InitDefault] *)
Definition InitDefault (cfg : ProxyPool.Config.t) (s : state)
    : option nat * state :=
  let s' := Do (makeDefault cfg) s in (defaultPool s', s').

(** [ResetDefault] *)
Definition ResetDefault (s : state) : state := mk (pools s) None false.

(** Calls of the two getters, and their results in call order. *)
Inductive call : Type :=
| CallDefault
| CallInitDefault (cfg : ProxyPool.Config.t).

Definition perform (c : call) (s : state) : option nat * state :=
  match c with
  | CallDefault => Default s
  | CallInitDefault cfg => InitDefault cfg s
  end.

Fixpoint perform_all (cs : list call) (s : state)
    : list (option nat) * state :=
  match cs with
  | [] => ([], s)
  | c :: rest =>
      let '(r, s') := perform c s in
      let '(rs, s'') := perform_all rest s' in
      (r :: rs, s'')
  end.

End Singleton.

(** ** The account string, by its pieces *)

(** What [splitAuthProxy] returns for the rest [s] of a string, with
    [cur] the bytes since the last colon and [count] the colons passed. *)
Fixpoint pieces (s cur : string) (count : nat) : list string :=
  match s with
  | EmptyString => if String.eqb cur "" then [] else [cur]
  | String c rest =>
      if (count <? 4)%nat then
        if Ascii.eqb c Router.colon then cur :: pieces rest "" (S count)
        else pieces rest (cur +:+ String c "") count
      else [cur +:+ s]
  end.

(** ** The worlds of the manager *)

(** The world after [n] failed attempts of [GetProxy] on a pool that is
    empty and whose source [url] gives nothing: each attempt enters
    [Refresh] and asks the source, and is followed by a sleep of one
    second. *)
Definition after_failures (n : nat) (url : string) (w : Router.World)
    : Router.World :=
  Router.mkWorld (Router.proxy w) (Router.heap w) (Router.ticks w)
    (Router.trace w
       ++ concat (replicate n [ProxyPool.EvRefresh; ProxyPool.EvFetch url]))
    (Router.spawned w) (Router.slept w ++ replicate n Second)
    (Router.draws w).

(** The manager holds the pool [pl]. *)
Definition holding (pl : ProxyPool.t) (w : Router.World) : Router.World :=
  Router.mkWorld (Router.set_pool (Some pl) (Router.proxy w))
    (Router.heap w) (Router.ticks w) (Router.trace w) (Router.spawned w)
    (Router.slept w) (Router.draws w).

(** The names of the headers of the virtual mode. *)
Definition virtual_headers : list string :=
  ["X-Forwarded-For"; "X-Real-IP"; "X-Client-IP"; "X-Originating-IP";
   "CF-Connecting-IP"; "True-Client-IP"; "X-Remote-IP"; "X-Remote-Addr";
   "X-Cluster-Client-IP"].

(** A mode that is served by the pool: any but the three others. *)
Definition pool_mode (m : Router.ProxyMode) : Prop :=
  m ≠ Router.ModeNone ∧ m ≠ Router.ModeVirtual ∧ m ≠ Router.ModeAuth.

(** ** The attempts of the pool mode *)

Section Attempts.

Variable clock : nat → Time.
Variable racers : gmap ProxyPool.addr ProxyItem.t
                  → gmap ProxyPool.addr ProxyItem.t.
Variable SimpleFetchFunc : ProxyPool.FetchFunc.

(** The world after [initPool]: the manager has its pool. *)
Definition initialised (w : Router.World) : Router.World :=
  Router.mkWorld (Router.initPool SimpleFetchFunc (Router.proxy w))
    (Router.heap w) (Router.ticks w) (Router.trace w) (Router.spawned w)
    (Router.slept w) (Router.draws w).

(** One attempt from [w]: the pool is made if there is none, and [Get]
    is called on it, once; [gr] is what that call returns and [w1] the
    world it leaves. *)
Definition attempt (w : Router.World)
    (gr : option ProxyPool.addr * option ProxyPool.error)
    (w1 : Router.World) : Prop :=
  ∃ pl pw,
    Router.pool (Router.proxy (initialised w)) = Some pl ∧
    ProxyPool.Get clock racers (Router.pool_world pl (initialised w))
      = Some (gr, pw) ∧
    w1 = Router.after_pool pw (initialised w).

(** The world after [time.Sleep(time.Second)]. *)
Definition asleep (w : Router.World) : Router.World :=
  Router.mkWorld (Router.proxy w) (Router.heap w) (Router.ticks w)
    (Router.trace w) (Router.spawned w) (Router.slept w ++ [Second])
    (Router.draws w).

(** [k] attempts in a row, each with an error from [Get] and followed
    by a sleep of one second, lead from [w] to [w']. *)
Inductive failed_attempts : nat → Router.World → Router.World → Prop :=
| failed_none w : failed_attempts 0 w w
| failed_next k w gr err w1 w' :
    attempt w gr w1 → gr.2 = Some err →
    failed_attempts k (asleep w1) w' →
    failed_attempts (S k) w w'.

End Attempts.

(** ** Sample managers *)

Module RouterDemo.

(** A new manager set to the pool mode, nothing else in the world. *)
Definition manager : Router.World :=
  Router.mkWorld
    (Router.SetPoolAPI "http://supplier"
       (Router.SetMode Router.ModePool Router.NewProxy))
    ∅ 0 [] [] [] 0.

(** A new manager set to the virtual mode. *)
Definition virtual : Router.World :=
  Router.mkWorld (Router.SetMode Router.ModeVirtual Router.NewProxy)
    ∅ 0 [] [] [] 0.

(** A random source that draws zero every time. *)
Definition zeros : nat → Z → Z := λ _ _, 0.

(** A pool made by [New] from a configuration that names the source
    only. *)
Definition unfetchable : ProxyPool.World :=
  ProxyPool.mkWorld ∅
    (ProxyPool.New
       (ProxyPool.Config.mk "http://supplier" 0 0 0 None false false))
    0 [] [].

End RouterDemo.

(** * Properties *)

(** ** Machine integers *)

Lemma wrap64_id (z : Z) : is_int64 z → wrap64 z = z.
Proof.
  unfold is_int64, int64_min, int64_max, wrap64. intros Hz.
  rewrite Z.mod_small; lia.
Qed.

Lemma wrap64_range (z : Z) : is_int64 (wrap64 z).
Proof.
  unfold is_int64, int64_min, int64_max, wrap64.
  pose proof (Z.mod_pos_bound (z + 2 ^ 63) (2 ^ 64)). lia.
Qed.

Lemma wrap64_succ (z limit : Z) :
  is_int64 z → is_int64 limit → z < limit → wrap64 (z + 1) = z + 1.
Proof.
  intros Hz Hl Hlt. apply wrap64_id.
  unfold is_int64, int64_min, int64_max in *. lia.
Qed.

(** ** Entries *)

Section ItemFacts.

Import ProxyItem.

Implicit Types (p : ProxyItem.t) (now : Time).

Lemma CompareAndSwapInt64_same p new :
  CompareAndSwapInt64 p (usedCount p) new = (true, set_usedCount new p).
Proof. unfold CompareAndSwapInt64. by rewrite Z.eqb_refl. Qed.

(** The loop, unfolded once: it never needs a second iteration when the
    goroutine is alone. *)
Lemma IncrementUseCount_loop_S fuel now p :
  IncrementUseCount_loop (S fuel) now p =
    if usedCount p >=? maxUseCount p then Some (false, p)
    else Some (true, set_lastUseTime now
                       (set_usedCount (wrap64 (usedCount p + 1)) p)).
Proof.
  cbn [IncrementUseCount_loop]. rewrite CompareAndSwapInt64_same.
  by destruct (usedCount p >=? maxUseCount p).
Qed.

Lemma geb_true (a b : Z) : (a >=? b) = true ↔ b ≤ a.
Proof. rewrite Z.geb_leb. apply Z.leb_le. Qed.

Lemma geb_false (a b : Z) : (a >=? b) = false ↔ a < b.
Proof. rewrite Z.geb_leb. apply Z.leb_gt. Qed.

Lemma IncrementUseCount_at_limit fuel now p :
  maxUseCount p ≤ usedCount p →
  IncrementUseCount_loop (S fuel) now p = Some (false, p).
Proof.
  intros H. rewrite IncrementUseCount_loop_S.
  by rewrite (proj2 (geb_true _ _) H).
Qed.

Lemma IncrementUseCount_below_limit fuel now p :
  is_int64 (usedCount p) → is_int64 (maxUseCount p) →
  usedCount p < maxUseCount p →
  IncrementUseCount_loop (S fuel) now p =
    Some (true, set_lastUseTime now (set_usedCount (usedCount p + 1) p)).
Proof.
  intros Hu Hm H. rewrite IncrementUseCount_loop_S.
  rewrite (proj2 (geb_false _ _) H).
  by rewrite (wrap64_succ _ _ Hu Hm H).
Qed.

Lemma IsAvailable_before_below now p :
  now < expireTime p → usedCount p < maxUseCount p →
  IsAvailable now p = true.
Proof.
  intros H1 H2. unfold IsAvailable, Before.
  apply andb_true_iff. by rewrite !Z.ltb_lt.
Qed.

End ItemFacts.

(** C1. One call of [IncrementUseCount] on an entry (whatever the bound on
    the iterations of its loop, the call returns): at or above the limit it
    returns false and the entry is unchanged; below the limit it returns
    true, the use count is one more, the last-use time is the time read and
    nothing else changes; hence a use count within the limit stays within
    the limit. *)
Theorem IncrementUseCount_claims_one_use
    (fuel : nat) (now : Time) (p : ProxyItem.t) :
  is_int64 (ProxyItem.usedCount p) →
  is_int64 (ProxyItem.maxUseCount p) →
  (ProxyItem.maxUseCount p ≤ ProxyItem.usedCount p →
     ProxyItem.IncrementUseCount_loop (S fuel) now p = Some (false, p)) ∧
  (ProxyItem.usedCount p < ProxyItem.maxUseCount p →
     ∃ p', ProxyItem.IncrementUseCount_loop (S fuel) now p = Some (true, p') ∧
           ProxyItem.usedCount p' = ProxyItem.usedCount p + 1 ∧
           ProxyItem.lastUseTime p' = now ∧
           ProxyItem.maxUseCount p' = ProxyItem.maxUseCount p ∧
           ProxyItem.expireTime p' = ProxyItem.expireTime p ∧
           ProxyItem.createTime p' = ProxyItem.createTime p ∧
           ProxyItem.IP p' = ProxyItem.IP p ∧
           ProxyItem.Port p' = ProxyItem.Port p) ∧
  (∀ b p', ProxyItem.IncrementUseCount_loop (S fuel) now p = Some (b, p') →
           ProxyItem.maxUseCount p' = ProxyItem.maxUseCount p ∧
           ProxyItem.usedCount p ≤ ProxyItem.usedCount p' ∧
           (ProxyItem.usedCount p ≤ ProxyItem.maxUseCount p →
            ProxyItem.usedCount p' ≤ ProxyItem.maxUseCount p')).
Proof.
  intros Hu Hm. split; [|split].
  - apply IncrementUseCount_at_limit.
  - intros Hlt. eexists. split.
    + by apply IncrementUseCount_below_limit.
    + by cbn.
  - intros b p' Hrun.
    destruct (Z_lt_le_dec (ProxyItem.usedCount p) (ProxyItem.maxUseCount p))
      as [Hlt|Hge].
    + rewrite IncrementUseCount_below_limit in Hrun by done.
      injection Hrun as <- <-. cbn. lia.
    + rewrite IncrementUseCount_at_limit in Hrun by done.
      injection Hrun as <- <-. lia.
Qed.

Lemma IncrementUseCount_claims_one_use_witness :
  ProxyItem.IncrementUseCount_loop 1 7
    (ProxyItem.mk "10.0.0.1" "8080" 4 5 100 0 0)
  = Some (true, ProxyItem.mk "10.0.0.1" "8080" 5 5 100 0 7) ∧
  ProxyItem.IncrementUseCount_loop 1 8
    (ProxyItem.mk "10.0.0.1" "8080" 5 5 100 0 7)
  = Some (false, ProxyItem.mk "10.0.0.1" "8080" 5 5 100 0 7).
Proof.
  split.
  - destruct (IncrementUseCount_claims_one_use 0 7
               (ProxyItem.mk "10.0.0.1" "8080" 4 5 100 0 0))
      as (_ & Hbelow & _).
    + unfold is_int64, int64_min, int64_max. simpl. lia.
    + unfold is_int64, int64_min, int64_max. simpl. lia.
    + reflexivity.
  - apply (IncrementUseCount_claims_one_use 0 8
             (ProxyItem.mk "10.0.0.1" "8080" 5 5 100 0 7)).
    + unfold is_int64, int64_min, int64_max. simpl. lia.
    + unfold is_int64, int64_min, int64_max. simpl. lia.
    + simpl. lia.
Defined.

(** C4. [IsAvailable] is true exactly when the time read is strictly before
    the expiry time and the use count is strictly below the limit; at the
    expiry instant and after it the entry is unavailable, and strictly
    before it an entry with uses left is available. *)
Theorem IsAvailable_iff (now : Time) (p : ProxyItem.t) :
  (ProxyItem.IsAvailable now p = true ↔
     now < ProxyItem.expireTime p ∧
     ProxyItem.usedCount p < ProxyItem.maxUseCount p) ∧
  (ProxyItem.expireTime p ≤ now → ProxyItem.IsAvailable now p = false) ∧
  (now < ProxyItem.expireTime p →
   ProxyItem.usedCount p < ProxyItem.maxUseCount p →
   ProxyItem.IsAvailable now p = true).
Proof.
  unfold ProxyItem.IsAvailable, Before. split; [|split].
  - by rewrite andb_true_iff, !Z.ltb_lt.
  - intros Hle. apply andb_false_iff. left. by apply Z.ltb_ge.
  - intros H1 H2. apply andb_true_iff. by rewrite !Z.ltb_lt.
Qed.

Lemma IsAvailable_iff_witness :
  ProxyItem.IsAvailable 10 (ProxyItem.mk "10.0.0.1" "8080" 0 5 10 9 0) = false ∧
  ProxyItem.IsAvailable 9 (ProxyItem.mk "10.0.0.1" "8080" 0 5 10 9 0) = true.
Proof.
  split.
  - apply (IsAvailable_iff 10 (ProxyItem.mk "10.0.0.1" "8080" 0 5 10 9 0)).
    simpl. lia.
  - apply (IsAvailable_iff 9 (ProxyItem.mk "10.0.0.1" "8080" 0 5 10 9 0));
      simpl; lia.
Defined.

(** ** Concurrent claims on one entry *)

Section RaceFacts.

Import ProxyItem Race.

(** The use count and the limit of the entry when the goroutines start. *)
Variables u0 limit : Z.
Hypothesis u0_int64 : is_int64 u0.
Hypothesis limit_int64 : is_int64 limit.
Hypothesis u0_le_limit : u0 ≤ limit.

Local Abbreviation thread_ok := (Race.thread_ok u0 limit).
Local Abbreviation race_inv := (Race.race_inv u0 limit).

Lemma successes_insert (cs : list pc) (i : nat) (c c' : pc) :
  cs !! i = Some c →
  successes (<[i := c']> cs) =
    successes cs - (if succeeded c then 1 else 0)
                 + (if succeeded c' then 1 else 0).
Proof.
  revert i. induction cs as [|d cs IH]; intros [|i] Hi; try done.
  - injection Hi as ->. cbn. lia.
  - change (successes (<[S i := c']> (d :: cs)))
      with ((if succeeded d then 1 else 0) + successes (<[i := c']> cs)).
    rewrite (IH i Hi). cbn [successes]. lia.
Qed.

Lemma successes_bounds (cs : list pc) :
  0 ≤ successes cs ≤ Z.of_nat (length cs).
Proof.
  induction cs as [|c cs IH]; cbn [successes length]; [lia|].
  destruct (succeeded c); lia.
Qed.

Lemma thread_ok_mono (p p' : ProxyItem.t) (c : pc) :
  usedCount p ≤ usedCount p' → thread_ok p c → thread_ok p' c.
Proof. destruct c as [| | |[|]]; cbn; try done. lia. Qed.

Lemma race_inv_step (cfg : config) (i : nat) (now : Time) :
  race_inv cfg → race_inv (sched_step cfg i now).
Proof.
  intros [Hl Hc Hb Ht]. unfold sched_step.
  destruct (threads cfg !! i) as [c|] eqn:Hi; [|by constructor].
  pose proof (Forall_lookup_1 _ _ _ _ Ht Hi) as Hok.
  pose proof (λ c', successes_insert _ _ _ c' Hi) as Hins.
  destruct c as [|current| |r]; cbn [step].
  - (* load *)
    destruct (usedCount (entry cfg) >=? maxUseCount (entry cfg)) eqn:Hge.
    + apply geb_true in Hge.
      constructor; cbn [entry threads]; try done.
      * rewrite Hins. cbn. lia.
      * apply Forall_insert; [done|]. cbn. lia.
    + apply geb_false in Hge.
      constructor; cbn [entry threads]; try done.
      * rewrite Hins. cbn. lia.
      * apply Forall_insert; [done|]. cbn.
        pose proof (successes_bounds (threads cfg)). lia.
  - (* compare and swap *)
    cbn in Hok. unfold CompareAndSwapInt64.
    destruct (usedCount (entry cfg) =? current) eqn:Heq.
    + apply Z.eqb_eq in Heq.
      assert (wrap64 (current + 1) = current + 1) as Hw.
      { apply (wrap64_succ current limit); try done.
        unfold is_int64, int64_min, int64_max in *. lia. lia. }
      constructor; cbn [entry threads set_usedCount usedCount maxUseCount];
        try done.
      * rewrite Hins, Hw. cbn. lia.
      * lia.
      * apply Forall_insert; [|done].
        eapply Forall_impl; [exact Ht|].
        intros c. apply thread_ok_mono. cbn. lia.
    + constructor; cbn [entry threads]; try done.
      * rewrite Hins. cbn. lia.
      * by apply Forall_insert.
  - (* the time stamp *)
    constructor; cbn [entry threads set_lastUseTime usedCount maxUseCount];
      try done.
    + rewrite Hins. cbn. lia.
    + apply Forall_insert; [|done].
      eapply Forall_impl; [exact Ht|]. intros c.
      by apply thread_ok_mono.
  - (* already returned *)
    constructor; cbn [entry threads]; try done.
    + rewrite Hins. destruct r; cbn; lia.
    + by apply Forall_insert.
Qed.

Lemma race_inv_run (schedule : list (nat * Time)) (cfg : config) :
  race_inv cfg → race_inv (run schedule cfg).
Proof.
  revert cfg. induction schedule as [|[i now] rest IH]; intros cfg Hinv.
  - done.
  - cbn. apply IH. by apply race_inv_step.
Qed.

Lemma sched_step_length (cfg : config) (i : nat) (now : Time) :
  length (threads (sched_step cfg i now)) = length (threads cfg).
Proof.
  unfold sched_step. destruct (threads cfg !! i); [|done].
  destruct (step now (entry cfg) p). cbn. by rewrite length_insert.
Qed.

Lemma run_length (schedule : list (nat * Time)) (cfg : config) :
  length (threads (run schedule cfg)) = length (threads cfg).
Proof.
  revert cfg. induction schedule as [|[i now] rest IH]; intros cfg; [done|].
  cbn. by rewrite IH, sched_step_length.
Qed.

Lemma successes_all_true (cs : list pc) :
  Forall (λ c, c = Returned true) cs → successes cs = Z.of_nat (length cs).
Proof.
  induction 1 as [|c cs -> _ IH]; [done|]. cbn [successes length succeeded].
  lia.
Qed.

Lemma all_returned_cases (cs : list pc) :
  Forall (λ c, returned c = true) cs →
  Forall (λ c, c = Returned true) cs ∨ Returned false ∈ cs.
Proof.
  induction 1 as [|c cs Hc _ [IH|IH]].
  - left. constructor.
  - destruct c as [| | |[|]]; try done.
    + left. by constructor.
    + right. left.
  - right. by right.
Qed.

End RaceFacts.

Lemma successes_start (n : nat) :
  Race.successes (replicate n Race.AtLoad) = 0.
Proof. induction n as [|n IH]; cbn in *; lia. Qed.

Lemma race_inv_start (p : ProxyItem.t) (n : nat) :
  ProxyItem.usedCount p ≤ ProxyItem.maxUseCount p →
  Race.race_inv (ProxyItem.usedCount p) (ProxyItem.maxUseCount p)
    (Race.start p n).
Proof.
  intros Hle. constructor; cbn; try done.
  - rewrite successes_start. lia.
  - apply Forall_replicate. by cbn.
Qed.

(** Any number of goroutines, interleaved in any way on one entry: every
    increment of the use count is the successful swap of one goroutine, and
    the use count stays within the limit. *)
Theorem race_never_past_limit
    (p : ProxyItem.t) (n : nat) (schedule : list (nat * Time)) :
  is_int64 (ProxyItem.usedCount p) →
  is_int64 (ProxyItem.maxUseCount p) →
  ProxyItem.usedCount p ≤ ProxyItem.maxUseCount p →
  let cfg := Race.run schedule (Race.start p n) in
  ProxyItem.usedCount (Race.entry cfg) =
    ProxyItem.usedCount p + Race.successes (Race.threads cfg) ∧
  ProxyItem.usedCount (Race.entry cfg) ≤ ProxyItem.maxUseCount p.
Proof.
  intros Hu Hm Hle cfg.
  pose proof (race_inv_start p n Hle) as Hstart.
  destruct (race_inv_run _ _ Hu Hm schedule _ Hstart) as [_ Hc Hb _].
  done.
Qed.

(** When all the goroutines have returned, as many have claimed a use as
    there were uses left, or all of them if that is fewer. *)
Theorem race_all_returned
    (p : ProxyItem.t) (n : nat) (schedule : list (nat * Time)) :
  is_int64 (ProxyItem.usedCount p) →
  is_int64 (ProxyItem.maxUseCount p) →
  ProxyItem.usedCount p ≤ ProxyItem.maxUseCount p →
  let cfg := Race.run schedule (Race.start p n) in
  Forall (λ c, Race.returned c = true) (Race.threads cfg) →
  Race.successes (Race.threads cfg) =
    Z.min (Z.of_nat n) (ProxyItem.maxUseCount p - ProxyItem.usedCount p).
Proof.
  intros Hu Hm Hle cfg Hret.
  pose proof (race_inv_start p n Hle) as Hstart.
  destruct (race_inv_run _ _ Hu Hm schedule _ Hstart) as [_ Hc Hb Ht].
  fold cfg in Hc, Hb, Ht.
  assert (length (Race.threads cfg) = n) as Hlen.
  { unfold cfg. rewrite run_length. cbn. apply length_replicate. }
  pose proof (successes_bounds (Race.threads cfg)) as Hsb.
  destruct (all_returned_cases _ Hret) as [Hall|Hsome].
  - rewrite (successes_all_true _ Hall) in *. lia.
  - rewrite Forall_forall in Ht. specialize (Ht _ Hsome). cbn in Ht. lia.
Qed.

(** Goroutines racing for the single use of an entry: when all have
    returned, exactly one has claimed it. *)
Corollary race_for_one_use
    (p : ProxyItem.t) (n : nat) (schedule : list (nat * Time)) :
  ProxyItem.usedCount p = 0 →
  ProxyItem.maxUseCount p = 1 →
  (0 < n)%nat →
  Forall (λ c, Race.returned c = true)
    (Race.threads (Race.run schedule (Race.start p n))) →
  Race.successes (Race.threads (Race.run schedule (Race.start p n))) = 1.
Proof.
  intros Hu Hm Hn Hret.
  rewrite (race_all_returned p n schedule); rewrite ?Hu, ?Hm;
    unfold is_int64, int64_min, int64_max; try done; lia.
Qed.

(** ** The pool: configuration *)

(** The two paths that configure the numeric options. [New] replaces
    each numeric option that is not positive by its default (5 uses, 180
    seconds, 3 entries) and keeps a positive one; the chained setters
    [SetMaxUseCount], [SetExpireSeconds] and [SetMinPoolSize] store the
    value they are given, whatever its sign. *)
Theorem New_defaults_setters_store (cfg : ProxyPool.Config.t) :
  ProxyPool.maxUseCount (ProxyPool.New cfg) =
    (if decide (ProxyPool.Config.MaxUseCount cfg ≤ 0) then 5
     else ProxyPool.Config.MaxUseCount cfg) ∧
  ProxyPool.expireSeconds (ProxyPool.New cfg) =
    (if decide (ProxyPool.Config.ExpireSeconds cfg ≤ 0) then 180
     else ProxyPool.Config.ExpireSeconds cfg) ∧
  ProxyPool.minPoolSize (ProxyPool.New cfg) =
    (if decide (ProxyPool.Config.MinPoolSize cfg ≤ 0) then 3
     else ProxyPool.Config.MinPoolSize cfg) ∧
  0 < ProxyPool.maxUseCount (ProxyPool.New cfg) ∧
  0 < ProxyPool.expireSeconds (ProxyPool.New cfg) ∧
  0 < ProxyPool.minPoolSize (ProxyPool.New cfg) ∧
  (∀ (v : Z) (p : ProxyPool.t),
     ProxyPool.maxUseCount (ProxyPool.SetMaxUseCount v p) = v ∧
     ProxyPool.expireSeconds (ProxyPool.SetExpireSeconds v p) = v ∧
     ProxyPool.minPoolSize (ProxyPool.SetMinPoolSize v p) = v).
Proof.
  cbn [ProxyPool.New ProxyPool.maxUseCount ProxyPool.expireSeconds
       ProxyPool.minPoolSize].
  repeat split;
    repeat case_decide;
    repeat match goal with
      | |- context [?a <=? ?b] => destruct (Z.leb_spec a b)
      end; lia.
Qed.

(** C9. The fallback to the defaults is in [New] and missing from the
    setters. [New] on the zero configuration gives the defaults 5, 180
    and 3; on that pool [SetMaxUseCount 0] leaves the limit 0 and not 5,
    [SetExpireSeconds (-1)] leaves the lifetime -1 and not 180, and
    [SetMinPoolSize 0] leaves the minimum size 0 and not 3. *)
Lemma setters_keep_nonpositive :
  let p := ProxyPool.New (ProxyPool.Config.mk "" 0 0 0 None false false) in
  ProxyPool.maxUseCount p = 5 ∧
  ProxyPool.expireSeconds p = 180 ∧
  ProxyPool.minPoolSize p = 3 ∧
  ProxyPool.maxUseCount (ProxyPool.SetMaxUseCount 0 p) = 0 ∧
  ProxyPool.maxUseCount (ProxyPool.SetMaxUseCount 0 p) ≠ 5 ∧
  ProxyPool.expireSeconds (ProxyPool.SetExpireSeconds (-1) p) = -1 ∧
  ProxyPool.expireSeconds (ProxyPool.SetExpireSeconds (-1) p) ≠ 180 ∧
  ProxyPool.minPoolSize (ProxyPool.SetMinPoolSize 0 p) = 0 ∧
  ProxyPool.minPoolSize (ProxyPool.SetMinPoolSize 0 p) ≠ 3.
Proof. cbn. repeat split; done. Qed.

(** ** The pool: running the methods *)

Section PoolFacts.

Import ProxyPool.

Variable clock : nat → Time.
Variable racers : gmap addr ProxyItem.t → gmap addr ProxyItem.t.

Implicit Types (w : World) (a : addr) (it : ProxyItem.t) (ps : list addr).

Local Abbreviation new_entry := (new_entry clock).
Local Abbreviation inserted := (inserted clock).
Local Abbreviation available_at := (available_at clock).
Local Abbreviation always_available := (always_available clock).
Local Abbreviation pruned := (pruned clock).
Local Abbreviation scanned := (scanned clock).
Local Abbreviation chosen := (chosen clock).
Local Abbreviation claimed_entry := (claimed_entry clock).
Local Abbreviation ready := (ready clock).
Local Abbreviation claim_fails := (claim_fails racers).
Local Abbreviation at_claim := (at_claim racers).
Local Abbreviation after_claim := (after_claim clock racers).

Lemma tick_0 w : tick 0 w = w.
Proof. by destruct w. Qed.

Lemma tick_tick n m w : tick n (tick m w) = tick (n + m) w.
Proof. unfold tick. cbn. f_equal. lia. Qed.

Lemma bind_Some {A B : Type} (m : M A) (f : A → M B) w x w' :
  m w = Some (x, w') → bind m f w = f x w'.
Proof. unfold bind. by intros ->. Qed.

Lemma bind_None {A B : Type} (m : M A) (f : A → M B) w :
  m w = None → bind m f w = None.
Proof. unfold bind. by intros ->. Qed.

Lemma getPool_run w : getPool w = Some (pool w, w).
Proof. done. Qed.

Lemma IsAvailable_run a w it :
  heap w !! a = Some it →
  IsAvailable clock a w =
    Some (ProxyItem.IsAvailable (clock (ticks w)) it, tick 1 w).
Proof.
  intros H. unfold IsAvailable, bind, Now, deref, ret. cbn. by rewrite H.
Qed.

Lemma IsExpired_run a w it :
  heap w !! a = Some it →
  IsExpired clock a w =
    Some (ProxyItem.IsExpired (clock (ticks w)) it, tick 1 w).
Proof.
  intros H. unfold IsExpired, bind, Now, deref, ret. cbn. by rewrite H.
Qed.

Lemma IsMaxUsed_run a w it :
  heap w !! a = Some it →
  IsMaxUsed a w = Some (ProxyItem.IsMaxUsed it, w).
Proof. intros H. unfold IsMaxUsed, bind, deref, ret. by rewrite H. Qed.

Lemma String_run a w it :
  heap w !! a = Some it → String a w = Some (ProxyItem.String it, w).
Proof. intros H. unfold String, bind, deref, ret. by rewrite H. Qed.

Lemma entries_of_exists (h : gmap addr ProxyItem.t) ps :
  (∀ a, a ∈ ps → is_Some (h !! a)) → ∃ items, entries_of h ps items.
Proof.
  induction ps as [|a ps IH]; intros Hwf.
  - exists []. constructor.
  - destruct (Hwf a) as [it Hit]; [left|].
    destruct IH as [items Hitems]; [intros b Hb; apply Hwf; by right|].
    exists (it :: items). by constructor.
Qed.

Lemma statsLoop_frozen (now : Time) ps : ∀ items acc w,
  entries_of (heap w) ps items →
  (∀ k, (ticks w ≤ k < ticks w + 2 * length ps)%nat → clock k = now) →
  statsLoop clock ps acc w =
    Some (mkStats (Total acc)
            (Available acc + count_if (ProxyItem.IsAvailable now) items)
            (Expired acc + count_if (ProxyItem.IsExpired now) items)
            (MaxUsed acc + count_if ProxyItem.IsMaxUsed items),
          tick (2 * length ps) w).
Proof.
  induction ps as [|a ps IH]; intros items acc w Hent Hclock.
  - inversion Hent; subst. cbn. unfold ret. rewrite tick_0.
    destruct acc. cbn. do 2 f_equal. f_equal; lia.
  - inversion Hent as [|? it ? items' Hit Hrest]; subst.
    cbn [statsLoop].
    rewrite (bind_Some _ _ _ _ _ (IsAvailable_run _ _ _ Hit)).
    rewrite (bind_Some _ _ _ _ _ (IsExpired_run a (tick 1 w) _ Hit)).
    rewrite (bind_Some _ _ _ _ _ (IsMaxUsed_run a (tick 1 (tick 1 w)) _ Hit)).
    rewrite (IH items'); [|done|].
    + cbn [ticks tick]. rewrite !Hclock by (cbn [length]; lia).
      rewrite !tick_tick. cbn [Total Available Expired MaxUsed count_if].
      f_equal. f_equal.
      * destruct (ProxyItem.IsAvailable now it),
                 (ProxyItem.IsExpired now it), (ProxyItem.IsMaxUsed it);
          f_equal; lia.
      * unfold tick. f_equal. cbn [length]. lia.
    + intros k Hk. apply Hclock. cbn in Hk. cbn [length]. lia.
Qed.

Lemma entries_of_length (h : gmap addr ProxyItem.t) ps items :
  entries_of h ps items → length ps = length items.
Proof. apply Forall2_length. Qed.

(** C10, as the code has it. At the expiry instant an entry is neither
    available nor expired, so the counts of [GetStats] do not partition
    the pool: with the clock standing at [now] during the call, the
    snapshot counts the entries that pass each of the three tests; an
    entry at its expiry instant with uses left passes none of them, an
    entry past its expiry and at its limit passes two, and an entry at
    its expiry instant that is at its limit passes the test of the limit
    only. *)
Theorem GetStats_counts_overlap_and_miss (now : Time) w items :
  entries_of (heap w) (proxies (pool w)) items →
  (∀ k, (ticks w ≤ k < ticks w + 2 * length items)%nat → clock k = now) →
  GetStats clock w =
    Some (mkStats (Z.of_nat (length items))
            (count_if (ProxyItem.IsAvailable now) items)
            (count_if (ProxyItem.IsExpired now) items)
            (count_if ProxyItem.IsMaxUsed items),
          tick (2 * length items) w) ∧
  (∀ it, ProxyItem.expireTime it = now →
         ProxyItem.IsAvailable now it = false ∧
         ProxyItem.IsExpired now it = false) ∧
  (∀ it, ProxyItem.expireTime it = now →
         ProxyItem.usedCount it < ProxyItem.maxUseCount it →
         ProxyItem.IsAvailable now it = false ∧
         ProxyItem.IsExpired now it = false ∧
         ProxyItem.IsMaxUsed it = false) ∧
  (∀ it, ProxyItem.expireTime it < now →
         ProxyItem.maxUseCount it ≤ ProxyItem.usedCount it →
         ProxyItem.IsAvailable now it = false ∧
         ProxyItem.IsExpired now it = true ∧
         ProxyItem.IsMaxUsed it = true) ∧
  (∀ it, ProxyItem.expireTime it = now →
         ProxyItem.maxUseCount it ≤ ProxyItem.usedCount it →
         ProxyItem.IsAvailable now it = false ∧
         ProxyItem.IsExpired now it = false ∧
         ProxyItem.IsMaxUsed it = true).
Proof.
  intros Hent Hclock.
  pose proof (entries_of_length _ _ _ Hent) as Hlen.
  split; [|split; [|split; [|split]]].
  - unfold GetStats, getPool. cbn [bind].
    rewrite (statsLoop_frozen now _ items); [|done|].
    + cbn [Total Available Expired MaxUsed]. rewrite Hlen.
      by rewrite !Z.add_0_l.
    + intros k Hk. apply Hclock. lia.
  - intros it <-. unfold ProxyItem.IsAvailable, ProxyItem.IsExpired,
      Before, After. by rewrite Z.ltb_irrefl.
  - intros it <- Hlt. unfold ProxyItem.IsAvailable, ProxyItem.IsExpired,
      ProxyItem.IsMaxUsed, Before, After.
    rewrite Z.ltb_irrefl. by rewrite (proj2 (geb_false _ _) Hlt).
  - intros it Hexp Hlim. unfold ProxyItem.IsAvailable, ProxyItem.IsExpired,
      ProxyItem.IsMaxUsed, Before, After.
    rewrite (proj2 (geb_true _ _) Hlim), (proj2 (Z.ltb_lt _ _) Hexp).
    by rewrite (proj2 (Z.ltb_ge _ _)) by lia.
  - intros it <- Hlim. unfold ProxyItem.IsAvailable, ProxyItem.IsExpired,
      ProxyItem.IsMaxUsed, Before, After.
    rewrite Z.ltb_irrefl. by rewrite (proj2 (geb_true _ _) Hlim).
Qed.

(** *** Insertion *)

Lemma new_addr_fresh w : heap w !! new_addr w = None.
Proof.
  unfold new_addr. apply (not_elem_of_dom (D := gset positive)).
  apply is_fresh.
Qed.

Lemma hasKey_run key ps : ∀ items w,
  entries_of (heap w) ps items →
  hasKey key ps w = Some (bool_decide (key ∈ identities items), w).
Proof.
  induction ps as [|a ps IH]; intros items w Hent.
  - by inversion Hent.
  - inversion Hent as [|? it ? items' Hit Hrest]; subst.
    cbn [hasKey]. rewrite (bind_Some _ _ _ _ _ (String_run _ _ _ Hit)).
    unfold identities. cbn [fmap list_fmap].
    destruct (String.eqb_spec (ProxyItem.String it) key) as [->|Hne].
    + unfold ret. rewrite bool_decide_eq_true_2; [done|]. left.
    + rewrite (IH items' w Hrest). do 2 f_equal.
      apply bool_decide_ext. rewrite elem_of_cons.
      split; [by right|]. by intros [->|?].
Qed.

Lemma AddProxy_duplicate ip port w items :
  entries_of (heap w) (proxies (pool w)) items →
  key_of ip port ∈ identities items →
  AddProxy clock ip port w = Some (false, w).
Proof.
  intros Hent Hin. unfold AddProxy.
  rewrite (bind_Some _ _ _ _ _ (getPool_run w)).
  fold (key_of ip port).
  rewrite (bind_Some _ _ _ _ _ (hasKey_run _ _ _ _ Hent)).
  by rewrite bool_decide_eq_true_2.
Qed.

Lemma AddProxy_new ip port w items :
  entries_of (heap w) (proxies (pool w)) items →
  key_of ip port ∉ identities items →
  AddProxy clock ip port w = Some (true, inserted ip port w).
Proof.
  intros Hent Hin. unfold AddProxy.
  rewrite (bind_Some _ _ _ _ _ (getPool_run w)).
  fold (key_of ip port).
  rewrite (bind_Some _ _ _ _ _ (hasKey_run _ _ _ _ Hent)).
  by rewrite bool_decide_eq_false_2.
Qed.

Lemma entries_of_inserted ip port w items :
  entries_of (heap w) (proxies (pool w)) items →
  entries_of (heap (inserted ip port w)) (proxies (pool (inserted ip port w)))
    (items ++ [new_entry ip port w]).
Proof.
  intros Hent. cbn. apply Forall2_app.
  - eapply Forall2_impl; [exact Hent|]. intros a it Ha. cbn in Ha.
    rewrite lookup_insert_ne; [done|].
    intros <-. by rewrite new_addr_fresh in Ha.
  - constructor; [|constructor]. apply lookup_insert_eq.
Qed.

Lemma endpoint_identity it ip port :
  (ProxyItem.IP it, ProxyItem.Port it) = (ip, port) →
  ProxyItem.String it = key_of ip port.
Proof. unfold ProxyItem.String, key_of. by intros [= -> ->]. Qed.

Lemma endpoints_identities ip port items :
  (ip, port) ∈ endpoints items → key_of ip port ∈ identities items.
Proof.
  unfold endpoints, identities. rewrite !list_elem_of_fmap.
  intros (it & Heq & Hin). exists it. split; [|done].
  symmetry. by apply endpoint_identity.
Qed.

Lemma endpoints_inserted ip port w items :
  key_of ip port ∉ identities items →
  NoDup (endpoints items) →
  NoDup (endpoints (items ++ [new_entry ip port w])).
Proof.
  intros Hkey Hnd. unfold endpoints. rewrite fmap_app. cbn.
  apply NoDup_app. split; [done|]. split; [|apply NoDup_singleton].
  intros e He ->%list_elem_of_singleton.
  by apply Hkey, endpoints_identities.
Qed.

(** C5. [AddProxy] returns false and changes nothing when an entry with
    the identity "ip:port" is in the pool; otherwise it appends one entry,
    at a new address, made from the pool's defaults, and returns true.
    So a pool without two entries of the same (host, port) stays so, and
    adding the same pair twice to an empty pool leaves one entry, the
    second call returning false. *)
Theorem AddProxy_deduplicates ip port w items :
  entries_of (heap w) (proxies (pool w)) items →
  (key_of ip port ∈ identities items →
     AddProxy clock ip port w = Some (false, w)) ∧
  (key_of ip port ∉ identities items →
     ∃ a it w',
       AddProxy clock ip port w = Some (true, w') ∧
       heap w !! a = None ∧
       heap w' = <[a := it]> (heap w) ∧
       proxies (pool w') = proxies (pool w) ++ [a] ∧
       it = ProxyItem.mk ip port 0 (maxUseCount (pool w))
              (Add (clock (ticks w)) (seconds (expireSeconds (pool w))))
              (clock (S (ticks w))) ProxyItem.zeroTime ∧
       entries_of (heap w') (proxies (pool w')) (items ++ [it])) ∧
  (NoDup (endpoints items) →
     ∃ r w' items',
       AddProxy clock ip port w = Some (r, w') ∧
       entries_of (heap w') (proxies (pool w')) items' ∧
       NoDup (endpoints items')) ∧
  (proxies (pool w) = [] →
     ∃ w1, AddProxy clock ip port w = Some (true, w1) ∧
           AddProxy clock ip port w1 = Some (false, w1) ∧
           length (proxies (pool w1)) = 1%nat).
Proof.
  intros Hent. split; [|split; [|split]].
  - by apply (AddProxy_duplicate _ _ _ items).
  - intros Hnew.
    exists (new_addr w), (new_entry ip port w), (inserted ip port w).
    split; [by apply (AddProxy_new _ _ _ items)|].
    split; [apply new_addr_fresh|].
    repeat split; try done. by apply entries_of_inserted.
  - intros Hnd.
    destruct (decide (key_of ip port ∈ identities items)) as [Hin|Hnew].
    + exists false, w, items. split; [|done].
      by apply (AddProxy_duplicate _ _ _ items).
    + exists true, (inserted ip port w), (items ++ [new_entry ip port w]).
      split; [by apply (AddProxy_new _ _ _ items)|].
      split; [by apply entries_of_inserted|by apply endpoints_inserted].
  - intros Hempty. rewrite Hempty in Hent. inversion Hent; subst.
    exists (inserted ip port w). split; [|split].
    + apply (AddProxy_new _ _ _ []); [by rewrite Hempty|].
      apply not_elem_of_nil.
    + apply (AddProxy_duplicate _ _ _ ([] ++ [new_entry ip port w])).
      * apply entries_of_inserted. by rewrite Hempty.
      * cbn. left.
    + cbn. by rewrite Hempty.
Qed.

(** *** Replenishment *)

Lemma same_settings_refl p : same_settings p p.
Proof. by destruct p. Qed.

Lemma configured_test p :
  configured p →
  String.eqb (apiURL p) "" && bool_decide (fetchFunc p = None) = false.
Proof.
  intros [Hurl|Hfn]; apply andb_false_iff.
  - left. by apply String.eqb_neq.
  - right. by apply bool_decide_eq_false_2.
Qed.

Lemma Refresh_unconfigured w :
  apiURL (pool w) = "" → fetchFunc (pool w) = None →
  Refresh clock w = Some (Some ErrAPIURLEmpty, logged [EvRefresh] w).
Proof.
  intros Hurl Hfn. unfold Refresh, bind, emit, getPool. cbn.
  by rewrite Hurl, Hfn.
Qed.

Lemma Refresh_busy w :
  configured (pool w) → refreshMu (pool w) = true →
  Refresh clock w = Some (None, logged [EvRefresh] w).
Proof.
  intros Hcfg Hmu. unfold Refresh, bind, emit, getPool. cbn.
  by rewrite (configured_test _ Hcfg), Hmu.
Qed.

Lemma Refresh_failed w cands err :
  configured (pool w) → refreshMu (pool w) = false →
  fetched (pool w) = (cands, Some err) →
  Refresh clock w =
    Some (Some err,
          logged ([EvRefresh] ++ fetch_events (pool w)
                    ++ callback_events (pool w) 0 (Some err)) w).
Proof.
  intros Hcfg Hmu Hfetch. unfold Refresh, bind, emit, getPool. cbn.
  rewrite (configured_test _ Hcfg), Hmu.
  unfold fetched, fetch_events, callback_events in *.
  destruct w as [h p t tr sp]; cbn in *.
  destruct p as [ps mu url mx ex mn fn og orf rr]; cbn in *. subst mu.
  destruct fn as [fn|]; cbn.
  - rewrite Hfetch. cbn. unfold callOnRefresh, unlockRefresh, bind, getPool,
      setPool, emit, ret, logged. cbn.
    destruct orf; cbn; by rewrite <- ?app_assoc.
  - injection Hfetch as <- <-. cbn.
    unfold callOnRefresh, unlockRefresh, bind, getPool,
      setPool, emit, ret, logged. cbn.
    destruct orf; cbn; by rewrite <- ?app_assoc.
Qed.

Lemma addAll_run cands : ∀ count w items,
  entries_of (heap w) (proxies (pool w)) items →
  ∃ count' w' items',
    addAll clock cands count w = Some (count', w') ∧
    entries_of (heap w') (proxies (pool w')) items' ∧
    count ≤ count' ≤ count + Z.of_nat (length cands) ∧
    Z.of_nat (length (proxies (pool w'))) =
      Z.of_nat (length (proxies (pool w))) + (count' - count) ∧
    same_settings (pool w) (pool w') ∧
    trace w' = trace w ∧ spawned w' = spawned w ∧
    (NoDup (endpoints items) → NoDup (endpoints items')).
Proof.
  induction cands as [|c cands IH]; intros count w items Hent.
  - exists count, w, items. cbn. unfold ret.
    repeat split; try done; try lia. apply same_settings_refl.
  - cbn [addAll].
    destruct (decide (key_of (IP c) (Port c) ∈ identities items))
      as [Hin|Hnew].
    + rewrite (bind_Some _ _ _ _ _
                 (AddProxy_duplicate _ _ _ items Hent Hin)).
      destruct (IH count w items Hent)
        as (count' & w' & items' & Hrun & Hent' & Hc & Hlen & Hs & Ht & Hsp
            & Hnd).
      exists count', w', items'. repeat split; try done; cbn [length]; lia.
    + rewrite (bind_Some _ _ _ _ _
                 (AddProxy_new _ _ _ items Hent Hnew)).
      destruct (IH (count + 1) _ _
                  (entries_of_inserted (IP c) (Port c) w items Hent))
        as (count' & w' & items' & Hrun & Hent' & Hc & Hlen & Hs & Ht & Hsp
            & Hnd).
      exists count', w', items'. cbn in Hlen, Hs, Ht, Hsp.
      rewrite length_app in Hlen. cbn in Hlen.
      repeat split; try done; cbn [length]; try lia.
      intros Hnd0. by apply Hnd, endpoints_inserted.
Qed.

Lemma emit_run e w : emit e w = Some (tt, logged [e] w).
Proof. done. Qed.

Lemma setPool_run p w : setPool p w = Some (tt, with_pool p w).
Proof. done. Qed.

Lemma logged_nil w : logged [] w = w.
Proof. unfold logged. rewrite app_nil_r. by destruct w. Qed.

Lemma callOnRefresh_run count err w :
  callOnRefresh count err w =
    Some (tt, logged (callback_events (pool w) count err) w).
Proof.
  unfold callOnRefresh, callback_events.
  rewrite (bind_Some _ _ _ _ _ (getPool_run w)).
  destruct (onRefresh (pool w)); [done|]. by rewrite logged_nil.
Qed.

Lemma unlockRefresh_run w :
  unlockRefresh w = Some (tt, with_pool (set_refreshMu false (pool w)) w).
Proof. done. Qed.

Ltac run_with H := rewrite (bind_Some _ _ _ _ _ H).

Lemma Refresh_ok w items cands :
  configured (pool w) → refreshMu (pool w) = false →
  fetched (pool w) = (cands, None) →
  entries_of (heap w) (proxies (pool w)) items →
  ∃ count w' items',
    Refresh clock w = Some (None, w') ∧
    trace w' = trace w ++ [EvRefresh] ++ fetch_events (pool w)
                 ++ callback_events (pool w) count None ∧
    0 ≤ count ≤ Z.of_nat (length cands) ∧
    Z.of_nat (length (proxies (pool w'))) =
      Z.of_nat (length (proxies (pool w))) + count ∧
    same_settings (pool w) (pool w') ∧
    entries_of (heap w') (proxies (pool w')) items' ∧
    spawned w' = spawned w ∧
    (NoDup (endpoints items) → NoDup (endpoints items')).
Proof.
  intros Hcfg Hmu Hfetch Hent. unfold Refresh.
  run_with (emit_run EvRefresh w).
  run_with (getPool_run (logged [EvRefresh] w)).
  cbn [pool logged].
  rewrite (configured_test _ Hcfg), Hmu.
  run_with (setPool_run (set_refreshMu true (pool w))
              (logged [EvRefresh] w)).
  unfold fetched, fetch_events in *.
  destruct (fetchFunc (pool w)) as [fn|] eqn:Hfn; [|done].
  set (w1 := logged [EvFetch (apiURL (pool w))]
               (with_pool (set_refreshMu true (pool w))
                  (logged [EvRefresh] w))).
  rewrite (bind_Some _ _ _ (fn (apiURL (pool w))) w1) by done.
  rewrite Hfetch. cbn [fst snd].
  destruct (addAll_run cands 0 w1 items Hent)
    as (count & w2 & items' & Hrun & Hent' & Hc & Hlen & Hs & Ht & Hsp
        & Hnd).
  run_with Hrun. run_with (callOnRefresh_run count None w2).
  run_with (unlockRefresh_run
              (logged (callback_events (pool w2) count None) w2)).
  cbn in Hlen, Hs, Ht, Hsp.
  assert (onRefresh (pool w2) = onRefresh (pool w)) as Hcb
    by (by rewrite Hs).
  exists count. eexists. exists items'. split; [reflexivity|].
  cbn [trace heap pool spawned ticks with_pool logged proxies
       set_refreshMu].
  unfold callback_events. rewrite Ht, Hcb, Hsp, <- !app_assoc.
  repeat split; try done; try lia.
  unfold same_settings. rewrite Hs. cbn. rewrite <- Hmu.
  by destruct (pool w).
Qed.

(** C6, as the code has it. With the supplier configured, a [Refresh]
    that finds the refresh lock held returns nil at once: no fetch, no
    callback, and the store and the pool are as before. With the supplier
    configured and the lock free, when the fetch gives an error,
    [Refresh] passes that error with a zero count to the callback (when
    one is set), returns it, and the store and the pool are as before.
    With neither a source address nor a fetch function, [Refresh] returns
    [ErrAPIURLEmpty], whether the lock is held or free: no fetch, no
    callback, the lock untouched, and the store and the pool are as
    before. *)
Theorem Refresh_skips_when_busy_and_surfaces_failure w :
  (configured (pool w) → refreshMu (pool w) = true →
     ∃ w', Refresh clock w = Some (None, w') ∧
           heap w' = heap w ∧ pool w' = pool w ∧ ticks w' = ticks w ∧
           spawned w' = spawned w ∧
           trace w' = trace w ++ [EvRefresh]) ∧
  (configured (pool w) → refreshMu (pool w) = false →
     ∀ cands err, fetched (pool w) = (cands, Some err) →
     ∃ w', Refresh clock w = Some (Some err, w') ∧
           heap w' = heap w ∧ pool w' = pool w ∧ ticks w' = ticks w ∧
           spawned w' = spawned w ∧
           trace w' = trace w ++ [EvRefresh] ++ fetch_events (pool w)
                        ++ (if onRefresh (pool w)
                            then [EvOnRefresh 0 (Some err)] else [])) ∧
  (apiURL (pool w) = "" → fetchFunc (pool w) = None →
     ∃ w', Refresh clock w = Some (Some ErrAPIURLEmpty, w') ∧
           heap w' = heap w ∧ pool w' = pool w ∧ ticks w' = ticks w ∧
           spawned w' = spawned w ∧
           trace w' = trace w ++ [EvRefresh]) ∧
  (configured (pool w) ∨ (apiURL (pool w) = "" ∧ fetchFunc (pool w) = None)).
Proof.
  split; [|split; [|split]].
  - intros Hcfg Hmu. eexists. split; [by apply Refresh_busy|]. by cbn.
  - intros Hcfg Hmu cands err Hfetch. eexists.
    split; [by apply (Refresh_failed _ cands)|]. by cbn.
  - intros Hurl Hfn. eexists.
    split; [by apply Refresh_unconfigured|]. by cbn.
  - destruct (decide (apiURL (pool w) = "")) as [Hurl|Hurl]; [|left; by left].
    destruct (fetchFunc (pool w)) as [fn|] eqn:Hfn; [|by right].
    left. right. by rewrite Hfn.
Qed.

(** C7, as the code has it. With a callback set: a [Refresh] that finds
    the supplier configured and the refresh lock free invokes the
    callback exactly once, with the error of the fetch and a zero count,
    or with no error and the number of entries inserted, which is not
    negative, and it returns the error it passed; a [Refresh] that
    returns early, the supplier not being configured or the lock being
    held, does not invoke it. *)
Theorem Refresh_calls_back_once w items :
  entries_of (heap w) (proxies (pool w)) items →
  onRefresh (pool w) = true →
  (configured (pool w) → refreshMu (pool w) = false →
     ∃ r w' evs count,
       Refresh clock w = Some (r, w') ∧
       trace w' = trace w ++ evs ∧
       refresh_calls evs = [(count, r)] ∧
       (match r with
        | None =>
            0 ≤ count ∧
            Z.of_nat (length (proxies (pool w'))) =
              Z.of_nat (length (proxies (pool w))) + count
        | Some _ => count = 0 ∧ proxies (pool w') = proxies (pool w)
        end)) ∧
  (apiURL (pool w) = "" → fetchFunc (pool w) = None →
     ∃ w' evs,
       Refresh clock w = Some (Some ErrAPIURLEmpty, w') ∧
       trace w' = trace w ++ evs ∧ refresh_calls evs = []) ∧
  (configured (pool w) → refreshMu (pool w) = true →
     ∃ w' evs,
       Refresh clock w = Some (None, w') ∧
       trace w' = trace w ++ evs ∧ refresh_calls evs = []).
Proof.
  intros Hent Hcb. split; [|split].
  - intros Hcfg Hmu.
    destruct (fetched (pool w)) as [cands [err|]] eqn:Hfetch.
    + exists (Some err). eexists. eexists. exists 0.
      split; [by apply (Refresh_failed _ cands)|].
      split; [reflexivity|].
      unfold callback_events, fetch_events. rewrite Hcb.
      by destruct (fetchFunc (pool w)).
    + destruct (Refresh_ok w items cands Hcfg Hmu Hfetch Hent)
        as (count & w' & items' & Hrun & Htr & Hc & Hlen & _).
      exists None, w'. eexists. exists count.
      split; [done|]. split; [done|].
      unfold callback_events, fetch_events. rewrite Hcb.
      split; [by destruct (fetchFunc (pool w))|]. split; [lia|done].
  - intros Hurl Hfn. exists (logged [EvRefresh] w), [EvRefresh].
    split; [by apply Refresh_unconfigured|done].
  - intros Hcfg Hmu. exists (logged [EvRefresh] w), [EvRefresh].
    split; [by apply Refresh_busy|done].
Qed.

(** *** Acquisition *)

Lemma filterAvailable_run ps : ∀ w,
  (∀ a, a ∈ ps → is_Some (heap w !! a)) →
  filterAvailable clock ps w =
    Some (available_at (heap w) (ticks w) ps, tick (length ps) w).
Proof.
  induction ps as [|a ps IH]; intros w Hwf.
  - cbn. unfold ret. by rewrite tick_0.
  - destruct (Hwf a) as [it Hit]; [left|].
    cbn [filterAvailable available_at length].
    run_with (IsAvailable_run a w it Hit).
    rewrite (bind_Some _ _ _ _ _ (IH (tick 1 w)
               (λ b Hb, Hwf b (list_elem_of_further _ _ _ Hb)))).
    rewrite Hit. unfold ret. cbn [tick heap ticks].
    rewrite tick_tick. replace (length ps + 1)%nat with (S (length ps)) by lia.
    by destruct (ProxyItem.IsAvailable (clock (ticks w)) it).
Qed.

Lemma available_at_subset h t ps a :
  a ∈ available_at h t ps → a ∈ ps.
Proof.
  revert t. induction ps as [|b ps IH]; intros t Hin; cbn in Hin; [done|].
  destruct (h !! b) as [it|]; [destruct (ProxyItem.IsAvailable _ it)|];
    try (apply elem_of_cons in Hin as [->|Hin]; [by left|]);
    right; by eapply IH.
Qed.

Lemma available_at_all h t ps :
  (∀ a, a ∈ ps → ∃ it, h !! a = Some it ∧ always_available it) →
  available_at h t ps = ps.
Proof.
  revert t. induction ps as [|b ps IH]; intros t Hall; cbn; [done|].
  destruct (Hall b) as (it & -> & Hexp & Hcnt); [left|].
  rewrite (IsAvailable_before_below (clock t) it (Hexp t) Hcnt).
  f_equal. apply IH. intros a Ha. apply Hall. by right.
Qed.

Lemma cleanupUnsafe_run w :
  well_formed w →
  cleanupUnsafe clock w =
    Some (tt, with_pool
                (set_proxies
                   (available_at (heap w) (ticks w) (proxies (pool w)))
                   (pool w))
                (tick (length (proxies (pool w))) w)).
Proof.
  intros Hwf. unfold cleanupUnsafe.
  run_with (getPool_run w).
  run_with (filterAvailable_run _ w Hwf).
  by run_with (getPool_run (tick (length (proxies (pool w))) w)).
Qed.

Lemma pruned_well_formed w : well_formed w → well_formed (pruned w).
Proof.
  intros Hwf a Ha. cbn in *. apply Hwf. by eapply available_at_subset.
Qed.

Lemma refreshes_app tr1 tr2 :
  refreshes (tr1 ++ tr2) = (refreshes tr1 + refreshes tr2)%nat.
Proof.
  induction tr1 as [|[] tr1 IH]; cbn; by rewrite ?IH.
Qed.

Lemma refreshes_of_Refresh p count err :
  refreshes ([EvRefresh] ++ fetch_events p ++ callback_events p count err)
  = 1%nat.
Proof.
  unfold fetch_events, callback_events.
  by destruct (fetchFunc p), (onRefresh p).
Qed.

Lemma configured_dec p :
  {apiURL p = "" ∧ fetchFunc p = None} + {configured p}.
Proof.
  destruct (decide (apiURL p = "")) as [Hurl|Hurl]; [|right; by left].
  destruct (fetchFunc p) as [fn|] eqn:Hfn; [|by left].
  right. right. by rewrite Hfn.
Qed.

(** [Refresh] returns, whatever the state of the pool; it is entered
    once, starts no goroutine and leaves the pool well formed. *)
Lemma Refresh_returns w :
  well_formed w →
  ∃ r w' evs,
    Refresh clock w = Some (r, w') ∧
    trace w' = trace w ++ evs ∧ refreshes evs = 1%nat ∧
    spawned w' = spawned w ∧ well_formed w' ∧
    same_settings (pool w) (pool w').
Proof.
  intros Hwf.
  destruct (configured_dec (pool w)) as [[Hurl Hfn]|Hcfg].
  { exists (Some ErrAPIURLEmpty), (logged [EvRefresh] w), [EvRefresh].
    split; [by apply Refresh_unconfigured|].
    repeat split; try done. apply same_settings_refl. }
  destruct (refreshMu (pool w)) eqn:Hmu.
  { exists None, (logged [EvRefresh] w), [EvRefresh].
    split; [by apply Refresh_busy|].
    repeat split; try done. apply same_settings_refl. }
  destruct (fetched (pool w)) as [cands [err|]] eqn:Hfetch.
  - eexists (Some err), _, _.
    split; [by apply (Refresh_failed _ cands)|].
    split; [reflexivity|]. split; [apply refreshes_of_Refresh|].
    repeat split; try done. apply same_settings_refl.
  - destruct (entries_of_exists _ _ Hwf) as [items Hent].
    destruct (Refresh_ok w items cands Hcfg Hmu Hfetch Hent)
      as (count & w' & items' & Hrun & Htr & _ & _ & Hs & Hent' & Hsp & _).
    exists None, w'. eexists. split; [done|]. split; [done|].
    split; [apply refreshes_of_Refresh|]. repeat split; try done.
    intros a Ha. unfold entries_of in Hent'.
    apply list_elem_of_lookup in Ha as [i Hi].
    destruct (Forall2_lookup_l _ _ _ _ _ Hent' Hi) as (it & _ & Hit).
    by exists it.
Qed.

Lemma Get_replenish_empty w r w2 :
  well_formed w →
  proxies (pool (pruned w)) = [] →
  Refresh clock (pruned w) = Some (r, w2) →
  Get_replenish clock w = Some (tt, w2).
Proof.
  intros Hwf Hempty Hrun. unfold Get_replenish.
  run_with (cleanupUnsafe_run w Hwf). fold (pruned w).
  run_with (getPool_run (pruned w)). rewrite Hempty. cbn [length Nat.eqb].
  by run_with Hrun.
Qed.

Lemma Get_replenish_low w :
  well_formed w →
  proxies (pool (pruned w)) ≠ [] →
  Z.of_nat (length (proxies (pool (pruned w)))) < minPoolSize (pool w) →
  Get_replenish clock w = Some (tt, spawn GoRefresh (pruned w)).
Proof.
  intros Hwf Hne Hlow. unfold Get_replenish.
  run_with (cleanupUnsafe_run w Hwf). fold (pruned w).
  run_with (getPool_run (pruned w)).
  destruct (proxies (pool (pruned w))) as [|a ps] eqn:Hps; [done|].
  change (length (a :: ps) =? 0)%nat with false. cbv iota.
  change (minPoolSize (pool (pruned w))) with (minPoolSize (pool w)).
  by rewrite (proj2 (Z.ltb_lt _ _) Hlow).
Qed.

Lemma Get_replenish_healthy w :
  well_formed w →
  proxies (pool (pruned w)) ≠ [] →
  minPoolSize (pool w) ≤ Z.of_nat (length (proxies (pool (pruned w)))) →
  Get_replenish clock w = Some (tt, pruned w).
Proof.
  intros Hwf Hne Hok. unfold Get_replenish.
  run_with (cleanupUnsafe_run w Hwf). fold (pruned w).
  run_with (getPool_run (pruned w)).
  destruct (proxies (pool (pruned w))) as [|a ps] eqn:Hps; [done|].
  change (length (a :: ps) =? 0)%nat with false. cbv iota.
  change (minPoolSize (pool (pruned w))) with (minPoolSize (pool w)).
  by rewrite (proj2 (Z.ltb_ge _ _) Hok).
Qed.

(** C2. In [Get], after the pruning pass: when the collection is empty,
    [Refresh] is run once, to its end, before the scan for available
    entries, which starts from the world [Refresh] leaves, and no
    goroutine is started; when the collection is not empty and smaller
    than the minimum size, [Refresh] is handed to a goroutine and the
    scan starts from the pruned world as it is, nothing having been
    fetched or inserted; otherwise the scan starts from the pruned
    world. *)
Theorem Get_replenishes_sync_when_empty_async_when_low w :
  well_formed w →
  cleanupUnsafe clock w = Some (tt, pruned w) ∧
  (proxies (pool (pruned w)) = [] →
     ∃ r w2 evs,
       Refresh clock (pruned w) = Some (r, w2) ∧
       trace w2 = trace (pruned w) ++ evs ∧
       refreshes evs = 1%nat ∧
       spawned w2 = spawned (pruned w) ∧
       Get clock racers w = Get_select clock racers w2) ∧
  (proxies (pool (pruned w)) ≠ [] →
   Z.of_nat (length (proxies (pool (pruned w)))) < minPoolSize (pool w) →
     Get clock racers w =
       Get_select clock racers (spawn GoRefresh (pruned w)) ∧
     spawned (spawn GoRefresh (pruned w)) = spawned w ++ [GoRefresh] ∧
     trace (spawn GoRefresh (pruned w)) = trace w ∧
     heap (spawn GoRefresh (pruned w)) = heap w ∧
     pool (spawn GoRefresh (pruned w)) = pool (pruned w)) ∧
  (proxies (pool (pruned w)) ≠ [] →
   minPoolSize (pool w) ≤ Z.of_nat (length (proxies (pool (pruned w)))) →
     Get clock racers w = Get_select clock racers (pruned w)).
Proof.
  intros Hwf. split; [by apply cleanupUnsafe_run|]. split; [|split].
  - intros Hempty.
    destruct (Refresh_returns (pruned w) (pruned_well_formed w Hwf))
      as (r & w2 & evs & Hrun & Htr & Hone & Hsp & _).
    exists r, w2, evs. repeat split; try done.
    unfold Get. by run_with (Get_replenish_empty w r w2 Hwf Hempty Hrun).
  - intros Hne Hlow. split; [|done].
    unfold Get. by run_with (Get_replenish_low w Hwf Hne Hlow).
  - intros Hne Hok.
    unfold Get. by run_with (Get_replenish_healthy w Hwf Hne Hok).
Qed.

Lemma IncrementUseCount_run_false a it w :
  heap w !! a = Some it →
  ProxyItem.maxUseCount it ≤ ProxyItem.usedCount it →
  IncrementUseCount clock a w = Some (false, w).
Proof.
  intros Hit Hlim. unfold IncrementUseCount, ProxyItem.IncrementUseCount.
  by rewrite Hit, IncrementUseCount_at_limit.
Qed.

Lemma IncrementUseCount_run_true a it w :
  heap w !! a = Some it →
  ProxyItem.usedCount it < ProxyItem.maxUseCount it →
  IncrementUseCount clock a w =
    Some (true, mkWorld (<[a := claimed_entry (ticks w) it]> (heap w))
                        (pool w) (S (ticks w)) (trace w) (spawned w)).
Proof.
  intros Hit Hlim. unfold IncrementUseCount, ProxyItem.IncrementUseCount.
  rewrite Hit, IncrementUseCount_loop_S.
  by rewrite (proj2 (geb_false _ _) Hlim).
Qed.

Lemma Get_select_none_available w :
  well_formed w → scanned w = [] →
  Get_select clock racers w =
    Some ((None, Some ErrNoAvailableProxy),
          tick (length (proxies (pool w))) w).
Proof.
  intros Hwf Hnone. unfold Get_select.
  run_with (getPool_run w). run_with (filterAvailable_run _ w Hwf).
  fold (scanned w). by rewrite Hnone.
Qed.

(** The common prefix of the two outcomes of a claim. *)
Lemma Get_select_to_claim w a :
  well_formed w → scanned w ≠ [] → chosen w = Some a →
  Get_select clock racers w =
    bind (IncrementUseCount clock a)
      (λ claimed : bool,
         if claimed then
           bind getPool (λ p,
             bind (if onProxyGet p then emit (EvOnProxyGet a) else ret tt)
               (λ _, ret (Some a, None)))
         else ret (None, Some ErrNoAvailableProxy))
      (at_claim w).
Proof.
  intros Hwf Hsome Hchosen. unfold Get_select.
  run_with (getPool_run w). run_with (filterAvailable_run _ w Hwf).
  fold (scanned w).
  destruct (scanned w) as [|b avail] eqn:Hscan; [done|].
  change (length (b :: avail) =? 0)%nat with false. cbv iota.
  run_with (getPool_run (tick (length (proxies (pool w))) w)).
  cbn [pool tick].
  match goal with
  | |- context [setPool ?P] =>
      run_with (setPool_run P (tick (length (proxies (pool w))) w))
  end.
  unfold chosen in Hchosen. rewrite Hscan in Hchosen.
  match goal with
  | |- bind (index _ ?I) _ ?W = _ =>
      rewrite (bind_Some _ _ W a W)
  end.
  - by rewrite (bind_Some _ _ _ tt (at_claim w)).
  - unfold index.
    destruct (Z.rem (roundRobinIdx (pool w)) (Z.of_nat (length (b :: avail)))
              <? 0); [done|].
    by rewrite Hchosen.
Qed.

Lemma Get_select_claim_fails w a it :
  well_formed w → scanned w ≠ [] → chosen w = Some a →
  racers (heap w) !! a = Some it →
  ProxyItem.maxUseCount it ≤ ProxyItem.usedCount it →
  Get_select clock racers w =
    Some ((None, Some ErrNoAvailableProxy), at_claim w).
Proof.
  intros Hwf Hsome Hchosen Hit Hlim.
  rewrite (Get_select_to_claim w a) by done.
  by run_with (IncrementUseCount_run_false a it (at_claim w) Hit Hlim).
Qed.

Lemma Get_select_claims w a it :
  well_formed w → scanned w ≠ [] → chosen w = Some a →
  racers (heap w) !! a = Some it →
  ProxyItem.usedCount it < ProxyItem.maxUseCount it →
  Get_select clock racers w = Some ((Some a, None), after_claim a it w).
Proof.
  intros Hwf Hsome Hchosen Hit Hlim.
  rewrite (Get_select_to_claim w a) by done.
  run_with (IncrementUseCount_run_true a it (at_claim w) Hit Hlim).
  unfold after_claim, bind, getPool, emit, ret. cbn.
  destruct (onProxyGet (pool w)); [done|]. by rewrite app_nil_r.
Qed.

Lemma Get_select_panics w :
  well_formed w → scanned w ≠ [] →
  (chosen w = None ∨ ∃ a, chosen w = Some a ∧ racers (heap w) !! a = None) →
  Get_select clock racers w = None.
Proof.
  intros Hwf Hsome [Hnone|(a & Hchosen & Hgone)].
  - unfold Get_select.
    run_with (getPool_run w). run_with (filterAvailable_run _ w Hwf).
    fold (scanned w).
    destruct (scanned w) as [|b avail] eqn:Hscan; [done|].
    change (length (b :: avail) =? 0)%nat with false. cbv iota.
    run_with (getPool_run (tick (length (proxies (pool w))) w)).
    cbn [pool tick].
    match goal with
    | |- context [setPool ?P] =>
        run_with (setPool_run P (tick (length (proxies (pool w))) w))
    end.
    apply bind_None. unfold chosen in Hnone. rewrite Hscan in Hnone.
    unfold index.
    destruct (Z.rem (roundRobinIdx (pool w)) (Z.of_nat (length (b :: avail)))
              <? 0); [done|].
    by rewrite Hnone.
  - rewrite (Get_select_to_claim w a) by done.
    apply bind_None. unfold IncrementUseCount. cbn [heap at_claim].
    by rewrite Hgone.
Qed.

Lemma chosen_in_range (c : Z) ps :
  0 ≤ c → ps ≠ [] →
  (Z.rem c (Z.of_nat (length ps)) <? 0) = false ∧
  Z.rem c (Z.of_nat (length ps)) = c `mod` Z.of_nat (length ps) ∧
  0 ≤ c `mod` Z.of_nat (length ps) < Z.of_nat (length ps).
Proof.
  intros Hc Hne.
  assert (0 < Z.of_nat (length ps)) as Hlen by (destruct ps; [done|cbn; lia]).
  rewrite Z.rem_mod_nonneg by lia.
  pose proof (Z.mod_pos_bound c _ Hlen). split; [|done].
  apply Z.ltb_ge. lia.
Qed.

Lemma Get_replenish_returns w :
  well_formed w →
  ∃ w2, Get_replenish clock w = Some (tt, w2) ∧ well_formed w2 ∧
        same_settings (pool w) (pool w2).
Proof.
  intros Hwf.
  destruct (decide (proxies (pool (pruned w)) = [])) as [Hempty|Hne].
  - destruct (Refresh_returns (pruned w) (pruned_well_formed w Hwf))
      as (r & w2 & evs & Hrun & _ & _ & _ & Hwf2 & Hs).
    exists w2. split; [by apply (Get_replenish_empty w r)|]. split; [done|].
    exact Hs.
  - destruct (Z_lt_le_dec (Z.of_nat (length (proxies (pool (pruned w)))))
                (minPoolSize (pool w))) as [Hlow|Hok].
    + exists (spawn GoRefresh (pruned w)).
      split; [by apply Get_replenish_low|].
      split; [by apply pruned_well_formed|done].
    + exists (pruned w).
      split; [by apply Get_replenish_healthy|].
      split; [by apply pruned_well_formed|done].
Qed.

(** [Get] returns: on a pool whose addresses all hold entries, with a
    cursor that has not wrapped around and entries that the other
    goroutines do not remove. *)
Lemma Get_returns w :
  well_formed w →
  0 ≤ roundRobinIdx (pool w) →
  (∀ h a, is_Some (h !! a) → is_Some (racers h !! a)) →
  ∃ res w', Get clock racers w = Some (res, w').
Proof.
  intros Hwf Hc Hkeep.
  destruct (Get_replenish_returns w Hwf) as (w2 & Hrep & Hwf2 & Hs).
  assert (roundRobinIdx (pool w2) = roundRobinIdx (pool w)) as Hc2
    by (by rewrite Hs).
  unfold Get. rewrite (bind_Some _ _ _ _ _ Hrep).
  destruct (decide (scanned w2 = [])) as [Hnone|Hsome].
  { eexists _, _. by apply Get_select_none_available. }
  destruct (chosen_in_range (roundRobinIdx (pool w2)) (scanned w2))
    as (Hneg & Hrem & Hrange); [lia|done|].
  destruct (lookup_lt_is_Some_2 (scanned w2)
              (Z.to_nat (roundRobinIdx (pool w2)
                           `mod` Z.of_nat (length (scanned w2)))))
    as [a Ha]; [lia|].
  assert (chosen w2 = Some a) as Hchosen.
  { unfold chosen. rewrite Hneg. by rewrite Hrem. }
  assert (a ∈ proxies (pool w2)) as Hin.
  { apply (available_at_subset (heap w2) (ticks w2)).
    apply list_elem_of_lookup. eauto. }
  destruct (Hkeep _ _ (Hwf2 a Hin)) as [it Hit].
  destruct (Z_lt_le_dec (ProxyItem.usedCount it) (ProxyItem.maxUseCount it))
    as [Hlt|Hge].
  - eexists _, _. by apply (Get_select_claims w2 a it).
  - eexists _, _. by apply (Get_select_claim_fails w2 a it).
Qed.

(** C3. A [Get] that returns returns either an entry and no error, or no
    entry and [ErrNoAvailableProxy]. With [w2] the world after pruning
    and replenishment, it returns the error exactly when the list of
    available entries built from [w2] is empty or the claim on the entry
    picked by the cursor fails; and when that claim fails, no entry has
    been claimed: the store is as the other goroutines left it, the
    cursor is one further and nothing was reported. *)
Theorem Get_errs_only_NoAvailableProxy w res w' :
  well_formed w →
  Get clock racers w = Some (res, w') →
  ∃ w2,
    Get_replenish clock w = Some (tt, w2) ∧
    (res = (None, Some ErrNoAvailableProxy) ∨ ∃ a, res = (Some a, None)) ∧
    (res.2 = Some ErrNoAvailableProxy ↔
       scanned w2 = [] ∨ ∃ a, chosen w2 = Some a ∧ claim_fails w2 a) ∧
    (∀ a, scanned w2 ≠ [] → chosen w2 = Some a → claim_fails w2 a →
          res = (None, Some ErrNoAvailableProxy) ∧
          heap w' = racers (heap w2) ∧
          roundRobinIdx (pool w') =
            wrap64 (roundRobinIdx (pool w2) + 1) ∧
          proxies (pool w') = proxies (pool w2) ∧
          trace w' = trace w2) ∧
    (∀ a, res = (Some a, None) →
          chosen w2 = Some a ∧
          ∃ it, racers (heap w2) !! a = Some it ∧
                ProxyItem.usedCount it < ProxyItem.maxUseCount it ∧
                heap w' !! a =
                  Some (claimed_entry (ticks (at_claim w2)) it)).
Proof.
  intros Hwf Hget.
  destruct (Get_replenish_returns w Hwf) as (w2 & Hrep & Hwf2 & _).
  exists w2. split; [done|].
  unfold Get in Hget. rewrite (bind_Some _ _ _ _ _ Hrep) in Hget.
  destruct (decide (scanned w2 = [])) as [Hnone|Hsome].
  { rewrite (Get_select_none_available w2 Hwf2 Hnone) in Hget.
    injection Hget as <- <-. cbn.
    split; [by left|]. split; [by split; [left|]|].
    split; [done|]. by intros a [=]. }
  destruct (chosen w2) as [a|] eqn:Hchosen;
    [|by rewrite (Get_select_panics w2 Hwf2 Hsome) in Hget by (by left)].
  destruct (racers (heap w2) !! a) as [it|] eqn:Hit;
    [|by rewrite (Get_select_panics w2 Hwf2 Hsome) in Hget
        by (right; by exists a)].
  destruct (Z_lt_le_dec (ProxyItem.usedCount it) (ProxyItem.maxUseCount it))
    as [Hlt|Hge].
  - rewrite (Get_select_claims w2 a it Hwf2 Hsome Hchosen Hit Hlt) in Hget.
    injection Hget as <- <-. cbn.
    split; [right; by exists a|]. split; [|split].
    + split; [done|]. intros [?|(b & [= <-] & it' & Hit' & Hlim)]; [done|].
      rewrite Hit in Hit'. injection Hit' as <-. lia.
    + intros b _ [= <-] (it' & Hit' & Hlim).
      rewrite Hit in Hit'. injection Hit' as <-. lia.
    + intros b [= <-]. split; [done|]. exists it.
      split; [done|]. split; [done|]. apply lookup_insert_eq.
  - rewrite (Get_select_claim_fails w2 a it Hwf2 Hsome Hchosen Hit Hge)
      in Hget.
    injection Hget as <- <-. cbn.
    split; [by left|]. split; [|split].
    + split; [|done]. intros _. right. exists a. split; [done|].
      by exists it.
    + by intros b _ [= <-] _.
    + by intros b [=].
Qed.

(** *** Round robin *)

Lemma ready_well_formed budget w : ready budget w → well_formed w.
Proof. intros Hr a Ha. destruct (Hr a Ha) as (it & Hit & _). by exists it. Qed.

Lemma ready_available budget w t :
  ready budget w → (∀ a, a ∈ proxies (pool w) → 1 ≤ budget a) →
  available_at (heap w) t (proxies (pool w)) = proxies (pool w).
Proof.
  intros Hr Hb. apply available_at_all. intros a Ha.
  destruct (Hr a Ha) as (it & Hit & Hexp & _ & _ & Hbud).
  exists it. split; [done|]. split; [done|]. specialize (Hb a Ha). lia.
Qed.

Lemma Get_replenish_nonempty w :
  well_formed w → proxies (pool (pruned w)) ≠ [] →
  ∃ w2, Get_replenish clock w = Some (tt, w2) ∧
        heap w2 = heap w ∧ pool w2 = pool (pruned w) ∧
        ticks w2 = ticks (pruned w) ∧ trace w2 = trace w.
Proof.
  intros Hwf Hne.
  destruct (Z_lt_le_dec (Z.of_nat (length (proxies (pool (pruned w)))))
              (minPoolSize (pool w))) as [Hlow|Hok].
  - exists (spawn GoRefresh (pruned w)).
    split; [by apply Get_replenish_low|done].
  - exists (pruned w). split; [by apply Get_replenish_healthy|done].
Qed.

(** One [Get] on a pool whose entries are all available, nobody else
    touching the entries: the entry at the cursor modulo the size is
    claimed and the cursor moves by one. *)
Lemma Get_step budget w :
  (∀ h, racers h = h) →
  ready budget w →
  (∀ a, a ∈ proxies (pool w) → 1 ≤ budget a) →
  proxies (pool w) ≠ [] →
  0 ≤ roundRobinIdx (pool w) < int64_max →
  ∃ a w',
    Get clock racers w = Some ((Some a, None), w') ∧
    proxies (pool w) !!
      Z.to_nat (roundRobinIdx (pool w)
                  `mod` Z.of_nat (length (proxies (pool w)))) = Some a ∧
    proxies (pool w') = proxies (pool w) ∧
    roundRobinIdx (pool w') = roundRobinIdx (pool w) + 1 ∧
    ready (spend a budget) w'.
Proof.
  intros Hquiet Hr Hb Hne Hc.
  pose proof (ready_well_formed _ _ Hr) as Hwf.
  assert (proxies (pool (pruned w)) = proxies (pool w)) as Hpruned
    by (cbn; by apply (ready_available budget)).
  destruct (Get_replenish_nonempty w Hwf) as (w2 & Hrep & Hh & Hp & Ht & Htr);
    [by rewrite Hpruned|].
  assert (proxies (pool w2) = proxies (pool w)) as Hps2 by (by rewrite Hp).
  assert (roundRobinIdx (pool w2) = roundRobinIdx (pool w)) as Hc2
    by (by rewrite Hp).
  assert (ready budget w2) as Hr2.
  { intros a Ha. rewrite Hh. apply Hr. by rewrite <- Hps2. }
  assert (scanned w2 = proxies (pool w)) as Hscan.
  { unfold scanned. rewrite <- Hps2. apply (ready_available budget); [done|].
    intros a Ha. apply Hb. by rewrite <- Hps2. }
  destruct (chosen_in_range (roundRobinIdx (pool w)) (proxies (pool w)))
    as (Hneg & Hrem & Hrange); [lia|done|].
  destruct (lookup_lt_is_Some_2 (proxies (pool w))
              (Z.to_nat (roundRobinIdx (pool w)
                           `mod` Z.of_nat (length (proxies (pool w))))))
    as [a Ha]; [lia|].
  assert (chosen w2 = Some a) as Hchosen.
  { unfold chosen. rewrite Hscan, Hc2, Hneg. by rewrite Hrem. }
  assert (a ∈ proxies (pool w)) as Hin
    by (apply list_elem_of_lookup; eauto).
  destruct (Hr a Hin) as (it & Hit & Hexp & Hu & Hm & Hbud).
  specialize (Hb a Hin) as Hba.
  exists a, (after_claim a it w2). split; [|split; [done|split; [|split]]].
  - unfold Get. run_with Hrep.
    apply Get_select_claims; try done.
    + by apply (ready_well_formed budget).
    + by rewrite Hscan.
    + by rewrite Hquiet, Hh.
    + lia.
  - cbn. by rewrite Hps2.
  - cbn. rewrite Hc2. apply wrap64_id.
    unfold is_int64, int64_min, int64_max in *. lia.
  - intros b Hb'. cbn in Hb'. rewrite Hps2 in Hb'.
    cbn [heap after_claim at_claim]. rewrite Hquiet, Hh. unfold spend.
    destruct (decide (b = a)) as [->|Hne'].
    + rewrite lookup_insert_eq. eexists. split; [done|].
      unfold claimed_entry. cbn.
      rewrite (wrap64_succ _ (ProxyItem.maxUseCount it)) by (done || lia).
      repeat split; try done; unfold is_int64, int64_min, int64_max in *;
        lia.
    + rewrite lookup_insert_ne by done.
      destruct (Hr b Hb') as (it' & Hit' & ?). by exists it'.
Qed.

Lemma GetN_S n w r w1 rs w2 :
  Get clock racers w = Some (r, w1) →
  GetN clock racers n w1 = Some (rs, w2) →
  GetN clock racers (S n) w = Some (r :: rs, w2).
Proof.
  intros H1 H2. cbn [GetN]. run_with H1. by run_with H2.
Qed.

Lemma rotate_perm {A : Type} (n : nat) (l : list A) : rotate n l ≡ₚ l.
Proof.
  unfold rotate. rewrite Permutation_app_comm. by rewrite take_drop.
Qed.

Lemma mod3_shift (c r k : Z) :
  c `mod` 3 = r → (c + k) `mod` 3 = (r + k) `mod` 3.
Proof. intros <-. by rewrite Zplus_mod_idemp_l. Qed.

(** The budgets of three distinct entries after some uses. *)
Ltac budget_ok :=
  let a := fresh "a" in
  let Ha := fresh "Ha" in
  intros a Ha;
  repeat (apply elem_of_cons in Ha as [->|Ha]);
  [| | | by apply elem_of_nil in Ha];
  unfold spend; repeat case_decide; first [lia | congruence].

(** One more call: from the facts about the world [w], those about the
    next one. *)
Ltac next_call Hquiet Hmod Hps Hc Hr a w' Hget Hps' Hc' Hr' :=
  let Hlook := fresh "Hlook" in
  match type of Hr with
  | ready ?budget ?w =>
      destruct (Get_step budget w Hquiet Hr)
        as (a & w' & Hget & Hlook & Hps' & Hc' & Hr');
      [ rewrite Hps; budget_ok
      | by rewrite Hps
      | rewrite Hc; unfold int64_max in *; lia
      | rewrite Hps, Hc in Hlook; cbn [length] in Hlook;
        change (Z.of_nat 3) with 3 in Hlook;
        rewrite (mod3_shift _ _ _ Hmod) in Hlook;
        injection Hlook as <-;
        rewrite Hps in Hps';
        rewrite Hc, <- Z.add_assoc in Hc'; cbn in Hc' ]
  end.

(** C8. Three entries that stay available, nothing added or removed and
    nobody else touching the entries: six calls of [Get] in a row return
    the three entries in the cyclic order that starts at the cursor
    modulo three, twice over, so each entry exactly twice; each call
    takes the entry at the cursor modulo the length of the list of
    available entries and moves the cursor by one. *)
Theorem Get_round_robin_three a0 a1 a2 w :
  (∀ h, racers h = h) →
  proxies (pool w) = [a0; a1; a2] →
  NoDup [a0; a1; a2] →
  (∀ a, a ∈ [a0; a1; a2] →
     ∃ it, heap w !! a = Some it ∧
           (∀ t, clock t < ProxyItem.expireTime it) ∧
           is_int64 (ProxyItem.usedCount it) ∧
           is_int64 (ProxyItem.maxUseCount it) ∧
           ProxyItem.usedCount it + 2 < ProxyItem.maxUseCount it) →
  0 ≤ roundRobinIdx (pool w) →
  roundRobinIdx (pool w) + 6 ≤ int64_max →
  let order :=
    rotate (Z.to_nat (roundRobinIdx (pool w) `mod` 3)) [a0; a1; a2] in
  ∃ w',
    GetN clock racers 6 w =
      Some ((λ a, (Some a, None)) <$> (order ++ order), w') ∧
    order ≡ₚ [a0; a1; a2] ∧
    roundRobinIdx (pool w') = roundRobinIdx (pool w) + 6 ∧
    proxies (pool w') = [a0; a1; a2].
Proof.
  intros Hquiet Hps Hnd Hall Hc0 Hc6 order.
  apply NoDup_cons in Hnd as [Hn0 Hnd]. apply NoDup_cons in Hnd as [Hn1 _].
  assert (a0 ≠ a1) as H01 by (intros ->; apply Hn0; left).
  assert (a0 ≠ a2) as H02 by (intros ->; apply Hn0; right; left).
  assert (a1 ≠ a2) as H12 by (intros ->; apply Hn1; left).
  assert (ready (λ _, 3) w) as Hr.
  { intros a Ha. rewrite Hps in Ha.
    destruct (Hall a Ha) as (it & Hit & Hexp & Hu & Hm & Hbud).
    exists it. do 4 (split; [done|]). lia. }
  remember (roundRobinIdx (pool w)) as c eqn:Hc.
  assert (roundRobinIdx (pool w) = c + 0) as Hc' by lia. clear Hc.
  assert (c `mod` 3 = 0 ∨ c `mod` 3 = 1 ∨ c `mod` 3 = 2) as Hcases.
  { pose proof (Z.mod_pos_bound c 3 eq_refl). lia. }
  destruct Hcases as [Hmod|[Hmod|Hmod]]; subst order; rewrite Hmod;
    next_call Hquiet Hmod Hps Hc' Hr b1 w1 Hget1 Hps1 Hc1 Hr1;
    next_call Hquiet Hmod Hps1 Hc1 Hr1 b2 w2 Hget2 Hps2 Hc2 Hr2;
    next_call Hquiet Hmod Hps2 Hc2 Hr2 b3 w3 Hget3 Hps3 Hc3 Hr3;
    next_call Hquiet Hmod Hps3 Hc3 Hr3 b4 w4 Hget4 Hps4 Hc4 Hr4;
    next_call Hquiet Hmod Hps4 Hc4 Hr4 b5 w5 Hget5 Hps5 Hc5 Hr5;
    next_call Hquiet Hmod Hps5 Hc5 Hr5 b6 w6 Hget6 Hps6 Hc7 Hr6;
    exists w6;
    (split; [|split; [apply rotate_perm|split; [lia|done]]]);
    repeat (eapply GetN_S; [eassumption|]); reflexivity.
Qed.

(** *** The identities of the entries over the life of the pool *)

Lemma same_identities_refl h : same_identities h h.
Proof. intros a it Hit. by exists it. Qed.

Lemma same_identities_trans h1 h2 h3 :
  same_identities h1 h2 → same_identities h2 h3 → same_identities h1 h3.
Proof.
  intros H12 H23 a it Hit.
  destruct (H12 a it Hit) as (it2 & Hit2 & Hip2 & Hport2).
  destruct (H23 a it2 Hit2) as (it3 & Hit3 & Hip3 & Hport3).
  exists it3. split; [done|]. split; congruence.
Qed.

Lemma same_identities_claimed h a it t :
  h !! a = Some it → same_identities h (<[a := claimed_entry t it]> h).
Proof.
  intros Hit b it' Hb. destruct (decide (b = a)) as [->|Hne].
  - rewrite lookup_insert_eq. eexists. split; [done|].
    rewrite Hit in Hb. by injection Hb as <-.
  - rewrite lookup_insert_ne by done. by exists it'.
Qed.

Lemma entries_of_same_identities h h' ps items :
  entries_of h ps items → same_identities h h' →
  ∃ items', entries_of h' ps items' ∧ endpoints items' = endpoints items.
Proof.
  intros Hent Hsame. induction Hent as [|a it ps items Hit _ IH].
  - exists []. split; [constructor|done].
  - destruct IH as (items' & Hent' & Hend).
    destruct (Hsame a it Hit) as (it' & Hit' & Hip & Hport).
    exists (it' :: items'). split; [by constructor|].
    unfold endpoints in *. cbn. by rewrite Hip, Hport, Hend.
Qed.

Lemma entries_of_sublist h ps ps' :
  ps' `sublist_of` ps → ∀ items,
  entries_of h ps items →
  ∃ items', entries_of h ps' items' ∧ items' `sublist_of` items.
Proof.
  induction 1 as [|a ps' ps _ IH|a ps' ps _ IH]; intros items Hent.
  - exists []. split; [constructor|apply sublist_nil_l].
  - inversion Hent as [|? it ? items0 Hit Hrest]; subst.
    destruct (IH items0 Hrest) as (items' & Hent' & Hsub).
    exists (it :: items'). split; [by constructor|by constructor].
  - inversion Hent as [|? it ? items0 Hit Hrest]; subst.
    destruct (IH items0 Hrest) as (items' & Hent' & Hsub).
    exists items'. split; [done|by constructor].
Qed.

Lemma distinct_shrink w w' :
  distinct_endpoints w →
  proxies (pool w') `sublist_of` proxies (pool w) →
  same_identities (heap w) (heap w') →
  distinct_endpoints w'.
Proof.
  intros (items & Hent & Hnd) Hsub Hsame.
  destruct (entries_of_same_identities _ _ _ _ Hent Hsame)
    as (items1 & Hent1 & Hend1).
  destruct (entries_of_sublist _ _ _ Hsub items1 Hent1)
    as (items2 & Hent2 & Hsub2).
  exists items2. split; [done|].
  apply (sublist_NoDup _ (endpoints items1)); [by rewrite Hend1|].
  unfold endpoints. by apply fmap_sublist.
Qed.

Lemma distinct_well_formed w : distinct_endpoints w → well_formed w.
Proof.
  intros (items & Hent & _) a Ha.
  apply list_elem_of_lookup in Ha as [i Hi].
  destruct (Forall2_lookup_l _ _ _ _ _ Hent Hi) as (it & _ & Hit).
  by exists it.
Qed.

Lemma available_at_sublist h t ps : available_at h t ps `sublist_of` ps.
Proof.
  revert t. induction ps as [|a ps IH]; intros t; cbn; [constructor|].
  destruct (h !! a) as [it|];
    [destruct (ProxyItem.IsAvailable (clock t) it)|];
    by constructor.
Qed.

Lemma distinct_pruned w : distinct_endpoints w → distinct_endpoints (pruned w).
Proof.
  intros Hd. apply (distinct_shrink w); [done| |apply same_identities_refl].
  apply available_at_sublist.
Qed.

Lemma AddProxy_distinct ip port w r w' :
  distinct_endpoints w → AddProxy clock ip port w = Some (r, w') →
  distinct_endpoints w'.
Proof.
  intros (items & Hent & Hnd) Hrun.
  destruct (decide (key_of ip port ∈ identities items)) as [Hin|Hnew].
  - rewrite (AddProxy_duplicate _ _ _ items Hent Hin) in Hrun.
    injection Hrun as <- <-. by exists items.
  - rewrite (AddProxy_new _ _ _ items Hent Hnew) in Hrun.
    injection Hrun as <- <-. exists (items ++ [new_entry ip port w]).
    split; [by apply entries_of_inserted|by apply endpoints_inserted].
Qed.

Lemma Refresh_distinct w r w' :
  distinct_endpoints w → Refresh clock w = Some (r, w') →
  distinct_endpoints w'.
Proof.
  intros (items & Hent & Hnd) Hrun.
  destruct (configured_dec (pool w)) as [[Hurl Hfn]|Hcfg].
  { rewrite (Refresh_unconfigured w Hurl Hfn) in Hrun.
    injection Hrun as <- <-. by exists items. }
  destruct (refreshMu (pool w)) eqn:Hmu.
  { rewrite (Refresh_busy w Hcfg Hmu) in Hrun.
    injection Hrun as <- <-. by exists items. }
  destruct (fetched (pool w)) as [cands [err|]] eqn:Hfetch.
  - rewrite (Refresh_failed w cands err Hcfg Hmu Hfetch) in Hrun.
    injection Hrun as <- <-. by exists items.
  - destruct (Refresh_ok w items cands Hcfg Hmu Hfetch Hent)
      as (count & w2 & items' & Hrun2 & _ & _ & _ & _ & Hent' & _ & Hnd').
    rewrite Hrun2 in Hrun. injection Hrun as <- <-.
    exists items'. split; [done|by apply Hnd'].
Qed.

Lemma Get_replenish_distinct w w2 :
  distinct_endpoints w → Get_replenish clock w = Some (tt, w2) →
  distinct_endpoints w2.
Proof.
  intros Hd Hrep. pose proof (distinct_well_formed w Hd) as Hwf.
  pose proof (distinct_pruned w Hd) as Hdp.
  destruct (decide (proxies (pool (pruned w)) = [])) as [Hempty|Hne].
  - destruct (Refresh_returns (pruned w) (pruned_well_formed w Hwf))
      as (r & w3 & evs & Hrun & _).
    rewrite (Get_replenish_empty w r w3 Hwf Hempty Hrun) in Hrep.
    injection Hrep as <-. by apply (Refresh_distinct (pruned w) r).
  - destruct (Z_lt_le_dec (Z.of_nat (length (proxies (pool (pruned w)))))
                (minPoolSize (pool w))) as [Hlow|Hok].
    + rewrite (Get_replenish_low w Hwf Hne Hlow) in Hrep.
      injection Hrep as <-. exact Hdp.
    + rewrite (Get_replenish_healthy w Hwf Hne Hok) in Hrep.
      by injection Hrep as <-.
Qed.

Lemma Get_select_distinct w res w' :
  (∀ h, same_identities h (racers h)) →
  distinct_endpoints w → Get_select clock racers w = Some (res, w') →
  distinct_endpoints w'.
Proof.
  intros Hkeep Hd Hsel. pose proof (distinct_well_formed w Hd) as Hwf.
  destruct (decide (scanned w = [])) as [Hnone|Hsome].
  { rewrite (Get_select_none_available w Hwf Hnone) in Hsel.
    injection Hsel as <- <-.
    by apply (distinct_shrink w); [|done|apply same_identities_refl]. }
  destruct (chosen w) as [a|] eqn:Hchosen;
    [|by rewrite (Get_select_panics w Hwf Hsome) in Hsel by (by left)].
  destruct (racers (heap w) !! a) as [it|] eqn:Hit;
    [|by rewrite (Get_select_panics w Hwf Hsome) in Hsel
        by (right; by exists a)].
  destruct (Z_lt_le_dec (ProxyItem.usedCount it) (ProxyItem.maxUseCount it))
    as [Hlt|Hge].
  - rewrite (Get_select_claims w a it Hwf Hsome Hchosen Hit Hlt) in Hsel.
    injection Hsel as <- <-. apply (distinct_shrink w); [done|done|].
    apply (same_identities_trans _ (racers (heap w))); [apply Hkeep|].
    by apply same_identities_claimed.
  - rewrite (Get_select_claim_fails w a it Hwf Hsome Hchosen Hit Hge) in Hsel.
    injection Hsel as <- <-. apply (distinct_shrink w); [done|done|].
    apply Hkeep.
Qed.

(** [Cleanup] prunes and returns the number of entries dropped. *)
Lemma Cleanup_run w :
  well_formed w →
  Cleanup clock w =
    Some (Z.of_nat (length (proxies (pool w)))
            - Z.of_nat (length (proxies (pool (pruned w)))),
          pruned w).
Proof.
  intros Hwf. unfold Cleanup.
  run_with (getPool_run w). run_with (cleanupUnsafe_run w Hwf).
  by run_with (getPool_run (pruned w)).
Qed.

Lemma removeKey_run key ps : ∀ before items w,
  entries_of (heap w) ps items →
  ∃ r, removeKey key before ps w = Some (r, w) ∧
       ∀ l, r = Some l → l `sublist_of` before ++ ps.
Proof.
  induction ps as [|a ps IH]; intros before items w Hent.
  - exists None. split; [done|]. by intros l [=].
  - inversion Hent as [|? it ? items' Hit Hrest]; subst.
    cbn [removeKey]. run_with (String_run a w it Hit).
    destruct (String.eqb (ProxyItem.String it) key).
    + exists (Some (before ++ ps)). split; [done|]. intros l [= <-].
      apply sublist_app; [done|]. by constructor.
    + destruct (IH (before ++ [a]) items' w Hrest) as (r & Hrun & Hsub).
      exists r. split; [done|]. intros l Hl.
      rewrite (cons_middle a before ps), app_assoc. by apply Hsub.
Qed.

Lemma RemoveByString_distinct proxyStr w r w' :
  distinct_endpoints w → RemoveByString proxyStr w = Some (r, w') →
  distinct_endpoints w'.
Proof.
  intros Hd Hrun. destruct Hd as (items & Hent & Hnd).
  destruct (removeKey_run proxyStr (proxies (pool w)) [] items w Hent)
    as (l & Hrem & Hsub).
  unfold RemoveByString in Hrun.
  rewrite (bind_Some _ _ _ _ _ (getPool_run w)) in Hrun.
  rewrite (bind_Some _ _ _ _ _ Hrem) in Hrun.
  destruct l as [l|].
  - injection Hrun as <- <-.
    apply (distinct_shrink w); [by exists items| |apply same_identities_refl].
    by apply Hsub.
  - injection Hrun as <- <-. by exists items.
Qed.

(** X29. From a pool without two entries of the same (host, port), no
    sequence of calls of [AddProxy], [Refresh], [Get], [Cleanup],
    [Clear], [Remove] and [RemoveByString] leads to a pool with two such
    entries, as long as the other goroutines leave the host and the port
    of the entries as they are. Such is a new pool, which is empty. *)
Theorem endpoints_stay_distinct cs : ∀ w w',
  (∀ h, same_identities h (racers h)) →
  distinct_endpoints w →
  perform_all clock racers cs w = Some (tt, w') →
  distinct_endpoints w'.
Proof.
  induction cs as [|c cs IH]; intros w w' Hkeep Hd Hrun.
  - by injection Hrun as <-.
  - cbn [perform_all] in Hrun. unfold bind at 1 in Hrun.
    destruct (perform clock racers c w) as [[[] w1]|] eqn:Hc; [|done].
    apply (IH w1 w' Hkeep); [|done]. clear Hrun IH.
    pose proof (distinct_well_formed w Hd) as Hwf.
    destruct c as [ip port| | | | |ip port|proxyStr]; cbn [perform] in Hc.
    + unfold bind in Hc.
      destruct (AddProxy clock ip port w) as [[r w2]|] eqn:Hadd; [|done].
      injection Hc as <-. by apply (AddProxy_distinct ip port w r).
    + unfold bind in Hc.
      destruct (Refresh clock w) as [[r w2]|] eqn:Href; [|done].
      injection Hc as <-. by apply (Refresh_distinct w r).
    + unfold bind in Hc.
      destruct (Get clock racers w) as [[r w2]|] eqn:Hget; [|done].
      injection Hc as <-.
      destruct (Get_replenish_returns w Hwf) as (w3 & Hrep & _).
      unfold Get in Hget. rewrite (bind_Some _ _ _ _ _ Hrep) in Hget.
      apply (Get_select_distinct w3 r); [done| |done].
      by apply (Get_replenish_distinct w).
    + rewrite (bind_Some _ _ _ _ _ (Cleanup_run w Hwf)) in Hc.
      injection Hc as <-. by apply distinct_pruned.
    + injection Hc as <-.
      apply (distinct_shrink w); [done| |apply same_identities_refl].
      apply sublist_nil_l.
    + unfold bind, Remove in Hc.
      destruct (RemoveByString (ip +:+ ":" +:+ port) w) as [[r w2]|] eqn:Hrem;
        [|done].
      injection Hc as <-.
      by apply (RemoveByString_distinct (ip +:+ ":" +:+ port) w r).
    + unfold bind in Hc.
      destruct (RemoveByString proxyStr w) as [[r w2]|] eqn:Hrem; [|done].
      injection Hc as <-. by apply (RemoveByString_distinct proxyStr w r).
Qed.

(** A new pool has no entries. *)
Lemma New_distinct cfg h t tr sp :
  distinct_endpoints (mkWorld h (New cfg) t tr sp).
Proof. exists []. split; [constructor|constructor]. Qed.

End PoolFacts.

(** ** The properties on sample worlds *)

Lemma AddProxy_deduplicates_witness :
  entries_of (ProxyPool.heap Demo.drained)
    (ProxyPool.proxies (ProxyPool.pool Demo.drained)) [] ∧
  ∃ w1,
    ProxyPool.AddProxy (Demo.frozen 0) "10.0.0.1" "8080" Demo.drained
      = Some (true, w1) ∧
    ProxyPool.AddProxy (Demo.frozen 0) "10.0.0.1" "8080" w1
      = Some (false, w1) ∧
    length (ProxyPool.proxies (ProxyPool.pool w1)) = 1%nat.
Proof.
  assert (entries_of (ProxyPool.heap Demo.drained)
            (ProxyPool.proxies (ProxyPool.pool Demo.drained)) []) as Hent
    by constructor.
  split; [exact Hent|].
  apply (AddProxy_deduplicates (Demo.frozen 0) "10.0.0.1" "8080"
           Demo.drained [] Hent).
  reflexivity.
Defined.

Lemma GetStats_counts_overlap_and_miss_witness :
  ProxyPool.GetStats (Demo.frozen 100) Demo.boundary =
    Some (ProxyPool.mkStats 2 0 1 1, tick 4 Demo.boundary).
Proof.
  refine (proj1 (GetStats_counts_overlap_and_miss (Demo.frozen 100) 100
                   Demo.boundary
                   [Demo.entry "10.0.0.1" 0 5 100; Demo.entry "10.0.0.2" 5 5 50]
                   _ _)).
  - repeat constructor.
  - intros k Hk. reflexivity.
Defined.

(** C10, as stated, fails: an entry at its expiry instant that has used
    all its uses is counted in [MaxUsed], so not every entry at its
    expiry instant is counted in [Total] alone. *)
Lemma GetStats_counts_spent_entry_at_expiry :
  let it := Demo.entry "10.0.0.1" 5 5 100 in
  ProxyPool.heap Demo.boundary_spent !! 1%positive = Some it ∧
  ProxyPool.proxies (ProxyPool.pool Demo.boundary_spent) = [1%positive] ∧
  ProxyItem.expireTime it = 100 ∧
  ProxyItem.IsAvailable 100 it = false ∧
  ProxyItem.IsExpired 100 it = false ∧
  ProxyItem.IsMaxUsed it = true ∧
  fst <$> ProxyPool.GetStats (Demo.frozen 100) Demo.boundary_spent
    = Some (ProxyPool.mkStats 1 0 0 1) ∧
  ¬ (∀ (now : Time) (e : ProxyItem.t),
       ProxyItem.expireTime e = now →
       ProxyItem.IsAvailable now e = false ∧
       ProxyItem.IsExpired now e = false ∧
       ProxyItem.IsMaxUsed e = false).
Proof.
  cbv zeta. repeat (split; [reflexivity|]).
  intros Hall.
  destruct (Hall 100 (Demo.entry "10.0.0.1" 5 5 100) eq_refl)
    as (_ & _ & Hmax).
  discriminate Hmax.
Qed.

Lemma Refresh_skips_when_busy_and_surfaces_failure_witness :
  (∃ w', ProxyPool.Refresh (Demo.frozen 0) Demo.busy = Some (None, w') ∧
         ProxyPool.trace w' = [ProxyPool.EvRefresh] ∧
         ProxyPool.pool w' = ProxyPool.pool Demo.busy) ∧
  (∃ w', ProxyPool.Refresh (Demo.frozen 0) Demo.failing
           = Some (Some (ProxyPool.SupplierError "supplier down"), w') ∧
         ProxyPool.trace w' =
           [ProxyPool.EvRefresh; ProxyPool.EvFetch "http://supplier";
            ProxyPool.EvOnRefresh 0
              (Some (ProxyPool.SupplierError "supplier down"))] ∧
         ProxyPool.pool w' = ProxyPool.pool Demo.failing) ∧
  (∃ w', ProxyPool.Refresh (Demo.frozen 0) Demo.busy_unconfigured
           = Some (Some ProxyPool.ErrAPIURLEmpty, w') ∧
         ProxyPool.trace w' = [ProxyPool.EvRefresh] ∧
         ProxyPool.pool w' = ProxyPool.pool Demo.busy_unconfigured) ∧
  (∃ w', ProxyPool.Refresh (Demo.frozen 0) Demo.unconfigured
           = Some (Some ProxyPool.ErrAPIURLEmpty, w') ∧
         ProxyPool.trace w' = [ProxyPool.EvRefresh] ∧
         ProxyPool.pool w' = ProxyPool.pool Demo.unconfigured).
Proof.
  split; [|split; [|split]].
  - destruct (Refresh_skips_when_busy_and_surfaces_failure (Demo.frozen 0)
                Demo.busy) as [Hbusy _].
    assert (configured (ProxyPool.pool Demo.busy)) as Hcfg
      by (right; discriminate).
    destruct (Hbusy Hcfg eq_refl) as (w' & Hrun & _ & Hp & _ & _ & Htr).
    exists w'. split; [exact Hrun|]. split; [exact Htr|exact Hp].
  - destruct (Refresh_skips_when_busy_and_surfaces_failure (Demo.frozen 0)
                Demo.failing) as [_ [Hfail _]].
    assert (configured (ProxyPool.pool Demo.failing)) as Hcfg
      by (right; discriminate).
    destruct (Hfail Hcfg eq_refl [] (ProxyPool.SupplierError "supplier down")
                eq_refl) as (w' & Hrun & _ & Hp & _ & _ & Htr).
    exists w'. split; [exact Hrun|]. split; [exact Htr|exact Hp].
  - destruct (Refresh_skips_when_busy_and_surfaces_failure (Demo.frozen 0)
                Demo.busy_unconfigured) as [_ [_ [Hunc _]]].
    destruct (Hunc eq_refl eq_refl) as (w' & Hrun & _ & Hp & _ & _ & Htr).
    exists w'. split; [exact Hrun|]. split; [exact Htr|exact Hp].
  - destruct (Refresh_skips_when_busy_and_surfaces_failure (Demo.frozen 0)
                Demo.unconfigured) as [_ [_ [Hunc _]]].
    destruct (Hunc eq_refl eq_refl) as (w' & Hrun & _ & Hp & _ & _ & Htr).
    exists w'. split; [exact Hrun|]. split; [exact Htr|exact Hp].
Defined.

(** C6, as stated, fails: with nothing configured, a [Refresh] that finds
    another one in flight returns [ErrAPIURLEmpty], not nil. *)
Lemma Refresh_busy_unconfigured_errs :
  ProxyPool.refreshMu (ProxyPool.pool Demo.busy_unconfigured) = true ∧
  fst <$> ProxyPool.Refresh (Demo.frozen 0) Demo.busy_unconfigured
    = Some (Some ProxyPool.ErrAPIURLEmpty) ∧
  fst <$> ProxyPool.Refresh (Demo.frozen 0) Demo.busy_unconfigured
    ≠ Some None.
Proof. split; [done|]. split; [done|]. by vm_compute. Qed.

Lemma Refresh_calls_back_once_witness :
  ∃ w', ProxyPool.Refresh (Demo.frozen 0) Demo.drained = Some (None, w') ∧
        refresh_calls (ProxyPool.trace w') = [(2, None)] ∧
        length (ProxyPool.proxies (ProxyPool.pool w')) = 2%nat.
Proof.
  destruct (Refresh_calls_back_once (Demo.frozen 0) Demo.drained [])
    as [Honce _].
  - constructor.
  - reflexivity.
  - destruct Honce as (r & w' & evs & count & Hrun & Htr & Hcalls & Hres).
    + left. discriminate.
    + reflexivity.
    + assert (ProxyPool.Refresh (Demo.frozen 0) Demo.drained
              = Some (r, w')) as Hrun' by exact Hrun.
      vm_compute in Hrun'. injection Hrun' as <- <-.
      eexists. split; [exact Hrun|]. split; reflexivity.
Defined.

(** C7, as stated, fails on the early returns: with a callback set, a
    [Refresh] on a pool with nothing configured returns an error and a
    [Refresh] that finds the lock held returns nil, and neither invokes the
    callback. *)
Lemma Refresh_early_return_calls_nothing :
  ProxyPool.onRefresh (ProxyPool.pool Demo.unconfigured) = true ∧
  (λ r, (r.1, refresh_calls (ProxyPool.trace r.2)))
    <$> ProxyPool.Refresh (Demo.frozen 0) Demo.unconfigured
    = Some (Some ProxyPool.ErrAPIURLEmpty, []) ∧
  ProxyPool.onRefresh (ProxyPool.pool Demo.busy) = true ∧
  (λ r, (r.1, refresh_calls (ProxyPool.trace r.2)))
    <$> ProxyPool.Refresh (Demo.frozen 0) Demo.busy
    = Some (None, []).
Proof. repeat split; by vm_compute. Qed.

Lemma sample_well_formed (w : ProxyPool.World) :
  bool_decide
    (Forall (λ a, is_Some (ProxyPool.heap w !! a))
       (ProxyPool.proxies (ProxyPool.pool w))) = true →
  well_formed w.
Proof.
  intros H%bool_decide_eq_true a Ha. by apply (proj1 (Forall_forall _ _) H).
Qed.

Lemma Get_replenishes_sync_when_empty_async_when_low_witness :
  (∃ r w2 evs,
     ProxyPool.Refresh (Demo.frozen 0) (pruned (Demo.frozen 0) Demo.drained)
       = Some (r, w2) ∧
     ProxyPool.trace w2 =
       ProxyPool.trace (pruned (Demo.frozen 0) Demo.drained) ++ evs ∧
     refreshes evs = 1%nat ∧
     ProxyPool.spawned w2 = [] ∧
     ProxyPool.Get (Demo.frozen 0) Demo.quiet Demo.drained =
       ProxyPool.Get_select (Demo.frozen 0) Demo.quiet w2) ∧
  (ProxyPool.Get (Demo.frozen 0) Demo.quiet Demo.low =
     ProxyPool.Get_select (Demo.frozen 0) Demo.quiet
       (spawn ProxyPool.GoRefresh (pruned (Demo.frozen 0) Demo.low)) ∧
   ProxyPool.spawned
     (spawn ProxyPool.GoRefresh (pruned (Demo.frozen 0) Demo.low))
     = [ProxyPool.GoRefresh]).
Proof.
  split.
  - destruct (Get_replenishes_sync_when_empty_async_when_low (Demo.frozen 0)
                Demo.quiet Demo.drained) as (_ & Hsync & _).
    + apply sample_well_formed. reflexivity.
    + apply Hsync. reflexivity.
  - destruct (Get_replenishes_sync_when_empty_async_when_low (Demo.frozen 0)
                Demo.quiet Demo.low) as (_ & _ & Hasync & _).
    + apply sample_well_formed. reflexivity.
    + destruct Hasync as (Hget & Hsp & _).
      * discriminate.
      * vm_compute. reflexivity.
      * split; [exact Hget|exact Hsp].
Defined.

Lemma Get_errs_only_NoAvailableProxy_witness :
  well_formed Demo.contested ∧
  ProxyPool.Get (Demo.frozen 0) Demo.rival Demo.contested =
    Some ((None, Some ProxyPool.ErrNoAvailableProxy), Demo.contested_lost) ∧
  ∃ w2,
    ProxyPool.Get_replenish (Demo.frozen 0) Demo.contested = Some (tt, w2) ∧
    ∀ a, scanned (Demo.frozen 0) w2 ≠ [] →
         chosen (Demo.frozen 0) w2 = Some a →
         claim_fails Demo.rival w2 a →
         ProxyPool.heap Demo.contested_lost = Demo.rival (ProxyPool.heap w2).
Proof.
  assert (well_formed Demo.contested) as Hwf
    by (apply sample_well_formed; reflexivity).
  assert (ProxyPool.Get (Demo.frozen 0) Demo.rival Demo.contested =
            Some ((None, Some ProxyPool.ErrNoAvailableProxy),
                  Demo.contested_lost)) as Hget
    by (vm_compute; reflexivity).
  split; [exact Hwf|]. split; [exact Hget|].
  destruct (Get_errs_only_NoAvailableProxy (Demo.frozen 0) Demo.rival
              Demo.contested _ _ Hwf Hget)
    as (w2 & Hrep & _ & _ & Hfail & _).
  exists w2. split; [exact Hrep|].
  intros a H1 H2 H3. exact (proj1 (proj2 (Hfail a H1 H2 H3))).
Defined.

(** The sample world of C3 in detail: the first entry lost its last use to
    a rival, the second entry is available with its use left, and [Get]
    fails all the same, the second entry untouched. *)
Example Get_does_not_retry :
  ProxyPool.Get (Demo.frozen 0) Demo.rival Demo.contested =
    Some ((None, Some ProxyPool.ErrNoAvailableProxy), Demo.contested_lost) ∧
  ProxyPool.heap Demo.contested_lost !! 2%positive =
    Some (Demo.entry "10.0.0.2" 0 1 1000) ∧
  ProxyItem.IsAvailable 0 (Demo.entry "10.0.0.2" 0 1 1000) = true.
Proof. repeat split; by vm_compute. Qed.

Lemma Get_round_robin_three_witness :
  ∃ w',
    ProxyPool.GetN (Demo.frozen 0) Demo.quiet 6 Demo.three =
      Some ([(Some 2, None); (Some 3, None); (Some 1, None);
             (Some 2, None); (Some 3, None); (Some 1, None)]%positive, w') ∧
    ProxyPool.roundRobinIdx (ProxyPool.pool w') = 10.
Proof.
  destruct (Get_round_robin_three (Demo.frozen 0) Demo.quiet
              1%positive 2%positive 3%positive Demo.three)
    as (w' & Hrun & _ & Hc & _).
  - reflexivity.
  - reflexivity.
  - apply (bool_decide_unpack (NoDup [1; 2; 3]%positive)). vm_compute.
    exact I.
  - intros a Ha.
    repeat (apply elem_of_cons in Ha as [->|Ha]);
      [| | |by apply elem_of_nil in Ha];
      (eexists; split; [vm_compute; reflexivity|]);
      (split; [intros t; unfold Demo.frozen; simpl; lia|]);
      unfold is_int64, int64_min, int64_max; simpl; lia.
  - simpl. lia.
  - unfold int64_max. simpl. lia.
  - exists w'. split; [exact Hrun|exact Hc].
Defined.

(** An empty pool with a supplier of two entries: [Get] waits for the
    refresh and returns the first of the new entries. *)
Example Get_refills_an_empty_pool :
  (λ r, (r.1, ProxyPool.proxies (ProxyPool.pool r.2),
         ProxyPool.spawned r.2, refresh_calls (ProxyPool.trace r.2)))
    <$> ProxyPool.Get (Demo.frozen 0) Demo.quiet Demo.drained
  = Some ((Some 1%positive, None), [1; 2]%positive, [], [(2, None)]).
Proof. by vm_compute. Qed.

(** Two entries of five uses and a minimum size of three: two calls of
    [Get] are served from the two entries, each call hands [Refresh] to a
    goroutine, and the supplier is not called meanwhile. *)
Example Get_on_a_low_pool :
  (λ r, (r.1, ProxyPool.spawned r.2, ProxyPool.trace r.2))
    <$> ProxyPool.GetN (Demo.frozen 0) Demo.quiet 2 Demo.low
  = Some ([(Some 1%positive, None); (Some 2%positive, None)],
          [ProxyPool.GoRefresh; ProxyPool.GoRefresh], []).
Proof. by vm_compute. Qed.

(** * Further properties *)

(** ** Strings *)

Lemma append_empty (s : string) : "" +:+ s = s.
Proof. done. Qed.

Lemma append_String (x : Ascii.ascii) (a s : string) :
  String x a +:+ s = String x (a +:+ s).
Proof. done. Qed.

Lemma colon_free_split (a b c d : string) :
  colon_free a = true → colon_free c = true →
  a +:+ ":" +:+ b = c +:+ ":" +:+ d → a = c ∧ b = d.
Proof.
  revert c. induction a as [|x a IH]; intros [|y c] Ha Hc Heq;
    cbn in Ha, Hc.
  - rewrite !append_empty in Heq. by apply (inj _) in Heq as ->.
  - rewrite append_empty, append_String in Heq.
    change (":" +:+ b) with (String (Ascii.ascii_of_nat 58) b) in Heq.
    injection Heq as <- _. by rewrite Ascii.eqb_refl in Hc.
  - rewrite append_empty, append_String in Heq.
    change (":" +:+ d) with (String (Ascii.ascii_of_nat 58) d) in Heq.
    injection Heq as -> _. by rewrite Ascii.eqb_refl in Ha.
  - rewrite !append_String in Heq. injection Heq as -> Heq.
    apply andb_true_iff in Ha as [_ Ha]. apply andb_true_iff in Hc as [_ Hc].
    by destruct (IH c Ha Hc Heq) as [-> ->].
Qed.

(** ** Entries *)

(** X1. At every point of every interleaving of goroutines that run
    [IncrementUseCount] on one entry, the use count is the count at the
    start plus the number of goroutines whose swap has succeeded, and it
    is within the limit. *)
Theorem race_count_is_successes
    (p : ProxyItem.t) (n : nat) (schedule : list (nat * Time)) :
  is_int64 (ProxyItem.usedCount p) →
  is_int64 (ProxyItem.maxUseCount p) →
  ProxyItem.usedCount p ≤ ProxyItem.maxUseCount p →
  ProxyItem.usedCount (Race.entry (Race.run schedule (Race.start p n))) =
    ProxyItem.usedCount p
    + Race.successes (Race.threads (Race.run schedule (Race.start p n))) ∧
  ProxyItem.usedCount (Race.entry (Race.run schedule (Race.start p n)))
    ≤ ProxyItem.maxUseCount p ∧
  ProxyItem.maxUseCount (Race.entry (Race.run schedule (Race.start p n)))
    = ProxyItem.maxUseCount p.
Proof.
  intros Hu Hm Hle.
  pose proof (race_inv_start p n Hle) as Hstart.
  destruct (race_inv_run _ _ Hu Hm schedule _ Hstart) as [Hl Hc Hb _].
  done.
Qed.

Lemma race_count_is_successes_witness :
  ProxyItem.usedCount
    (Race.entry (Race.run Samples.race_midway
                   (Race.start Samples.one_use 2))) = 1 ∧
  Race.threads (Race.run Samples.race_midway (Race.start Samples.one_use 2))
  = [Race.AtStamp; Race.Returned false].
Proof.
  destruct (race_count_is_successes Samples.one_use 2 Samples.race_midway)
    as (Hc & _).
  - unfold is_int64, int64_min, int64_max. simpl. lia.
  - unfold is_int64, int64_min, int64_max. simpl. lia.
  - simpl. lia.
  - split; [exact Hc|reflexivity].
Defined.

(** X2. Once all the goroutines racing on an entry have returned, the
    number that returned true is the number of uses that were left, or the
    number of goroutines if that is smaller: no use is lost and none is
    given twice. *)
Theorem race_grants_each_use_once
    (p : ProxyItem.t) (n : nat) (schedule : list (nat * Time)) :
  is_int64 (ProxyItem.usedCount p) →
  is_int64 (ProxyItem.maxUseCount p) →
  ProxyItem.usedCount p ≤ ProxyItem.maxUseCount p →
  Forall (λ c, Race.returned c = true)
    (Race.threads (Race.run schedule (Race.start p n))) →
  Race.successes (Race.threads (Race.run schedule (Race.start p n))) =
    Z.min (Z.of_nat n) (ProxyItem.maxUseCount p - ProxyItem.usedCount p) ∧
  ProxyItem.usedCount (Race.entry (Race.run schedule (Race.start p n))) =
    Z.min (ProxyItem.usedCount p + Z.of_nat n) (ProxyItem.maxUseCount p).
Proof.
  intros Hu Hm Hle Hret.
  pose proof (race_all_returned p n schedule Hu Hm Hle Hret) as Hfinal.
  pose proof (race_inv_start p n Hle) as Hstart.
  destruct (race_inv_run _ _ Hu Hm schedule _ Hstart) as [_ Hc _ _].
  split; [exact Hfinal|]. rewrite Hc. cbv zeta in Hfinal. lia.
Qed.

Lemma race_grants_each_use_once_witness :
  Race.successes
    (Race.threads
       (Race.run Samples.race_finished (Race.start Samples.one_use 2))) = 1.
Proof.
  destruct (race_grants_each_use_once Samples.one_use 2 Samples.race_finished)
    as (Hs & _).
  - unfold is_int64, int64_min, int64_max. simpl. lia.
  - unfold is_int64, int64_min, int64_max. simpl. lia.
  - simpl. lia.
  - repeat constructor.
  - exact Hs.
Defined.

Section MoreItemFacts.

Import ProxyItem.

Implicit Types (p : ProxyItem.t) (now : Time).

Lemma IncrementUseCountN_below nows : ∀ p,
  is_int64 (usedCount p) → is_int64 (maxUseCount p) →
  usedCount p + Z.of_nat (length nows) ≤ maxUseCount p →
  ∃ p', IncrementUseCountN nows p = (replicate (length nows) true, p') ∧
        usedCount p' = usedCount p + Z.of_nat (length nows) ∧
        maxUseCount p' = maxUseCount p ∧
        expireTime p' = expireTime p ∧
        IP p' = IP p ∧ Port p' = Port p.
Proof.
  induction nows as [|now nows IH]; intros p Hu Hm Hk.
  - exists p. cbn. repeat split; lia.
  - cbn [IncrementUseCountN length] in *. unfold IncrementUseCount.
    rewrite IncrementUseCount_below_limit by (done || lia).
    destruct (IH (set_lastUseTime now (set_usedCount (usedCount p + 1) p)))
      as (p' & Hrun & Hu' & Hm' & He' & Hip & Hport).
    + cbn. unfold is_int64, int64_min, int64_max in *. lia.
    + done.
    + cbn. lia.
    + exists p'. rewrite Hrun. cbn in *. repeat split; try done. lia.
Qed.

Lemma IncrementUseCountN_at_limit nows : ∀ p,
  maxUseCount p ≤ usedCount p →
  IncrementUseCountN nows p = (replicate (length nows) false, p).
Proof.
  induction nows as [|now nows IH]; intros p Hlim; [done|].
  cbn [IncrementUseCountN length]. unfold IncrementUseCount.
  rewrite IncrementUseCount_at_limit by done. by rewrite IH.
Qed.

Lemma IncrementUseCountN_app nows1 nows2 p :
  IncrementUseCountN (nows1 ++ nows2) p =
    let '(r1, p1) := IncrementUseCountN nows1 p in
    let '(r2, p2) := IncrementUseCountN nows2 p1 in
    (r1 ++ r2, p2).
Proof.
  revert p. induction nows1 as [|now nows1 IH]; intros p.
  - cbn. by destruct (IncrementUseCountN nows2 p).
  - cbn [IncrementUseCountN app].
    destruct (IncrementUseCount now p) as [[claimed p']|] eqn:Hc.
    + rewrite IH. destruct (IncrementUseCountN nows1 p') as [r1 p1].
      by destruct (IncrementUseCountN nows2 p1).
    + unfold IncrementUseCount in Hc. by rewrite IncrementUseCount_loop_S in Hc;
        destruct (usedCount p >=? maxUseCount p).
Qed.

(** X3. Calls of [IncrementUseCount] in a row on an entry within its limit:
    the first calls succeed, as many as there are uses left, and all the
    later ones fail; the use count ends at the limit or at the count plus
    the number of calls, whichever is smaller, and the limit, the expiry
    and the identity are untouched. *)
Theorem IncrementUseCount_exhausts_budget (nows : list Time) p :
  is_int64 (usedCount p) → is_int64 (maxUseCount p) →
  usedCount p ≤ maxUseCount p →
  let left := Z.to_nat (maxUseCount p - usedCount p) in
  ∃ p',
    IncrementUseCountN nows p =
      (replicate (length nows `min` left) true
         ++ replicate (length nows - left) false, p') ∧
    usedCount p' =
      Z.min (usedCount p + Z.of_nat (length nows)) (maxUseCount p) ∧
    maxUseCount p' = maxUseCount p ∧
    expireTime p' = expireTime p ∧
    String p' = String p.
Proof.
  intros Hu Hm Hle left.
  assert (IncrementUseCountN nows p =
            IncrementUseCountN (take left nows ++ drop left nows) p) as ->
    by (by rewrite take_drop).
  rewrite IncrementUseCountN_app.
  destruct (IncrementUseCountN_below (take left nows) p Hu Hm)
    as (p1 & Hrun1 & Hu1 & Hm1 & He1 & Hip1 & Hport1).
  { rewrite length_take. lia. }
  rewrite Hrun1.
  destruct (decide (left ≤ length nows)%nat) as [Hfew|Hmany].
  - rewrite (IncrementUseCountN_at_limit (drop left nows) p1).
    + exists p1. rewrite length_take, length_drop in *.
      rewrite (Nat.min_comm (length nows) left).
      split; [done|]. unfold String. rewrite Hip1, Hport1.
      repeat split; try done. lia.
    + rewrite Hu1, Hm1, length_take. lia.
  - rewrite drop_ge by lia. cbn.
    exists p1. rewrite length_take in *.
    rewrite (Nat.min_comm (length nows) left).
    replace (length nows - left)%nat with 0%nat by lia.
    split; [done|]. unfold String. rewrite Hip1, Hport1.
    repeat split; try done. lia.
Qed.

Lemma IncrementUseCount_exhausts_budget_witness :
  IncrementUseCountN [10; 11; 12; 13]
    (mk "10.0.0.1" "8080" 3 5 100 0 0) =
  ([true; true; false; false], mk "10.0.0.1" "8080" 5 5 100 0 11).
Proof.
  destruct (IncrementUseCount_exhausts_budget [10; 11; 12; 13]
              (mk "10.0.0.1" "8080" 3 5 100 0 0))
    as (p' & Hrun & _).
  - unfold is_int64, int64_min, int64_max. simpl. lia.
  - unfold is_int64, int64_min, int64_max. simpl. lia.
  - simpl. lia.
  - reflexivity.
Defined.

Lemma Sub_sign (t u : Time) :
  (0 < Sub t u ↔ u < t) ∧ is_int64 (Sub t u).
Proof.
  unfold Sub, is_int64, int64_min, int64_max.
  destruct (Z.ltb_spec (t - u) (- 2 ^ 63));
    [|destruct (Z.ltb_spec (2 ^ 63 - 1) (t - u))]; lia.
Qed.

(** X4. The remaining count and the remaining time of an entry are never
    negative, and, the difference between limit and count fitting an
    int64, the entry is available at the time read exactly when both are
    positive; the remaining count is zero exactly when [IsMaxUsed]. *)
Theorem remaining_positive_iff_available now p :
  is_int64 (maxUseCount p - usedCount p) →
  0 ≤ GetRemainingCount p ∧
  0 ≤ GetRemainingTime now p ∧
  (IsAvailable now p = true ↔
     0 < GetRemainingCount p ∧ 0 < GetRemainingTime now p) ∧
  (GetRemainingCount p = 0 ↔ IsMaxUsed p = true) ∧
  (0 < GetRemainingTime now p ↔ now < expireTime p) ∧
  GetRemainingCount p = Z.max 0 (maxUseCount p - usedCount p).
Proof.
  intros Hfit. unfold GetRemainingCount, GetRemainingTime, Until.
  rewrite (wrap64_id _ Hfit).
  destruct (Sub_sign (expireTime p) now) as [Hsign _].
  unfold IsAvailable, IsMaxUsed, Before.
  rewrite andb_true_iff, !Z.ltb_lt, geb_true.
  destruct (Z.ltb_spec (maxUseCount p - usedCount p) 0);
    destruct (Z.ltb_spec (Sub (expireTime p) now) 0); lia.
Qed.

Lemma remaining_positive_iff_available_witness :
  GetRemainingCount (mk "10.0.0.1" "8080" 7 5 100 0 0) = 0 ∧
  GetRemainingTime 130 (mk "10.0.0.1" "8080" 7 5 100 0 0) = 0 ∧
  IsAvailable 130 (mk "10.0.0.1" "8080" 7 5 100 0 0) = false.
Proof.
  destruct (remaining_positive_iff_available 130
              (mk "10.0.0.1" "8080" 7 5 100 0 0))
    as (_ & _ & _ & _ & _ & Hcount).
  - unfold is_int64, int64_min, int64_max. simpl. lia.
  - split; [exact Hcount|]. split; reflexivity.
Defined.

(** The largest number of seconds whose int64 count of nanoseconds does
    not wrap around. *)
Lemma seconds_exact (n : Z) :
  -9223372036 ≤ n ≤ 9223372036 → seconds n = n * 1000000000.
Proof.
  intros Hn. unfold seconds, Second. apply wrap64_id.
  unfold is_int64, int64_min, int64_max. lia.
Qed.

(** X5. An entry made by [NewProxyItemWithConfig] with a positive limit
    and a time to live of 1 to 9223372036 seconds is available exactly at
    the times before creation plus that many seconds; with a time to live
    of zero or less (down to -9223372036) it is unavailable from creation
    on, and with a limit of zero or less it is never available. It starts
    unused, under the identity ip:port. *)
Theorem NewProxyItemWithConfig_window
    (now1 now2 : Time) (ip port : string) (limit secs : Z) (t : Time) :
  -9223372036 ≤ secs ≤ 9223372036 →
  let p := NewProxyItemWithConfig now1 now2 ip port limit secs in
  (0 < limit → (IsAvailable t p = true ↔ t < now1 + secs * 1000000000)) ∧
  (secs ≤ 0 → now1 ≤ t → IsAvailable t p = false) ∧
  (limit ≤ 0 → IsAvailable t p = false) ∧
  usedCount p = 0 ∧ String p = ip +:+ ":" +:+ port ∧ createTime p = now2.
Proof.
  intros Hsecs p. subst p. unfold IsAvailable, Before. cbn. unfold Add.
  rewrite (seconds_exact secs Hsecs).
  split; [|split; [|split]].
  - intros Hlim. rewrite andb_true_iff, !Z.ltb_lt. lia.
  - intros Hs Ht. apply andb_false_iff. left. apply Z.ltb_ge. lia.
  - intros Hlim. apply andb_false_iff. right. apply Z.ltb_ge. lia.
  - done.
Qed.

Lemma NewProxyItemWithConfig_window_witness :
  IsAvailable 179999999999
    (NewProxyItemWithConfig 0 1 "10.0.0.1" "8080" 5 180) = true ∧
  IsAvailable 180000000000
    (NewProxyItemWithConfig 0 1 "10.0.0.1" "8080" 5 180) = false.
Proof.
  split.
  - apply (NewProxyItemWithConfig_window 0 1 "10.0.0.1" "8080" 5 180
             179999999999); simpl; lia.
  - apply not_true_is_false. intros Hav.
    apply (NewProxyItemWithConfig_window 0 1 "10.0.0.1" "8080" 5 180
             180000000000) in Hav; simpl in *; lia.
Defined.

(** X6. [Reset] gives a used-up or expired entry its whole budget back:
    with a positive limit and a time to live of 1 to 9223372036 seconds,
    the entry is available exactly at the times before the reset plus that
    many seconds, its count is zero and its remaining count is the limit;
    limit, identity and creation time are kept. *)
Theorem Reset_restores (now : Time) (secs : Z) p (t : Time) :
  1 ≤ secs ≤ 9223372036 →
  0 < maxUseCount p → is_int64 (maxUseCount p) →
  (IsAvailable t (Reset now secs p) = true ↔ t < now + secs * 1000000000) ∧
  usedCount (Reset now secs p) = 0 ∧
  GetRemainingCount (Reset now secs p) = maxUseCount p ∧
  maxUseCount (Reset now secs p) = maxUseCount p ∧
  String (Reset now secs p) = String p ∧
  createTime (Reset now secs p) = createTime p.
Proof.
  intros Hsecs Hlim Hm.
  unfold IsAvailable, Before, Reset, GetRemainingCount. cbn. unfold Add.
  rewrite seconds_exact by lia. rewrite Z.sub_0_r, (wrap64_id _ Hm).
  split; [rewrite andb_true_iff, !Z.ltb_lt; lia|].
  destruct (Z.ltb_spec (maxUseCount p) 0); [lia|done].
Qed.

Lemma Reset_restores_witness :
  IsAvailable 500 (mk "10.0.0.1" "8080" 5 5 100 0 90) = false ∧
  IsAvailable 500 (Reset 500 60 (mk "10.0.0.1" "8080" 5 5 100 0 90)) = true ∧
  GetRemainingCount (Reset 500 60 (mk "10.0.0.1" "8080" 5 5 100 0 90)) = 5.
Proof.
  destruct (Reset_restores 500 60 (mk "10.0.0.1" "8080" 5 5 100 0 90) 500)
    as (Hav & _ & Hleft & _).
  - lia.
  - simpl. lia.
  - unfold is_int64, int64_min, int64_max. simpl. lia.
  - split; [reflexivity|]. split; [|exact Hleft].
    apply Hav. lia.
Defined.

(** X7. The identity string ip:port tells the entry: two entries whose
    hosts hold no colon have the same [String] exactly when they have the
    same host and the same port, and then the same [URL] and [Socks5URL].
    With a colon in a host this fails: the hosts "a:b" and "a" with the
    ports "c" and "b:c" give one identity. *)
Theorem String_identifies_endpoint p q :
  colon_free (IP p) = true → colon_free (IP q) = true →
  (String p = String q ↔ IP p = IP q ∧ Port p = Port q) ∧
  (String p = String q → URL p = URL q ∧ Socks5URL p = Socks5URL q) ∧
  String (mk "a:b" "c" 0 5 0 0 0) = String (mk "a" "b:c" 0 5 0 0 0).
Proof.
  intros Hp Hq. unfold String, URL, Socks5URL.
  split; [|split; [|done]].
  - split; [by apply colon_free_split|]. by intros [-> ->].
  - intros Heq. destruct (colon_free_split _ _ _ _ Hp Hq Heq) as [-> ->].
    done.
Qed.

Lemma String_identifies_endpoint_witness :
  String (mk "10.0.0.1" "8080" 0 5 0 0 0)
    ≠ String (mk "10.0.0.1" "8081" 3 5 9 0 0).
Proof.
  intros Heq.
  apply (String_identifies_endpoint (mk "10.0.0.1" "8080" 0 5 0 0 0)
           (mk "10.0.0.1" "8081" 3 5 9 0 0)) in Heq;
    [|reflexivity|reflexivity].
  destruct Heq as [_ Hport]. simpl in Hport. discriminate.
Defined.

End MoreItemFacts.

(** ** The pool: replenishment in detail *)

Section MorePoolFacts.

Import ProxyPool.

Variable clock : nat → Time.
Variable racers : gmap addr ProxyItem.t → gmap addr ProxyItem.t.

Implicit Types (w : World) (a : addr) (it : ProxyItem.t) (ps : list addr).

Local Abbreviation new_entry := (new_entry clock).
Local Abbreviation inserted := (inserted clock).
Local Abbreviation available_at := (available_at clock).
Local Abbreviation pruned := (pruned clock).
Local Abbreviation scanned := (scanned clock).
Local Abbreviation chosen := (chosen clock).
Local Abbreviation claimed_entry := (claimed_entry clock).
Local Abbreviation at_claim := (at_claim racers).
Local Abbreviation after_claim := (after_claim clock racers).

Ltac step_with H := rewrite (bind_Some _ _ _ _ _ H).

Lemma heap_inserted ip port w : heap w ⊆ heap (inserted ip port w).
Proof. cbn. apply insert_subseteq, new_addr_fresh. Qed.

(** The loop of [Refresh] appends: entries in the pool stay as they are,
    and each candidate is in the pool afterwards. *)
Lemma addAll_grows cands : ∀ count w items,
  entries_of (heap w) (proxies (pool w)) items →
  ∃ w' new_ps new_items,
    addAll clock cands count w
      = Some (count + Z.of_nat (length new_items), w') ∧
    proxies (pool w') = proxies (pool w) ++ new_ps ∧
    entries_of (heap w') (proxies (pool w')) (items ++ new_items) ∧
    heap w ⊆ heap w' ∧
    same_settings (pool w) (pool w') ∧
    trace w' = trace w ∧ spawned w' = spawned w ∧
    (∀ c, c ∈ cands →
          key_of (IP c) (Port c) ∈ identities (items ++ new_items)) ∧
    Forall (λ it, ProxyItem.usedCount it = 0 ∧
                  ProxyItem.maxUseCount it = maxUseCount (pool w) ∧
                  ∃ c, c ∈ cands ∧ ProxyItem.IP it = IP c ∧
                       ProxyItem.Port it = Port c) new_items ∧
    (NoDup (identities items) → NoDup (identities (items ++ new_items))).
Proof.
  induction cands as [|c cands IH]; intros count w items Hent.
  - exists w, [], []. cbn. unfold ret. rewrite !app_nil_r, Z.add_0_r.
    repeat split; try done.
    + apply same_settings_refl.
    + intros c Hc. by apply elem_of_nil in Hc.
  - cbn [addAll].
    destruct (decide (key_of (IP c) (Port c) ∈ identities items))
      as [Hin|Hnew].
    + step_with (AddProxy_duplicate clock _ _ _ items Hent Hin).
      destruct (IH count w items Hent)
        as (w' & nps & nits & Hrun & Hps & Hent' & Hsub & Hs & Ht & Hsp
            & Hall & Hnew & Hnd).
      exists w', nps, nits. repeat split; try done.
      * intros c' [->|Hc']%elem_of_cons; [|by apply Hall].
        unfold identities in *. rewrite fmap_app. apply elem_of_app. by left.
      * eapply Forall_impl; [exact Hnew|]. cbn.
        intros it (Hu & Hm & c' & Hc' & Hip & Hport).
        split; [done|]. split; [done|]. exists c'. split; [by right|done].
    + step_with (AddProxy_new clock _ _ _ items Hent Hnew).
      destruct (IH (count + 1) _ _
                  (entries_of_inserted clock (IP c) (Port c) w items Hent))
        as (w' & nps & nits & Hrun & Hps & Hent' & Hsub & Hs & Ht & Hsp
            & Hall & Hnews & Hnd).
      exists w', (new_addr w :: nps), (new_entry (IP c) (Port c) w :: nits).
      cbn in Hps, Hs, Ht, Hsp, Hnews.
      rewrite <- !app_assoc in *. cbn in *.
      split; [rewrite Hrun; do 2 f_equal; lia|].
      split; [done|]. split; [done|].
      split; [etrans; [apply (heap_inserted (IP c) (Port c))|done]|].
      split; [done|]. split; [done|]. split; [done|].
      split; [|split].
      * intros c' [->|Hc']%elem_of_cons; [|by apply Hall].
        unfold identities. rewrite fmap_app. apply elem_of_app. right.
        cbn. left.
      * constructor.
        -- split; [done|]. split; [done|]. exists c. split; [left|done].
        -- eapply Forall_impl; [exact Hnews|]. cbn.
           intros it (Hu & Hm & c' & Hc' & Hip & Hport).
           split; [done|]. split; [done|]. exists c'.
           split; [by right|done].
      * intros Hnd0. apply Hnd. unfold identities in *.
        rewrite fmap_app. cbn. apply NoDup_app. split; [done|].
        split; [|apply NoDup_singleton].
        intros k Hk ->%list_elem_of_singleton. by apply Hnew.
Qed.

Lemma addAll_all_present cands : ∀ count w items,
  entries_of (heap w) (proxies (pool w)) items →
  (∀ c, c ∈ cands → key_of (IP c) (Port c) ∈ identities items) →
  addAll clock cands count w = Some (count, w).
Proof.
  induction cands as [|c cands IH]; intros count w items Hent Hall; [done|].
  cbn [addAll].
  step_with (AddProxy_duplicate clock _ _ _ items Hent (Hall c ltac:(left))).
  apply (IH count w items Hent). intros c' Hc'. apply Hall. by right.
Qed.

Lemma Refresh_success w items cands :
  configured (pool w) → refreshMu (pool w) = false →
  fetched (pool w) = (cands, None) →
  entries_of (heap w) (proxies (pool w)) items →
  ∃ w' new_ps new_items,
    Refresh clock w = Some (None, w') ∧
    proxies (pool w') = proxies (pool w) ++ new_ps ∧
    entries_of (heap w') (proxies (pool w')) (items ++ new_items) ∧
    heap w ⊆ heap w' ∧
    same_settings (pool w) (pool w') ∧
    trace w' = trace w ++ [EvRefresh] ++ fetch_events (pool w)
                 ++ callback_events (pool w)
                      (Z.of_nat (length new_items)) None ∧
    spawned w' = spawned w ∧
    (∀ c, c ∈ cands →
          key_of (IP c) (Port c) ∈ identities (items ++ new_items)) ∧
    Forall (λ it, ProxyItem.usedCount it = 0 ∧
                  ProxyItem.maxUseCount it = maxUseCount (pool w) ∧
                  ∃ c, c ∈ cands ∧ ProxyItem.IP it = IP c ∧
                       ProxyItem.Port it = Port c) new_items ∧
    (NoDup (identities items) → NoDup (identities (items ++ new_items))).
Proof.
  intros Hcfg Hmu Hfetch Hent. unfold Refresh.
  step_with (emit_run EvRefresh w).
  step_with (getPool_run (logged [EvRefresh] w)).
  cbn [pool logged].
  rewrite (configured_test _ Hcfg), Hmu.
  step_with (setPool_run (set_refreshMu true (pool w))
               (logged [EvRefresh] w)).
  unfold fetched, fetch_events in *.
  destruct (fetchFunc (pool w)) as [fn|] eqn:Hfn; [|done].
  set (w1 := logged [EvFetch (apiURL (pool w))]
               (with_pool (set_refreshMu true (pool w))
                  (logged [EvRefresh] w))).
  rewrite (bind_Some _ _ _ (fn (apiURL (pool w))) w1) by done.
  rewrite Hfetch. cbn [fst snd].
  destruct (addAll_grows cands 0 w1 items Hent)
    as (w2 & nps & nits & Hrun & Hps & Hent' & Hsub & Hs & Ht & Hsp
        & Hall & Hnews & Hnd).
  step_with Hrun.
  step_with (callOnRefresh_run (0 + Z.of_nat (length nits)) None w2).
  step_with (unlockRefresh_run
               (logged (callback_events (pool w2)
                          (0 + Z.of_nat (length nits)) None) w2)).
  cbn in Hps, Hs, Ht, Hsp, Hsub, Hnews.
  assert (onRefresh (pool w2) = onRefresh (pool w)) as Hcb
    by (by rewrite Hs).
  eexists _, nps, nits. split; [reflexivity|].
  cbn [trace heap pool spawned ticks with_pool logged proxies set_refreshMu].
  unfold callback_events. rewrite Ht, Hcb, Hsp, <- !app_assoc, Z.add_0_l.
  repeat split; try done.
  unfold same_settings. rewrite Hs. cbn. rewrite <- Hmu.
  by destruct (pool w).
Qed.

(** X8. A [Refresh] that takes the lock and whose fetch succeeds appends
    entries and touches nothing else: every candidate of the batch is in
    the pool afterwards, under its identity; the entries already there are
    as before; each new entry is unused, has the limit of the pool and the
    host and port of a candidate; the count given to the callback is the
    number of entries added; and identities that were distinct stay
    distinct. *)
Theorem Refresh_inserts_every_candidate w items cands :
  configured (pool w) → refreshMu (pool w) = false →
  fetched (pool w) = (cands, None) →
  entries_of (heap w) (proxies (pool w)) items →
  ∃ w' new_items,
    Refresh clock w = Some (None, w') ∧
    entries_of (heap w') (proxies (pool w')) (items ++ new_items) ∧
    (∀ c, c ∈ cands →
          key_of (IP c) (Port c) ∈ identities (items ++ new_items)) ∧
    Forall (λ it, ProxyItem.usedCount it = 0 ∧
                  ProxyItem.maxUseCount it = maxUseCount (pool w) ∧
                  ∃ c, c ∈ cands ∧ ProxyItem.IP it = IP c ∧
                       ProxyItem.Port it = Port c) new_items ∧
    trace w' = trace w ++ [EvRefresh] ++ fetch_events (pool w)
                 ++ callback_events (pool w)
                      (Z.of_nat (length new_items)) None ∧
    (length new_items ≤ length cands)%nat ∧
    (NoDup (identities items) → NoDup (identities (items ++ new_items))).
Proof.
  intros Hcfg Hmu Hfetch Hent.
  destruct (Refresh_success w items cands Hcfg Hmu Hfetch Hent)
    as (w' & nps & nits & Hrun & Hps & Hent' & Hsub & Hs & Htr & Hsp
        & Hall & Hnews & Hnd).
  exists w', nits. repeat split; try done.
  destruct (Refresh_ok clock w items cands Hcfg Hmu Hfetch Hent)
    as (count & w0 & items0 & Hrun0 & _ & Hc & Hlen & _).
  rewrite Hrun in Hrun0. injection Hrun0 as <-.
  rewrite Hps, length_app in Hlen.
  pose proof (Forall2_length _ _ _ Hent') as Hl1.
  pose proof (Forall2_length _ _ _ Hent) as Hl2.
  rewrite Hps, !length_app in Hl1. lia.
Qed.

(** X9. A [Refresh] whose batch holds nothing new (every candidate has the
    identity of an entry of the pool) inserts nothing: it reports a count
    of zero and leaves the store and the pool as they were; so does the
    second of two refreshes that fetch the same batch. *)
Theorem Refresh_of_known_batch_adds_nothing w items cands :
  configured (pool w) → refreshMu (pool w) = false →
  fetched (pool w) = (cands, None) →
  entries_of (heap w) (proxies (pool w)) items →
  ((∀ c, c ∈ cands → key_of (IP c) (Port c) ∈ identities items) →
     Refresh clock w =
       Some (None, logged ([EvRefresh] ++ fetch_events (pool w)
                             ++ callback_events (pool w) 0 None) w)) ∧
  (∃ w1 w2,
     Refresh clock w = Some (None, w1) ∧
     Refresh clock w1 = Some (None, w2) ∧
     heap w2 = heap w1 ∧ pool w2 = pool w1 ∧
     trace w2 = trace w1 ++ [EvRefresh] ++ fetch_events (pool w)
                  ++ callback_events (pool w) 0 None).
Proof.
  intros Hcfg Hmu Hfetch Hent.
  assert (∀ w0 items0,
    configured (pool w0) → refreshMu (pool w0) = false →
    fetched (pool w0) = (cands, None) →
    entries_of (heap w0) (proxies (pool w0)) items0 →
    (∀ c, c ∈ cands → key_of (IP c) (Port c) ∈ identities items0) →
    Refresh clock w0 =
      Some (None, logged ([EvRefresh] ++ fetch_events (pool w0)
                            ++ callback_events (pool w0) 0 None) w0))
    as Hknown.
  { clear. intros w items Hcfg Hmu Hfetch Hent Hall. unfold Refresh.
    step_with (emit_run EvRefresh w).
    step_with (getPool_run (logged [EvRefresh] w)).
    cbn [pool logged].
    rewrite (configured_test _ Hcfg), Hmu.
    step_with (setPool_run (set_refreshMu true (pool w))
                 (logged [EvRefresh] w)).
    unfold fetched, fetch_events in *.
    destruct (fetchFunc (pool w)) as [fn|] eqn:Hfn; [|done].
    set (w1 := logged [EvFetch (apiURL (pool w))]
                 (with_pool (set_refreshMu true (pool w))
                    (logged [EvRefresh] w))).
    rewrite (bind_Some _ _ _ (fn (apiURL (pool w))) w1) by done.
    rewrite Hfetch. cbn [fst snd].
    step_with (addAll_all_present cands 0 w1 items Hent Hall).
    step_with (callOnRefresh_run 0 None w1).
    step_with (unlockRefresh_run
                 (logged (callback_events (pool w1) 0 None) w1)).
    unfold ret, logged, with_pool, callback_events. cbn.
    rewrite <- !app_assoc. cbn. do 3 f_equal.
    rewrite <- Hmu. by destruct (pool w). }
  split; [by apply Hknown|].
  destruct (Refresh_success w items cands Hcfg Hmu Hfetch Hent)
    as (w1 & nps & nits & Hrun & Hps & Hent' & Hsub & Hs & Htr & Hsp
        & Hall & Hnews & Hnd).
  assert (fetchFunc (pool w1) = fetchFunc (pool w) ∧
          apiURL (pool w1) = apiURL (pool w) ∧
          onRefresh (pool w1) = onRefresh (pool w) ∧
          refreshMu (pool w1) = refreshMu (pool w)) as (Hf & Hurl & Hcb & Hmu1)
    by (by rewrite Hs).
  exists w1. eexists. split; [done|].
  split.
  - apply (Hknown w1 (items ++ nits)); try done.
    + unfold configured. by rewrite Hf, Hurl.
    + by rewrite Hmu1.
    + unfold fetched. by rewrite Hf, Hurl.
  - unfold fetch_events, callback_events. by rewrite Hf, Hurl, Hcb.
Qed.

(** X10. Whatever way a [Refresh] returns, it leaves the refresh lock as
    it found it (a [Refresh] that took the lock has released it), the
    settings and the cursor as they were, starts no goroutine, and keeps
    every entry of the store and every address of the collection, in
    order: it can only append. *)
Theorem Refresh_only_appends w r w' :
  well_formed w →
  Refresh clock w = Some (r, w') →
  refreshMu (pool w') = refreshMu (pool w) ∧
  same_settings (pool w) (pool w') ∧
  roundRobinIdx (pool w') = roundRobinIdx (pool w) ∧
  proxies (pool w) `prefix_of` proxies (pool w') ∧
  heap w ⊆ heap w' ∧
  spawned w' = spawned w.
Proof.
  intros Hwf Hrun.
  destruct (configured_dec (pool w)) as [[Hurl Hfn]|Hcfg].
  { rewrite (Refresh_unconfigured clock w Hurl Hfn) in Hrun.
    injection Hrun as <- <-. cbn. repeat split; try done.
    apply same_settings_refl. }
  destruct (refreshMu (pool w)) eqn:Hmu.
  { rewrite (Refresh_busy clock w Hcfg Hmu) in Hrun.
    injection Hrun as <- <-. cbn. repeat split; try done.
    apply same_settings_refl. }
  destruct (fetched (pool w)) as [cands [err|]] eqn:Hfetch.
  - rewrite (Refresh_failed clock w cands err Hcfg Hmu Hfetch) in Hrun.
    injection Hrun as <- <-. cbn. repeat split; try done.
    apply same_settings_refl.
  - destruct (entries_of_exists _ _ Hwf) as [items Hent].
    destruct (Refresh_success w items cands Hcfg Hmu Hfetch Hent)
      as (w1 & nps & nits & Hrun1 & Hps & Hent' & Hsub & Hs & Htr & Hsp
          & _).
    rewrite Hrun1 in Hrun. injection Hrun as <- <-.
    split; [by rewrite Hs|]. split; [done|]. split; [by rewrite Hs|].
    split; [by exists nps|done].
Qed.

(** *** Removal *)

Lemma removeKey_absent key ps : ∀ before items w,
  entries_of (heap w) ps items → key ∉ identities items →
  removeKey key before ps w = Some (None, w).
Proof.
  induction ps as [|a ps IH]; intros before items w Hent Hkey; [done|].
  inversion Hent as [|? it ? items' Hit Hrest]; subst.
  cbn [removeKey]. step_with (String_run a w it Hit).
  unfold identities in Hkey. cbn in Hkey.
  apply not_elem_of_cons in Hkey as [Hne Hkey].
  destruct (String.eqb_spec (ProxyItem.String it) key) as [Heq|_]; [done|].
  by apply (IH _ items').
Qed.

(** The scan stops at the first entry with the identity sought; the
    entries after it are not looked at. *)
Lemma removeKey_first key ps1 : ∀ before items1 w a it ps2,
  entries_of (heap w) ps1 items1 → key ∉ identities items1 →
  heap w !! a = Some it → ProxyItem.String it = key →
  removeKey key before (ps1 ++ a :: ps2) w
    = Some (Some (before ++ ps1 ++ ps2), w).
Proof.
  induction ps1 as [|b ps1 IH]; intros before items1 w a it ps2 Hent Hkey
    Hit Heq.
  - cbn [app removeKey]. step_with (String_run a w it Hit).
    by rewrite Heq, String.eqb_refl.
  - inversion Hent as [|? itb ? items' Hitb Hrest]; subst.
    cbn [app removeKey]. step_with (String_run b w itb Hitb).
    unfold identities in Hkey. cbn in Hkey.
    apply not_elem_of_cons in Hkey as [Hne Hkey].
    destruct (String.eqb_spec (ProxyItem.String itb)
                (ProxyItem.String it)) as [Hsame|_]; [done|].
    rewrite (IH (before ++ [b]) items' w a it ps2 Hrest Hkey Hit eq_refl).
    by rewrite <- app_assoc.
Qed.

Lemma RemoveByString_absent key w items :
  entries_of (heap w) (proxies (pool w)) items → key ∉ identities items →
  RemoveByString key w = Some (false, w).
Proof.
  intros Hent Hkey. unfold RemoveByString.
  step_with (getPool_run w).
  by step_with (removeKey_absent key _ [] items w Hent Hkey).
Qed.

Lemma RemoveByString_first key w ps1 items1 a it ps2 :
  proxies (pool w) = ps1 ++ a :: ps2 →
  entries_of (heap w) ps1 items1 → key ∉ identities items1 →
  heap w !! a = Some it → ProxyItem.String it = key →
  RemoveByString key w =
    Some (true, with_pool (set_proxies (ps1 ++ ps2) (pool w)) w).
Proof.
  intros Hps Hent Hkey Hit Heq. unfold RemoveByString.
  step_with (getPool_run w). rewrite Hps.
  by step_with (removeKey_first key ps1 [] items1 w a it ps2 Hent Hkey Hit Heq).
Qed.

(** X11. [Remove] and [RemoveByString] take the first entry with the
    identity sought out of the collection, keep the others in their order
    and return true; when no entry has that identity they return false
    and nothing changes. Nothing else of the pool changes either way, and
    the entry taken out stays in the store for those who hold it. *)
Theorem Remove_takes_first_match (ip port : string) w :
  (∀ items,
     entries_of (heap w) (proxies (pool w)) items →
     key_of ip port ∉ identities items →
     Remove ip port w = Some (false, w) ∧
     RemoveByString (key_of ip port) w = Some (false, w)) ∧
  (∀ ps1 items1 a it ps2,
     proxies (pool w) = ps1 ++ a :: ps2 →
     entries_of (heap w) ps1 items1 →
     key_of ip port ∉ identities items1 →
     heap w !! a = Some it →
     ProxyItem.String it = key_of ip port →
     Remove ip port w =
       Some (true, with_pool (set_proxies (ps1 ++ ps2) (pool w)) w) ∧
     RemoveByString (key_of ip port) w =
       Some (true, with_pool (set_proxies (ps1 ++ ps2) (pool w)) w)).
Proof.
  split.
  - intros items Hent Hkey. unfold Remove. fold (key_of ip port).
    split; by apply (RemoveByString_absent _ _ items).
  - intros ps1 items1 a it ps2 Hps Hent Hkey Hit Heq.
    unfold Remove. fold (key_of ip port).
    split; by apply (RemoveByString_first _ _ ps1 items1 a it ps2).
Qed.

Lemma entries_of_inserted_old ip port w items :
  entries_of (heap w) (proxies (pool w)) items →
  entries_of (heap (inserted ip port w)) (proxies (pool w)) items.
Proof.
  intros Hent. cbn.
  eapply Forall2_impl; [exact Hent|]. intros a it Ha. cbn in Ha.
  rewrite lookup_insert_ne; [done|].
  intros <-. by rewrite new_addr_fresh in Ha.
Qed.

(** X12. Adding an endpoint that is not in the pool and removing it again
    gives back the collection and the settings as they were: both calls
    return true, and what is left of the insertion is the entry in the
    store, which the pool no longer refers to, and two clock readings. *)
Theorem AddProxy_then_Remove_restores (ip port : string) w items :
  entries_of (heap w) (proxies (pool w)) items →
  key_of ip port ∉ identities items →
  ∃ w1 w2,
    AddProxy clock ip port w = Some (true, w1) ∧
    Remove ip port w1 = Some (true, w2) ∧
    pool w2 = pool w ∧
    heap w ⊆ heap w2 ∧
    trace w2 = trace w ∧ spawned w2 = spawned w.
Proof.
  intros Hent Hkey.
  exists (inserted ip port w). eexists.
  split; [by apply (AddProxy_new clock _ _ _ items)|].
  split.
  - unfold Remove. fold (key_of ip port).
    apply (RemoveByString_first _ _ (proxies (pool w)) items (new_addr w)
             (new_entry ip port w) []); try done.
    + by apply entries_of_inserted_old.
    + cbn. apply lookup_insert_eq.
  - cbn. rewrite app_nil_r. split; [by destruct (pool w)|].
    split; [apply insert_subseteq, new_addr_fresh|done].
Qed.

Lemma entries_split h ps items ids1 key ids2 :
  entries_of h ps items → identities items = ids1 ++ key :: ids2 →
  ∃ ps1 a ps2 items1 it items2,
    ps = ps1 ++ a :: ps2 ∧ items = items1 ++ it :: items2 ∧
    entries_of h ps1 items1 ∧ h !! a = Some it ∧ entries_of h ps2 items2 ∧
    identities items1 = ids1 ∧ ProxyItem.String it = key ∧
    identities items2 = ids2.
Proof.
  intros Hent Hids. unfold identities in Hids.
  apply fmap_app_inv in Hids as (items1 & rest & -> & Hrest & ->).
  symmetry in Hrest.
  apply fmap_cons_inv in Hrest as (it & items2 & -> & -> & ->).
  apply Forall2_app_inv_r in Hent as (ps1 & rest & Hent1 & Hent2 & ->).
  apply Forall2_cons_inv_r in Hent2 as (a & ps2 & Hit & Hent2 & ->).
  by exists ps1, a, ps2, items1, it, items2.
Qed.

(** X13. In a pool whose entries have distinct identities, removing an
    endpoint that is there makes the collection one shorter and frees the
    identity: the same endpoint can be added at once, and the entry it gets
    is a new one, unused and with the defaults of the pool, whatever the
    use count of the one removed. *)
Theorem Remove_then_AddProxy_renews (ip port : string) w items :
  entries_of (heap w) (proxies (pool w)) items →
  NoDup (identities items) →
  key_of ip port ∈ identities items →
  ∃ w1 w2 a,
    Remove ip port w = Some (true, w1) ∧
    S (length (proxies (pool w1))) = length (proxies (pool w)) ∧
    AddProxy clock ip port w1 = Some (true, w2) ∧
    heap w !! a = None ∧
    proxies (pool w2) = proxies (pool w1) ++ [a] ∧
    heap w2 !! a =
      Some (ProxyItem.mk ip port 0 (maxUseCount (pool w))
              (Add (clock (ticks w)) (seconds (expireSeconds (pool w))))
              (clock (S (ticks w))) ProxyItem.zeroTime).
Proof.
  intros Hent Hnd Hin.
  destruct (list_elem_of_split_l _ _ Hin) as (ids1 & ids2 & Hids & Hfirst).
  destruct (entries_split _ _ _ _ _ _ Hent Hids)
    as (ps1 & b & ps2 & items1 & it & items2 & Hps & Hitems & Hent1 & Hit
        & Hent2 & <- & Heq & <-).
  set (w1 := with_pool (set_proxies (ps1 ++ ps2) (pool w)) w).
  assert (entries_of (heap w1) (proxies (pool w1)) (items1 ++ items2))
    as Hent' by (by apply Forall2_app).
  assert (key_of ip port ∉ identities (items1 ++ items2)) as Hgone.
  { rewrite Hitems in Hnd. unfold identities in *.
    rewrite fmap_app, fmap_cons, Heq in Hnd.
    apply NoDup_app in Hnd as (_ & Hsep & Hnd2).
    apply NoDup_cons in Hnd2 as [Hnot2 _].
    rewrite fmap_app. intros [H1|H2]%elem_of_app; [by apply Hfirst|done]. }
  exists w1, (inserted ip port w1), (new_addr w1).
  split; [|split; [|split; [|split; [|split]]]].
  - unfold Remove. fold (key_of ip port).
    by apply (RemoveByString_first _ _ ps1 items1 b it ps2).
  - cbn. rewrite Hps, !length_app. cbn. lia.
  - by apply (AddProxy_new clock _ _ _ (items1 ++ items2)).
  - apply (new_addr_fresh w1).
  - done.
  - cbn. apply lookup_insert_eq.
Qed.

End MorePoolFacts.

(** ** The pool: pruning and the queries *)

Section PruningFacts.

Import ProxyPool.

Variable clock : nat → Time.
Variable racers : gmap addr ProxyItem.t → gmap addr ProxyItem.t.

Implicit Types (w : World) (a : addr) (it : ProxyItem.t) (ps : list addr).

Local Abbreviation new_entry := (new_entry clock).
Local Abbreviation inserted := (inserted clock).
Local Abbreviation available_at := (available_at clock).
Local Abbreviation pruned := (pruned clock).
Local Abbreviation scanned := (scanned clock).
Local Abbreviation chosen := (chosen clock).
Local Abbreviation claimed_entry := (claimed_entry clock).
Local Abbreviation at_claim := (at_claim racers).
Local Abbreviation after_claim := (after_claim clock racers).

Ltac step_with H := rewrite (bind_Some _ _ _ _ _ H).

(** With the clock standing at [now], the scan keeps the entries that are
    available at [now], in order. *)
Lemma available_at_frozen (now : Time) h ps items :
  (∀ t, clock t = now) → entries_of h ps items → ∀ t,
  entries_of h (available_at h t ps)
    (filter (λ it, ProxyItem.IsAvailable now it = true) items) ∧
  Z.of_nat (length (available_at h t ps)) =
    count_if (ProxyItem.IsAvailable now) items ∧
  Z.of_nat (length ps) - Z.of_nat (length (available_at h t ps)) =
    count_if (λ it, negb (ProxyItem.IsAvailable now it)) items.
Proof.
  intros Hclock Hent. induction Hent as [|a it ps items Hit Hent IH];
    intros t; cbn [available_at count_if].
  - split; [constructor|done].
  - destruct (IH (S t)) as (IH1 & IH2 & IH3).
    rewrite Hit, Hclock, filter_cons.
    destruct (ProxyItem.IsAvailable now it) eqn:Hav; cbn [negb].
    + rewrite decide_True by done. split; [by constructor|].
      cbn [length]. lia.
    + rewrite decide_False by done. split; [done|]. cbn [length]. lia.
Qed.

Lemma available_at_idem (now : Time) h ps items :
  (∀ t, clock t = now) → entries_of h ps items → ∀ t t',
  available_at h t' (available_at h t ps) = available_at h t ps.
Proof.
  intros Hclock Hent. induction Hent as [|a it ps items Hit Hent IH];
    intros t t'; cbn [available_at]; [done|].
  rewrite Hit, Hclock.
  destruct (ProxyItem.IsAvailable now it) eqn:Hav; [|apply IH].
  cbn [available_at]. rewrite Hit, Hclock, Hav. f_equal. apply IH.
Qed.

Lemma entries_well_formed w items :
  entries_of (heap w) (proxies (pool w)) items → well_formed w.
Proof.
  intros Hent a Ha. apply list_elem_of_lookup in Ha as [i Hi].
  destruct (Forall2_lookup_l _ _ _ _ _ Hent Hi) as (it & _ & Hit).
  by exists it.
Qed.

(** X14. With the clock standing at [now], [Cleanup] returns the number
    of entries that are not available at [now] and keeps the others, in
    their order; the store and the settings are as before, and a second
    [Cleanup] finds nothing to drop. *)
Theorem Cleanup_drops_the_unavailable (now : Time) w items :
  (∀ t, clock t = now) →
  entries_of (heap w) (proxies (pool w)) items →
  ∃ w1,
    Cleanup clock w =
      Some (count_if (λ it, negb (ProxyItem.IsAvailable now it)) items,
            w1) ∧
    entries_of (heap w1) (proxies (pool w1))
      (filter (λ it, ProxyItem.IsAvailable now it = true) items) ∧
    proxies (pool w1) `sublist_of` proxies (pool w) ∧
    heap w1 = heap w ∧ same_settings (pool w) (pool w1) ∧
    trace w1 = trace w ∧ spawned w1 = spawned w ∧
    ∃ w2, Cleanup clock w1 = Some (0, w2) ∧
          pool w2 = pool w1 ∧ heap w2 = heap w1.
Proof.
  intros Hclock Hent.
  pose proof (entries_well_formed w items Hent) as Hwf.
  destruct (available_at_frozen now _ _ _ Hclock Hent (ticks w))
    as (Hkept & _ & Hcount).
  exists (pruned w). split; [|split; [|split; [|split; [|split; [|split;
    [|split]]]]]]; try done.
  - rewrite (Cleanup_run clock w Hwf). cbn. by rewrite Hcount.
  - apply available_at_sublist.
  - exists (pruned (pruned w)).
    rewrite (Cleanup_run clock (pruned w) (pruned_well_formed clock w Hwf)).
    cbn. rewrite (available_at_idem now _ _ items Hclock Hent).
    split; [do 2 f_equal; lia|done].
Qed.

(** X15. The queries agree and change nothing: started at the same clock
    reading, [AvailableCount] is the length of the list [GetAvailable]
    returns, which is a part of the list [GetAll] returns, in order, and
    no more than [Size]; the pool and the store are as before, only the
    clock has been read once per entry. With the clock standing still
    these are the entries that are available then. *)
Theorem queries_agree w items :
  entries_of (heap w) (proxies (pool w)) items →
  let n := length (proxies (pool w)) in
  ∃ avail,
    GetAvailable clock w = Some (avail, tick n w) ∧
    AvailableCount clock w = Some (Z.of_nat (length avail), tick n w) ∧
    GetAll w = Some (proxies (pool w), w) ∧
    Size w = Some (Z.of_nat n, w) ∧
    avail `sublist_of` proxies (pool w) ∧
    0 ≤ Z.of_nat (length avail) ≤ Z.of_nat n ∧
    (∀ now, (∀ t, clock t = now) →
       entries_of (heap w) avail
         (filter (λ it, ProxyItem.IsAvailable now it = true) items) ∧
       Z.of_nat (length avail) = count_if (ProxyItem.IsAvailable now) items).
Proof.
  intros Hent n.
  pose proof (entries_well_formed w items Hent) as Hwf.
  exists (scanned w).
  assert (∀ ps c w0, (∀ a, a ∈ ps → is_Some (heap w0 !! a)) →
            countAvailable clock ps c w0 =
              Some (c + Z.of_nat (length (available_at (heap w0) (ticks w0) ps)),
                    tick (length ps) w0)) as Hcount.
  { clear. induction ps as [|a ps IH]; intros c w0 Hwf.
    - cbn. unfold ret. rewrite tick_0. do 2 f_equal. lia.
    - destruct (Hwf a) as [it Hit]; [left|].
      cbn [countAvailable available_at length].
      step_with (IsAvailable_run clock a w0 it Hit).
      rewrite IH by (intros b Hb; apply Hwf; by right).
      cbn [heap ticks tick]. rewrite Hit, tick_tick.
      change (1 + ticks w0)%nat with (S (ticks w0)).
      replace (length ps + 1)%nat with (S (length ps)) by lia.
      destruct (ProxyItem.IsAvailable (clock (ticks w0)) it);
        cbn [length]; do 2 f_equal; lia. }
  pose proof (available_at_sublist clock (heap w) (ticks w) (proxies (pool w)))
    as Hsub.
  split; [|split; [|split; [|split; [|split; [|split]]]]]; try done.
  - unfold GetAvailable. step_with (getPool_run w).
    by apply filterAvailable_run.
  - unfold AvailableCount. step_with (getPool_run w).
    by rewrite Hcount.
  - apply sublist_length in Hsub. unfold scanned, n. lia.
  - intros now Hclock.
    destruct (available_at_frozen now _ _ _ Hclock Hent (ticks w))
      as (Hkept & Hlen & _).
    done.
Qed.

End PruningFacts.

(** ** The pool: acquisition in detail *)

Section AcquisitionFacts.

Import ProxyPool.

Variable clock : nat → Time.
Variable racers : gmap addr ProxyItem.t → gmap addr ProxyItem.t.

Implicit Types (w : World) (a : addr) (it : ProxyItem.t) (ps : list addr).

Local Abbreviation new_entry := (new_entry clock).
Local Abbreviation inserted := (inserted clock).
Local Abbreviation available_at := (available_at clock).
Local Abbreviation pruned := (pruned clock).
Local Abbreviation scanned := (scanned clock).
Local Abbreviation chosen := (chosen clock).
Local Abbreviation claimed_entry := (claimed_entry clock).
Local Abbreviation at_claim := (at_claim racers).
Local Abbreviation after_claim := (after_claim clock racers).

Ltac step_with H := rewrite (bind_Some _ _ _ _ _ H).

(** *** What [Get] does to the entries *)

Lemma Refresh_heap_grows w r w' :
  well_formed w → Refresh clock w = Some (r, w') → heap w ⊆ heap w'.
Proof.
  intros Hwf Hrun.
  destruct (configured_dec (pool w)) as [[Hurl Hfn]|Hcfg].
  { rewrite (Refresh_unconfigured clock w Hurl Hfn) in Hrun.
    by injection Hrun as <- <-. }
  destruct (refreshMu (pool w)) eqn:Hmu.
  { rewrite (Refresh_busy clock w Hcfg Hmu) in Hrun.
    by injection Hrun as <- <-. }
  destruct (fetched (pool w)) as [cands [err|]] eqn:Hfetch.
  - rewrite (Refresh_failed clock w cands err Hcfg Hmu Hfetch) in Hrun.
    by injection Hrun as <- <-.
  - destruct (entries_of_exists _ _ Hwf) as [items Hent].
    destruct (Refresh_success clock w items cands Hcfg Hmu Hfetch Hent)
      as (w1 & nps & nits & Hrun1 & _ & _ & Hsub & _).
    rewrite Hrun1 in Hrun. by injection Hrun as <- <-.
Qed.

Lemma Get_replenish_heap_grows w w2 :
  well_formed w → Get_replenish clock w = Some (tt, w2) → heap w ⊆ heap w2.
Proof.
  intros Hwf Hrep.
  destruct (decide (proxies (pool (pruned w)) = [])) as [Hempty|Hne].
  - destruct (Refresh_returns clock (pruned w) (pruned_well_formed clock w Hwf))
      as (r & w3 & evs & Hrun & _).
    rewrite (Get_replenish_empty clock w r w3 Hwf Hempty Hrun) in Hrep.
    injection Hrep as <-.
    apply (Refresh_heap_grows (pruned w) r w3); [|done].
    by apply pruned_well_formed.
  - destruct (Z_lt_le_dec (Z.of_nat (length (proxies (pool (pruned w)))))
                (minPoolSize (pool w))) as [Hlow|Hok].
    + rewrite (Get_replenish_low clock w Hwf Hne Hlow) in Hrep.
      by injection Hrep as <-.
    + rewrite (Get_replenish_healthy clock w Hwf Hne Hok) in Hrep.
      by injection Hrep as <-.
Qed.

(** The three ways a [Get] returns. *)
Lemma Get_cases w res w' :
  well_formed w → Get clock racers w = Some (res, w') →
  ∃ w2,
    Get_replenish clock w = Some (tt, w2) ∧ well_formed w2 ∧
    heap w ⊆ heap w2 ∧
    ((scanned w2 = [] ∧ res = (None, Some ErrNoAvailableProxy) ∧
      w' = tick (length (proxies (pool w2))) w2) ∨
     (∃ a it, chosen w2 = Some a ∧ racers (heap w2) !! a = Some it ∧
              ProxyItem.maxUseCount it ≤ ProxyItem.usedCount it ∧
              res = (None, Some ErrNoAvailableProxy) ∧ w' = at_claim w2) ∨
     (∃ a it, chosen w2 = Some a ∧ racers (heap w2) !! a = Some it ∧
              ProxyItem.usedCount it < ProxyItem.maxUseCount it ∧
              res = (Some a, None) ∧ w' = after_claim a it w2)).
Proof.
  intros Hwf Hget.
  destruct (Get_replenish_returns clock w Hwf) as (w2 & Hrep & Hwf2 & _).
  exists w2. split; [done|]. split; [done|].
  split; [by apply Get_replenish_heap_grows|].
  unfold Get in Hget. rewrite (bind_Some _ _ _ _ _ Hrep) in Hget.
  destruct (decide (scanned w2 = [])) as [Hnone|Hsome].
  { rewrite (Get_select_none_available clock racers w2 Hwf2 Hnone) in Hget.
    injection Hget as <- <-. by left. }
  destruct (chosen w2) as [a|] eqn:Hchosen;
    [|by rewrite (Get_select_panics clock racers w2 Hwf2 Hsome) in Hget
        by (by left)].
  destruct (racers (heap w2) !! a) as [it|] eqn:Hit;
    [|by rewrite (Get_select_panics clock racers w2 Hwf2 Hsome) in Hget
        by (right; by exists a)].
  destruct (Z_lt_le_dec (ProxyItem.usedCount it) (ProxyItem.maxUseCount it))
    as [Hlt|Hge].
  - rewrite (Get_select_claims clock racers w2 a it Hwf2 Hsome Hchosen Hit Hlt)
      in Hget.
    injection Hget as <- <-. right. right. by exists a, it.
  - rewrite (Get_select_claim_fails clock racers w2 a it Hwf2 Hsome Hchosen
               Hit Hge) in Hget.
    injection Hget as <- <-. right. left. by exists a, it.
Qed.

(** One [Get], nobody else on the entries: the entry handed out has one
    use more, every other entry of the store is as it was. *)
Lemma Get_counts_one_use w res w' a it :
  (∀ h, racers h = h) → well_formed w →
  heap w !! a = Some it →
  is_int64 (ProxyItem.usedCount it) → is_int64 (ProxyItem.maxUseCount it) →
  Get clock racers w = Some (res, w') →
  well_formed w' ∧
  ∃ it',
    heap w' !! a = Some it' ∧
    ProxyItem.usedCount it' =
      ProxyItem.usedCount it + (if decide (res.1 = Some a) then 1 else 0) ∧
    (res.1 = Some a → ProxyItem.usedCount it < ProxyItem.maxUseCount it) ∧
    ProxyItem.maxUseCount it' = ProxyItem.maxUseCount it ∧
    ProxyItem.expireTime it' = ProxyItem.expireTime it ∧
    ProxyItem.String it' = ProxyItem.String it.
Proof.
  intros Hquiet Hwf Hit Hu Hm Hget.
  destruct (Get_cases w res w' Hwf Hget)
    as (w2 & _ & Hwf2 & Hsub & [(_ & -> & ->)|[(b & itb & _ & _ & _ & -> & ->)
        |(b & itb & Hchosen & Hb & Hlt & -> & ->)]]).
  - split; [done|]. exists it. cbn.
    split; [by apply (lookup_weaken _ _ _ _ Hit Hsub)|].
    rewrite decide_False by done. repeat split; try done; lia.
  - split.
    { intros c Hc. cbn in *. rewrite Hquiet. by apply Hwf2. }
    exists it. cbn. rewrite Hquiet.
    split; [by apply (lookup_weaken _ _ _ _ Hit Hsub)|].
    rewrite decide_False by done. repeat split; try done; lia.
  - rewrite Hquiet in Hb. split.
    { intros c Hc. cbn in *. rewrite Hquiet.
      destruct (decide (c = b)) as [->|Hne].
      - rewrite lookup_insert_eq. by eexists.
      - rewrite lookup_insert_ne by done. by apply Hwf2. }
    cbn. rewrite Hquiet.
    destruct (decide (a = b)) as [->|Hne].
    + pose proof (lookup_weaken _ _ _ _ Hit Hsub) as Hit2.
      rewrite Hb in Hit2. injection Hit2 as ->.
      eexists. split; [apply lookup_insert_eq|].
      rewrite decide_True by done. cbn.
      rewrite (wrap64_succ _ (ProxyItem.maxUseCount it)) by done.
      repeat split; try done; lia.
    + exists it. rewrite lookup_insert_ne by done.
      split; [by apply (lookup_weaken _ _ _ _ Hit Hsub)|].
      rewrite decide_False by congruence.
      repeat split; try done; [lia|congruence].
Qed.

(** X16. Calls of [Get] one after the other, nobody else on the entries:
    the use count of an entry of the store grows by the number of times
    [Get] handed that entry out, and by nothing else, and never passes the
    limit of the entry; so an entry is handed out at most as many times as
    it had uses left. Limit, expiry and identity of the entry stay as they
    were. *)
Theorem GetN_counts_each_use (n : nat) : ∀ w rs w' a it,
  (∀ h, racers h = h) → well_formed w →
  heap w !! a = Some it →
  is_int64 (ProxyItem.usedCount it) → is_int64 (ProxyItem.maxUseCount it) →
  ProxyItem.usedCount it ≤ ProxyItem.maxUseCount it →
  GetN clock racers n w = Some (rs, w') →
  ∃ it',
    heap w' !! a = Some it' ∧
    ProxyItem.usedCount it' =
      ProxyItem.usedCount it
      + Z.of_nat (length (filter (λ r, r.1 = Some a) rs)) ∧
    ProxyItem.usedCount it' ≤ ProxyItem.maxUseCount it ∧
    ProxyItem.maxUseCount it' = ProxyItem.maxUseCount it ∧
    ProxyItem.expireTime it' = ProxyItem.expireTime it ∧
    ProxyItem.String it' = ProxyItem.String it.
Proof.
  induction n as [|n IH]; intros w rs w' a it Hquiet Hwf Hit Hu Hm Hle Hrun.
  - injection Hrun as <- <-. exists it. cbn. repeat split; try done; lia.
  - cbn [GetN] in Hrun. unfold bind at 1 in Hrun.
    destruct (Get clock racers w) as [[r w1]|] eqn:Hget; [|done].
    unfold bind at 1 in Hrun.
    destruct (GetN clock racers n w1) as [[rs1 w2]|] eqn:Hrest; [|done].
    injection Hrun as <- <-.
    destruct (Get_counts_one_use w r w1 a it Hquiet Hwf Hit Hu Hm Hget)
      as (Hwf1 & it1 & Hit1 & Hu1 & Hlt1 & Hm1 & He1 & Hs1).
    assert (ProxyItem.usedCount it1 ≤ ProxyItem.maxUseCount it) as Hle1.
    { rewrite Hu1. destruct (decide (r.1 = Some a)) as [Hr|_]; [|lia].
      specialize (Hlt1 Hr). lia. }
    destruct (IH w1 rs1 w2 a it1 Hquiet Hwf1 Hit1) as
      (it2 & Hit2 & Hu2 & Hle2 & Hm2 & He2 & Hs2); try done.
    { unfold is_int64, int64_min, int64_max in *. rewrite Hu1.
      destruct (decide (r.1 = Some a)); lia. }
    { by rewrite Hm1. }
    { by rewrite Hm1. }
    exists it2. split; [done|]. rewrite filter_cons.
    split; [|repeat split; congruence].
    rewrite Hu2, Hu1.
    destruct (decide (r.1 = Some a)); cbn [length]; lia.
Qed.

(** *** [AddProxyItem] *)

(** X17. [AddProxyItem] reads the host and the port of the entry it is
    given and nothing else: when the pool has an entry of that identity it
    returns false and changes nothing; otherwise the pool gets a new entry
    at an address of its own, unused and with the limit and the time to
    live of the pool, whatever the count, the limit and the expiry of the
    entry given, which itself stays out of the collection and as it was.
    On a nil entry the call panics. *)
Theorem AddProxyItem_copies_the_endpoint (proxy : addr) w items :
  entries_of (heap w) (proxies (pool w)) items →
  (heap w !! proxy = None → AddProxyItem clock proxy w = None) ∧
  (∀ it, heap w !! proxy = Some it →
     (key_of (ProxyItem.IP it) (ProxyItem.Port it) ∈ identities items →
        AddProxyItem clock proxy w = Some (false, w)) ∧
     (key_of (ProxyItem.IP it) (ProxyItem.Port it) ∉ identities items →
        ∃ w' a,
          AddProxyItem clock proxy w = Some (true, w') ∧
          a ≠ proxy ∧ heap w !! a = None ∧
          proxies (pool w') = proxies (pool w) ++ [a] ∧
          heap w' !! proxy = Some it ∧
          heap w' !! a =
            Some (ProxyItem.mk (ProxyItem.IP it) (ProxyItem.Port it) 0
                    (maxUseCount (pool w))
                    (Add (clock (ticks w))
                       (seconds (expireSeconds (pool w))))
                    (clock (S (ticks w))) ProxyItem.zeroTime))).
Proof.
  intros Hent. split.
  - intros Hnil. unfold AddProxyItem. apply bind_None.
    unfold deref. by rewrite Hnil.
  - intros it Hit.
    assert (deref proxy w = Some (it, w)) as Hderef
      by (unfold deref; by rewrite Hit).
    split.
    + intros Hdup. unfold AddProxyItem. step_with Hderef.
      by apply (AddProxy_duplicate clock _ _ _ items).
    + intros Hnew. exists (inserted (ProxyItem.IP it) (ProxyItem.Port it) w),
        (new_addr w).
      pose proof (new_addr_fresh w) as Hfresh.
      assert (new_addr w ≠ proxy) as Hne by (intros Heq; congruence).
      split; [|split; [done|split; [done|split; [done|split]]]].
      * unfold AddProxyItem. step_with Hderef.
        by apply (AddProxy_new clock _ _ _ items).
      * cbn. by rewrite lookup_insert_ne.
      * cbn. apply lookup_insert_eq.
Qed.

(** *** [GetString] and [GetURL] *)

(** X18. [GetString] and [GetURL] are [Get] followed by a reading of the
    entry: they leave the pool and the store as [Get] does; when [Get]
    fails they return the empty string and [ErrNoAvailableProxy], and when
    [Get] returns an entry they return its ip:port, for [GetURL] after
    http://, and no error. *)
Theorem GetString_GetURL_follow_Get w res w' :
  well_formed w →
  Get clock racers w = Some (res, w') →
  (res = (None, Some ErrNoAvailableProxy) ∧
   GetString clock racers w = Some (("", Some ErrNoAvailableProxy), w') ∧
   GetURL clock racers w = Some (("", Some ErrNoAvailableProxy), w')) ∨
  (∃ a it,
     res = (Some a, None) ∧ heap w' !! a = Some it ∧
     GetString clock racers w =
       Some ((ProxyItem.IP it +:+ ":" +:+ ProxyItem.Port it, None), w') ∧
     GetURL clock racers w =
       Some (("http://" +:+ ProxyItem.IP it +:+ ":" +:+ ProxyItem.Port it,
              None), w')).
Proof.
  intros Hwf Hget.
  destruct (Get_cases w res w' Hwf Hget)
    as (w2 & _ & Hwf2 & Hsub & [(_ & -> & ->)|[(b & itb & _ & _ & _ & -> & ->)
        |(b & itb & Hchosen & Hb & Hlt & -> & ->)]]).
  - left. split; [done|]. unfold GetString, GetURL.
    by rewrite !(bind_Some _ _ _ _ _ Hget).
  - left. split; [done|]. unfold GetString, GetURL.
    by rewrite !(bind_Some _ _ _ _ _ Hget).
  - right. exists b, (claimed_entry (ticks (at_claim w2)) itb).
    assert (heap (after_claim b itb w2) !! b =
              Some (claimed_entry (ticks (at_claim w2)) itb)) as Hlook
      by apply lookup_insert_eq.
    split; [done|]. split; [done|]. unfold GetString, GetURL.
    rewrite !(bind_Some _ _ _ _ _ Hget). cbn [fst snd].
    split.
    + by step_with (String_run b _ _ Hlook).
    + unfold URL, bind, deref, ret. by rewrite Hlook.
Qed.

(** *** When [Get] panics *)

(** X19. On a pool whose addresses all hold entries, which the other
    goroutines do not remove from the store, [Get] returns as long as the
    cursor is not negative. The cursor is an int that [Get] increments
    without a bound: at the largest int it wraps around to the smallest,
    and with a negative cursor whose remainder by the number of available
    entries is not zero, the index is negative and [Get] panics. *)
Theorem Get_panics_only_on_a_negative_cursor w :
  well_formed w →
  (∀ h a, is_Some (h !! a) → is_Some (racers h !! a)) →
  (0 ≤ roundRobinIdx (pool w) → ∃ res w', Get clock racers w = Some (res, w')) ∧
  (∀ w2, Get_replenish clock w = Some (tt, w2) →
         scanned w2 ≠ [] →
         Z.rem (roundRobinIdx (pool w)) (Z.of_nat (length (scanned w2))) < 0 →
         Get clock racers w = None) ∧
  (∀ res w', Get clock racers w = Some (res, w') →
             roundRobinIdx (pool w) = int64_max →
             res.1 ≠ None →
             roundRobinIdx (pool w') = int64_min).
Proof.
  intros Hwf Hkeep. split; [|split].
  - intros Hc. by apply Get_returns.
  - intros w2 Hrep Hsome Hneg.
    destruct (Get_replenish_returns clock w Hwf) as (w3 & Hrep3 & Hwf2 & Hs).
    rewrite Hrep in Hrep3. injection Hrep3 as <-.
    unfold Get. step_with Hrep.
    apply (Get_select_panics clock racers w2 Hwf2 Hsome). left.
    unfold chosen.
    assert (roundRobinIdx (pool w2) = roundRobinIdx (pool w)) as ->
      by (by rewrite Hs).
    by rewrite (proj2 (Z.ltb_lt _ _) Hneg).
  - intros res w' Hget Hmax Hres.
    destruct (Get_cases w res w' Hwf Hget)
      as (w2 & Hrep & _ & _ & [(_ & -> & _)|[(b & itb & _ & _ & _ & -> & _)
          |(b & itb & _ & _ & _ & -> & ->)]]); [done|done|].
    destruct (Get_replenish_returns clock w Hwf) as (w3 & Hrep3 & _ & Hs).
    rewrite Hrep in Hrep3. injection Hrep3 as <-.
    cbn.
    assert (roundRobinIdx (pool w2) = roundRobinIdx (pool w)) as ->
      by (by rewrite Hs).
    rewrite Hmax. reflexivity.
Qed.

End AcquisitionFacts.

(** ** The further properties on sample worlds *)

Lemma Refresh_inserts_every_candidate_witness :
  ∃ w' new_items,
    ProxyPool.Refresh (Demo.frozen 0) Demo.drained = Some (None, w') ∧
    entries_of (ProxyPool.heap w')
      (ProxyPool.proxies (ProxyPool.pool w')) new_items ∧
    length new_items = 2%nat ∧
    refresh_calls (ProxyPool.trace w') = [(2, None)].
Proof.
  destruct (Refresh_inserts_every_candidate (Demo.frozen 0) Demo.drained []
              [ProxyPool.mkProxyAddr "10.0.0.1" "8080";
               ProxyPool.mkProxyAddr "10.0.0.2" "8080"])
    as (w' & news & Hrun & Hent & _ & _ & Htr & _).
  - left. discriminate.
  - reflexivity.
  - reflexivity.
  - constructor.
  - assert (ProxyPool.Refresh (Demo.frozen 0) Demo.drained
            = Some (None, w')) as Hrun' by exact Hrun.
    vm_compute in Hrun'. injection Hrun' as Hw.
    exists w', news. split; [exact Hrun|]. split; [exact Hent|].
    pose proof (Forall2_length _ _ _ Hent) as Hlen.
    rewrite <- Hw in Hlen |- *.
    split; [symmetry; exact Hlen|]. reflexivity.
Defined.

Lemma Refresh_of_known_batch_adds_nothing_witness :
  ProxyPool.Refresh (Demo.frozen 0) Demo.low =
    Some (None,
          logged [ProxyPool.EvRefresh; ProxyPool.EvFetch "http://supplier";
                  ProxyPool.EvOnRefresh 0 None] Demo.low).
Proof.
  refine (proj1 (Refresh_of_known_batch_adds_nothing (Demo.frozen 0) Demo.low
                   [Demo.entry "10.0.0.1" 0 5 1000;
                    Demo.entry "10.0.0.2" 0 5 1000]
                   [ProxyPool.mkProxyAddr "10.0.0.1" "8080";
                    ProxyPool.mkProxyAddr "10.0.0.2" "8080"] _ _ _ _) _).
  - left. discriminate.
  - reflexivity.
  - reflexivity.
  - repeat constructor.
  - intros c Hc.
    repeat (apply elem_of_cons in Hc as [->|Hc]);
      [| |by apply elem_of_nil in Hc].
    + left.
    + right. left.
Defined.

Lemma Refresh_only_appends_witness :
  ∃ w', ProxyPool.Refresh (Demo.frozen 0) Demo.failing
          = Some (Some (ProxyPool.SupplierError "supplier down"), w') ∧
        ProxyPool.refreshMu (ProxyPool.pool w') = false ∧
        ProxyPool.heap Demo.failing ⊆ ProxyPool.heap w' ∧
        ProxyPool.spawned w' = [].
Proof.
  eexists. split; [vm_compute; reflexivity|].
  destruct (Refresh_only_appends (Demo.frozen 0) Demo.failing _ _
              ltac:(apply sample_well_formed; reflexivity)
              ltac:(vm_compute; reflexivity))
    as (Hmu & _ & _ & _ & Hsub & Hsp).
  split; [exact Hmu|]. split; [exact Hsub|exact Hsp].
Defined.

Lemma Remove_takes_first_match_witness :
  ProxyPool.Remove "10.0.0.2" "8080" Demo.three =
    Some (true,
          with_pool (ProxyPool.set_proxies [1; 3]%positive
                       (ProxyPool.pool Demo.three)) Demo.three) ∧
  ProxyPool.Remove "10.0.0.9" "8080" Demo.three = Some (false, Demo.three).
Proof.
  destruct (Remove_takes_first_match "10.0.0.2" "8080" Demo.three)
    as [_ Hfirst].
  destruct (Remove_takes_first_match "10.0.0.9" "8080" Demo.three)
    as [Habsent _].
  split.
  - refine (proj1 (Hfirst [1%positive] [Demo.entry "10.0.0.1" 0 5 1000]
                     2%positive (Demo.entry "10.0.0.2" 0 5 1000)
                     [3%positive] _ _ _ _ _)).
    + reflexivity.
    + repeat constructor.
    + intros [H|H]%elem_of_cons; [discriminate H|by apply elem_of_nil in H].
    + reflexivity.
    + reflexivity.
  - refine (proj1 (Habsent [Demo.entry "10.0.0.1" 0 5 1000;
                            Demo.entry "10.0.0.2" 0 5 1000;
                            Demo.entry "10.0.0.3" 1 5 1000] _ _)).
    + repeat constructor.
    + intros H.
      repeat (apply elem_of_cons in H as [H|H]; [discriminate H|]).
      by apply elem_of_nil in H.
Defined.

Lemma AddProxy_then_Remove_restores_witness :
  ∃ w1 w2,
    ProxyPool.AddProxy (Demo.frozen 0) "10.0.0.9" "8080" Demo.three
      = Some (true, w1) ∧
    ProxyPool.Remove "10.0.0.9" "8080" w1 = Some (true, w2) ∧
    ProxyPool.pool w2 = ProxyPool.pool Demo.three.
Proof.
  destruct (AddProxy_then_Remove_restores (Demo.frozen 0) "10.0.0.9" "8080"
              Demo.three
              [Demo.entry "10.0.0.1" 0 5 1000;
               Demo.entry "10.0.0.2" 0 5 1000;
               Demo.entry "10.0.0.3" 1 5 1000])
    as (w1 & w2 & Hadd & Hrem & Hpool & _).
  - repeat constructor.
  - intros H.
    repeat (apply elem_of_cons in H as [H|H]; [discriminate H|]).
    by apply elem_of_nil in H.
  - exists w1, w2. split; [exact Hadd|]. split; [exact Hrem|exact Hpool].
Defined.

Lemma Remove_then_AddProxy_renews_witness :
  ∃ w1 w2 a,
    ProxyPool.Remove "10.0.0.3" "8080" Demo.three = Some (true, w1) ∧
    ProxyPool.AddProxy (Demo.frozen 0) "10.0.0.3" "8080" w1
      = Some (true, w2) ∧
    ProxyPool.heap Demo.three !! a = None ∧
    ProxyItem.usedCount <$> ProxyPool.heap w2 !! a = Some 0.
Proof.
  destruct (Remove_then_AddProxy_renews (Demo.frozen 0) "10.0.0.3" "8080"
              Demo.three
              [Demo.entry "10.0.0.1" 0 5 1000;
               Demo.entry "10.0.0.2" 0 5 1000;
               Demo.entry "10.0.0.3" 1 5 1000])
    as (w1 & w2 & a & Hrem & _ & Hadd & Hfresh & _ & Hnew).
  - repeat constructor.
  - apply (bool_decide_unpack
             (NoDup ["10.0.0.1:8080"; "10.0.0.2:8080"; "10.0.0.3:8080"])).
    vm_compute. exact I.
  - right. right. left.
  - exists w1, w2, a. split; [exact Hrem|]. split; [exact Hadd|].
    split; [exact Hfresh|]. rewrite Hnew. reflexivity.
Defined.

Lemma Cleanup_drops_the_unavailable_witness :
  ∃ w1, ProxyPool.Cleanup (Demo.frozen 60) Demo.boundary = Some (1, w1) ∧
        ProxyPool.proxies (ProxyPool.pool w1) = [1%positive].
Proof.
  destruct (Cleanup_drops_the_unavailable (Demo.frozen 60) 60 Demo.boundary
              [Demo.entry "10.0.0.1" 0 5 100; Demo.entry "10.0.0.2" 5 5 50])
    as (w1 & Hrun & _).
  - reflexivity.
  - repeat constructor.
  - exists w1. split; [exact Hrun|].
    assert (ProxyPool.Cleanup (Demo.frozen 60) Demo.boundary
            = Some (1, w1)) as Hrun' by exact Hrun.
    vm_compute in Hrun'. injection Hrun' as Hw. rewrite <- Hw. reflexivity.
Defined.

Lemma queries_agree_witness :
  ProxyPool.AvailableCount (Demo.frozen 60) Demo.boundary
    = Some (1, tick 2 Demo.boundary) ∧
  ProxyPool.GetAvailable (Demo.frozen 60) Demo.boundary
    = Some ([1%positive], tick 2 Demo.boundary).
Proof.
  destruct (queries_agree (Demo.frozen 60) Demo.boundary
              [Demo.entry "10.0.0.1" 0 5 100; Demo.entry "10.0.0.2" 5 5 50])
    as (avail & Hav & Hcount & _).
  - repeat constructor.
  - assert (ProxyPool.GetAvailable (Demo.frozen 60) Demo.boundary
            = Some (avail, tick 2 Demo.boundary)) as Hav' by exact Hav.
    vm_compute in Hav'. injection Hav' as Ha. rewrite <- Ha in Hav, Hcount.
    split; [exact Hcount|exact Hav].
Defined.

Lemma GetN_counts_each_use_witness :
  ∃ rs w' it',
    ProxyPool.GetN (Demo.frozen 0) Demo.quiet 6 Demo.three = Some (rs, w') ∧
    ProxyPool.heap w' !! 3%positive = Some it' ∧
    ProxyItem.usedCount it' = 3.
Proof.
  assert (∃ rs w',
            ProxyPool.GetN (Demo.frozen 0) Demo.quiet 6 Demo.three
              = Some (rs, w') ∧
            rs = [(Some 2, None); (Some 3, None); (Some 1, None);
                  (Some 2, None); (Some 3, None); (Some 1, None)]%positive)
    as (rs & w' & Hrun & Hrs).
  { eexists _, _. split; vm_compute; reflexivity. }
  destruct (GetN_counts_each_use (Demo.frozen 0) Demo.quiet 6 Demo.three
              rs w' 3%positive (Demo.entry "10.0.0.3" 1 5 1000))
    as (it' & Hit & Hu & _).
  - reflexivity.
  - apply sample_well_formed. reflexivity.
  - reflexivity.
  - unfold is_int64, int64_min, int64_max. simpl. lia.
  - unfold is_int64, int64_min, int64_max. simpl. lia.
  - simpl. lia.
  - exact Hrun.
  - exists rs, w', it'. split; [exact Hrun|]. split; [exact Hit|].
    rewrite Hu, Hrs. reflexivity.
Defined.

Lemma AddProxyItem_copies_the_endpoint_witness :
  ProxyPool.AddProxyItem (Demo.frozen 0) 3%positive Demo.three
    = Some (false, Demo.three) ∧
  ∃ w' a,
    ProxyPool.AddProxyItem (Demo.frozen 0) 3%positive Samples.detached
      = Some (true, w') ∧
    a ≠ 3%positive ∧
    ProxyItem.usedCount <$> ProxyPool.heap w' !! a = Some 0 ∧
    ProxyItem.usedCount <$> ProxyPool.heap w' !! 3%positive = Some 1.
Proof.
  split.
  - destruct (AddProxyItem_copies_the_endpoint (Demo.frozen 0) 3%positive
                Demo.three
                [Demo.entry "10.0.0.1" 0 5 1000;
                 Demo.entry "10.0.0.2" 0 5 1000;
                 Demo.entry "10.0.0.3" 1 5 1000]) as [_ Hsome].
    + repeat constructor.
    + destruct (Hsome (Demo.entry "10.0.0.3" 1 5 1000) eq_refl) as [Hdup _].
      apply Hdup. right. right. left.
  - destruct (AddProxyItem_copies_the_endpoint (Demo.frozen 0) 3%positive
                Samples.detached
                [Demo.entry "10.0.0.1" 0 5 1000;
                 Demo.entry "10.0.0.2" 0 5 1000]) as [_ Hsome].
    + repeat constructor.
    + destruct (Hsome (Demo.entry "10.0.0.3" 1 5 1000) eq_refl) as [_ Hnew].
      destruct Hnew as (w' & a & Hrun & Hne & _ & _ & Hold & Hfresh).
      * intros H.
        repeat (apply elem_of_cons in H as [H|H]; [discriminate H|]).
        by apply elem_of_nil in H.
      * exists w', a. split; [exact Hrun|]. split; [exact Hne|].
        rewrite Hold, Hfresh. split; reflexivity.
Defined.

Lemma GetString_GetURL_follow_Get_witness :
  ∃ w',
    ProxyPool.GetString (Demo.frozen 0) Demo.quiet Demo.three
      = Some (("10.0.0.2:8080", None), w') ∧
    ProxyPool.GetURL (Demo.frozen 0) Demo.quiet Demo.three
      = Some (("http://10.0.0.2:8080", None), w').
Proof.
  assert (∃ w', ProxyPool.Get (Demo.frozen 0) Demo.quiet Demo.three
                 = Some ((Some 2%positive, None), w')) as (w' & Hget)
    by (eexists; vm_compute; reflexivity).
  destruct (GetString_GetURL_follow_Get (Demo.frozen 0) Demo.quiet Demo.three
              _ w' ltac:(apply sample_well_formed; reflexivity) Hget)
    as [(Hres & _)|(a & it & Hres & Hit & Hstr & Hurl)];
    [discriminate Hres|].
  injection Hres as <-.
  assert (ProxyPool.Get (Demo.frozen 0) Demo.quiet Demo.three
          = Some ((Some 2%positive, None), w')) as Hget' by exact Hget.
  vm_compute in Hget'. injection Hget' as Hw. rewrite <- Hw in Hit.
  vm_compute in Hit. injection Hit as <-.
  exists w'. split; [exact Hstr|exact Hurl].
Defined.

Lemma Get_panics_only_on_a_negative_cursor_witness :
  (∃ res w', ProxyPool.Get (Demo.frozen 0) Demo.quiet Demo.three
               = Some (res, w')) ∧
  ProxyPool.Get (Demo.frozen 0) Demo.quiet Samples.wrapped = None.
Proof.
  split.
  - destruct (Get_panics_only_on_a_negative_cursor (Demo.frozen 0)
                Demo.quiet Demo.three) as [Hret _].
    + apply sample_well_formed. reflexivity.
    + intros h a Ha. exact Ha.
    + apply Hret. simpl. lia.
  - destruct (Get_panics_only_on_a_negative_cursor (Demo.frozen 0)
                Demo.quiet Samples.wrapped) as (_ & Hpanic & _).
    + apply sample_well_formed. reflexivity.
    + intros h a Ha. exact Ha.
    + apply (Hpanic (pruned (Demo.frozen 0) Samples.wrapped)).
      * vm_compute. reflexivity.
      * vm_compute. discriminate.
      * vm_compute. reflexivity.
Defined.

(** ** A pool without a fetch function *)

Section NoFetchFacts.

Import ProxyPool.

Variable clock : nat → Time.
Variable racers : gmap addr ProxyItem.t → gmap addr ProxyItem.t.

Lemma Get_without_fetch_function w :
  apiURL (pool w) ≠ "" → fetchFunc (pool w) = None →
  refreshMu (pool w) = false → proxies (pool w) = [] →
  Get clock racers w =
    Some ((None, Some ErrNoAvailableProxy),
          logged ([EvRefresh]
                    ++ callback_events (pool w) 0 (Some ErrFetchFuncUnset))
            w).
Proof.
  destruct w as [h [ps mu url mx ex mn ff og orf idx] t tr sp]. cbn.
  intros Hurl -> -> ->.
  unfold Get, Get_replenish, cleanupUnsafe, Refresh, Get_select,
    callOnRefresh, unlockRefresh, bind, getPool, setPool, emit, ret, logged,
    callback_events.
  cbn. rewrite (proj2 (String.eqb_neq _ _) Hurl). cbn.
  destruct orf; cbn; by rewrite <- ?app_assoc.
Qed.

(** X20. A pool with a source address and no fetch function, as [New]
    makes it from a configuration that names the address only, cannot be
    filled by [Refresh]: with the lock free, [Refresh] returns the error
    that asks for a fetch function, hands it to the callback with a count
    of zero and changes nothing else; and on such a pool that is empty,
    every [Get] of a row of calls fails with [ErrNoAvailableProxy], each
    having run one [Refresh] that made no call of a supplier, and the
    pool is as before. *)
Theorem Refresh_needs_a_fetch_function w (n : nat) :
  apiURL (pool w) ≠ "" → fetchFunc (pool w) = None →
  refreshMu (pool w) = false →
  Refresh clock w =
    Some (Some ErrFetchFuncUnset,
          logged ([EvRefresh]
                    ++ callback_events (pool w) 0 (Some ErrFetchFuncUnset))
            w) ∧
  (proxies (pool w) = [] →
   ∃ w',
     GetN clock racers n w =
       Some (replicate n (None, Some ErrNoAvailableProxy), w') ∧
     pool w' = pool w ∧ heap w' = heap w ∧ ticks w' = ticks w ∧
     trace w' =
       trace w
       ++ concat (replicate n
                    ([EvRefresh]
                       ++ callback_events (pool w) 0
                            (Some ErrFetchFuncUnset)))).
Proof.
  intros Hurl Hfn Hmu. split.
  - assert (configured (pool w)) as Hcfg by (by left).
    assert (fetched (pool w) = ([], Some ErrFetchFuncUnset)) as Hfetch
      by (unfold fetched; by rewrite Hfn).
    rewrite (Refresh_failed clock w [] ErrFetchFuncUnset Hcfg Hmu Hfetch).
    unfold fetch_events. by rewrite Hfn.
  - intros Hps. revert w Hurl Hfn Hmu Hps.
    induction n as [|n IH]; intros w Hurl Hfn Hmu Hps.
    + exists w. cbn. by rewrite app_nil_r.
    + cbn [GetN]. unfold bind at 1.
      rewrite (Get_without_fetch_function w Hurl Hfn Hmu Hps).
      destruct (IH (logged ([EvRefresh]
                              ++ callback_events (pool w) 0
                                   (Some ErrFetchFuncUnset)) w))
        as (w' & Hrun & Hp & Hh & Ht & Hr); try done.
      unfold bind at 1. rewrite Hrun. exists w'.
      split; [done|]. split; [done|]. split; [done|]. split; [done|].
      rewrite Hr. cbn [trace logged pool replicate concat].
      by rewrite <- !app_assoc.
Qed.

End NoFetchFacts.

(** ** The default pool *)

Lemma Singleton_settled (cs : list Singleton.call) (s : Singleton.state) :
  Singleton.once s = true →
  Singleton.perform_all cs s =
    (replicate (length cs) (Singleton.defaultPool s), s).
Proof.
  intros Honce. induction cs as [|c cs IH]; [done|].
  cbn [Singleton.perform_all length replicate].
  assert (Singleton.perform c s = (Singleton.defaultPool s, s)) as ->.
  { destruct c; cbn; unfold Singleton.Default, Singleton.InitDefault,
      Singleton.Do; by rewrite Honce. }
  by rewrite IH.
Qed.

(** X21. The first call decides. When no call has been made, or after
    [ResetDefault], the first of [Default] and [InitDefault] makes the
    pool, with the defaults of [New] for [Default] and from its
    configuration for [InitDefault], and every later call of either
    returns that same pool and changes nothing: the configuration of a
    later [InitDefault] is dropped. After [ResetDefault] the next call
    makes a new pool at a new address, and the pools made before are left
    as they are. *)
Theorem first_call_makes_the_default_pool
    (s : Singleton.state) (cfg : ProxyPool.Config.t)
    (cs : list Singleton.call) :
  Singleton.once s = false →
  let a := length (Singleton.pools s) in
  Singleton.perform_all (Singleton.CallInitDefault cfg :: cs) s =
    (replicate (S (length cs)) (Some a),
     Singleton.mk (Singleton.pools s ++ [ProxyPool.New cfg]) (Some a) true) ∧
  Singleton.perform_all (Singleton.CallDefault :: cs) s =
    (replicate (S (length cs)) (Some a),
     Singleton.mk
       (Singleton.pools s
          ++ [ProxyPool.mk [] false "" 5 180 3 None false false 0])
       (Some a) true) ∧
  (∀ s0, Singleton.once (Singleton.ResetDefault s0) = false ∧
         Singleton.pools (Singleton.ResetDefault s0) = Singleton.pools s0 ∧
         (Singleton.InitDefault cfg (Singleton.ResetDefault s0)).1
           = Some (length (Singleton.pools s0))) ∧
  Singleton.once Singleton.initial = false.
Proof.
  intros Honce a. split; [|split; [|split]]; [| | |done].
  - cbn [Singleton.perform_all Singleton.perform].
    unfold Singleton.InitDefault, Singleton.Do. rewrite Honce. cbn.
    by rewrite Singleton_settled.
  - cbn [Singleton.perform_all Singleton.perform].
    unfold Singleton.Default, Singleton.Do. rewrite Honce. cbn.
    by rewrite Singleton_settled.
  - intros s0. done.
Qed.

(** ** The proxy manager *)

(** *** Strings and indices *)

Lemma length_append (a b : string) :
  String.length (a +:+ b) = (String.length a + String.length b)%nat.
Proof.
  induction a as [|x a IH]; [done|].
  rewrite append_String. cbn. by rewrite IH.
Qed.

Lemma append_nil_r (a : string) : a +:+ "" = a.
Proof.
  induction a as [|x a IH]; [done|]. rewrite append_String. by rewrite IH.
Qed.

Lemma append_assoc (a b c : string) : (a +:+ b) +:+ c = a +:+ b +:+ c.
Proof.
  induction a as [|x a IH]; [done|].
  rewrite !append_String. by rewrite IH.
Qed.

Lemma get_append_at (a : string) (c : Ascii.ascii) (r : string) :
  String.get (String.length a) (a +:+ String c r) = Some c.
Proof.
  induction a as [|x a IH]; [done|]. rewrite append_String. exact IH.
Qed.

Lemma substring_all (a r : string) :
  String.substring 0 (String.length a) (a +:+ r) = a.
Proof.
  induction a as [|x a IH].
  - rewrite append_empty. by destruct r.
  - rewrite append_String. cbn. by rewrite IH.
Qed.

Lemma substring_append (pre cur rest : string) :
  String.substring (String.length pre) (String.length cur)
    (pre +:+ cur +:+ rest) = cur.
Proof.
  induction pre as [|x pre IH].
  - rewrite append_empty. apply substring_all.
  - rewrite append_String. exact IH.
Qed.

(** *** [splitAuthProxy] *)

Lemma splitAuthProxy_loop_pieces (rest : string) :
  ∀ (fuel : nat) (pre cur : string) (count : nat) (result : list string),
  (String.length rest < fuel)%nat →
  let s := pre +:+ cur +:+ rest in
  let '(start, result') :=
    Router.splitAuthProxy_loop fuel s
      (String.length pre + String.length cur) (String.length pre) count
      result in
  (if (start <? String.length s)%nat
   then result' ++ [String.substring start (String.length s - start) s]
   else result')
  = result ++ pieces rest cur count.
Proof.
  induction rest as [|c rest IH]; intros fuel pre cur count result Hfuel s.
  - assert (s = pre +:+ cur) as Hs by (subst s; by rewrite append_nil_r).
    assert (String.length s = (String.length pre + String.length cur)%nat)
      as Hlen by (rewrite Hs, !length_append; lia).
    clearbody s.
    destruct fuel as [|fuel]; [cbn in Hfuel; lia|].
    cbn [Router.splitAuthProxy_loop].
    rewrite Hlen, Nat.ltb_irrefl. cbn [andb pieces].
    destruct (String.eqb_spec cur "") as [->|Hne].
    + cbn [String.length]. rewrite Nat.add_0_r, Nat.ltb_irrefl.
      by rewrite app_nil_r.
    + assert ((String.length pre <? String.length pre + String.length cur)%nat
              = true) as ->.
      { apply Nat.ltb_lt. destruct cur; [done|cbn; lia]. }
      replace (String.length pre + String.length cur - String.length pre)%nat
        with (String.length cur) by lia.
      pose proof (substring_append pre cur "") as Hsub.
      rewrite append_nil_r, <- Hs in Hsub. by rewrite Hsub.
  - assert (s = pre +:+ cur +:+ String c rest) as Hs by reflexivity.
    assert (String.length s
            = (String.length pre + String.length cur
               + S (String.length rest))%nat)
      as Hlen by (rewrite Hs, !length_append; cbn; lia).
    clearbody s.
    destruct fuel as [|fuel]; [cbn in Hfuel; lia|].
    cbn [Router.splitAuthProxy_loop pieces].
    cbn [String.length] in Hfuel.
    assert ((String.length pre + String.length cur <? String.length s)%nat
            = true) as -> by (apply Nat.ltb_lt; lia).
    cbn [andb].
    destruct (count <? 4)%nat eqn:Hcount.
    + assert (String.get (String.length pre + String.length cur) s = Some c)
        as Hget.
      { rewrite Hs, <- append_assoc, <- length_append.
        apply get_append_at. }
      rewrite Hget.
      destruct (Ascii.eqb_spec c Router.colon) as [->|Hne].
      * rewrite bool_decide_eq_true_2 by done.
        replace (String.length pre + String.length cur - String.length pre)%nat
          with (String.length cur) by lia.
        assert (String.substring (String.length pre) (String.length cur) s
                = cur) as -> by (rewrite Hs; apply substring_append).
        specialize (IH fuel (pre +:+ cur +:+ String Router.colon "") ""
                      (S count) (result ++ [cur])).
        cbv zeta in IH.
        assert ((pre +:+ cur +:+ String Router.colon "") +:+ "" +:+ rest = s)
          as Hs'.
        { rewrite Hs, !append_assoc, append_String, !append_empty. done. }
        rewrite Hs' in IH.
        assert (String.length (pre +:+ cur +:+ String Router.colon "")
                = S (String.length pre + String.length cur)) as Hpre.
        { rewrite !length_append. cbn. lia. }
        rewrite Hpre in IH. cbn [String.length] in IH.
        rewrite Nat.add_0_r in IH.
        destruct (Router.splitAuthProxy_loop fuel s _ _ _ _) as [st res].
        rewrite IH by lia. by rewrite <- app_assoc.
      * rewrite bool_decide_eq_false_2 by congruence.
        specialize (IH fuel pre (cur +:+ String c "") count result).
        cbv zeta in IH.
        assert (pre +:+ (cur +:+ String c "") +:+ rest = s) as Hs'.
        { rewrite Hs, !append_assoc, append_String, !append_empty. done. }
        rewrite Hs' in IH.
        assert ((String.length pre + String.length (cur +:+ String c ""))%nat
                = S (String.length pre + String.length cur)) as Hcur.
        { rewrite !length_append. cbn. lia. }
        rewrite Hcur in IH.
        destruct (Router.splitAuthProxy_loop fuel s _ _ _ _) as [st res].
        apply IH. lia.
    + assert ((String.length pre <? String.length s)%nat = true) as ->
        by (apply Nat.ltb_lt; lia).
      f_equal. f_equal.
      replace (String.length s - String.length pre)%nat
        with (String.length (cur +:+ String c rest))
        by (rewrite length_append; cbn; lia).
      pose proof (substring_append pre (cur +:+ String c rest) "") as Hsub.
      rewrite append_nil_r, <- Hs in Hsub. done.
Qed.

Lemma splitAuthProxy_pieces (s : string) :
  Router.splitAuthProxy s = pieces s "" 0.
Proof.
  unfold Router.splitAuthProxy.
  pose proof (splitAuthProxy_loop_pieces s (S (String.length s)) "" "" 0 [])
    as H.
  cbv zeta in H. rewrite !append_empty in H. cbn [String.length Nat.add] in H.
  destruct (Router.splitAuthProxy_loop _ s 0 0 0 []) as [start result].
  apply H. lia.
Qed.

Lemma pieces_colon_free (x rest cur : string) (count : nat) :
  colon_free x = true → (count < 4)%nat →
  pieces (x +:+ rest) cur count = pieces rest (cur +:+ x) count.
Proof.
  intros Hx Hcount. revert cur.
  induction x as [|c x IH]; intros cur.
  - by rewrite append_empty, append_nil_r.
  - cbn in Hx. apply andb_true_iff in Hx as [Hc Hx].
    rewrite append_String. cbn [pieces].
    rewrite (proj2 (Nat.ltb_lt _ _) Hcount).
    apply negb_true_iff in Hc. unfold Router.colon. rewrite Hc.
    rewrite (IH Hx). by rewrite append_assoc, append_String, append_empty.
Qed.

Lemma pieces_colon (rest cur : string) (count : nat) :
  (count < 4)%nat →
  pieces (":" +:+ rest) cur count = cur :: pieces rest "" (S count).
Proof.
  intros Hcount.
  change (":" +:+ rest) with (String Router.colon rest). cbn [pieces].
  by rewrite (proj2 (Nat.ltb_lt _ _) Hcount), Ascii.eqb_refl.
Qed.

Lemma pieces_part (x rest : string) (count : nat) :
  colon_free x = true → (count < 4)%nat →
  pieces (x +:+ ":" +:+ rest) "" count = x :: pieces rest "" (S count).
Proof.
  intros Hx Hcount.
  by rewrite (pieces_colon_free x _ "" count Hx Hcount), append_empty,
    pieces_colon.
Qed.

Lemma pieces_last (x : string) (count : nat) :
  colon_free x = true → (count < 4)%nat →
  pieces x "" count = if String.eqb x "" then [] else [x].
Proof.
  intros Hx Hcount.
  pose proof (pieces_colon_free x "" "" count Hx Hcount) as H.
  by rewrite append_nil_r, append_empty in H.
Qed.

Lemma pieces_late (s : string) :
  pieces s "" 4 = if String.eqb s "" then [] else [s].
Proof. by destruct s. Qed.

Lemma eqb_nonempty (s : string) : s ≠ "" → String.eqb s "" = false.
Proof. apply String.eqb_neq. Qed.

(** X22. An account string host:port:user:pass, its four parts without a
    colon and not empty: [SetAuthProxy] stores the four parts, and
    [getAuthProxy] gives the string back as the proxy, host:port as the
    address shown and the type asked for. With host:port alone the proxy
    is host:port, whatever credentials the manager held before. Nothing
    else of the manager changes. *)
Theorem SetAuthProxy_getAuthProxy_round_trip
    (h p u pw : string) (typ : Router.ProxyType) (r : Router.t) :
  colon_free h = true → colon_free p = true →
  colon_free u = true → colon_free pw = true →
  h ≠ "" → p ≠ "" → u ≠ "" → pw ≠ "" →
  Router.splitAuthProxy (h +:+ ":" +:+ p +:+ ":" +:+ u +:+ ":" +:+ pw)
    = [h; p; u; pw] ∧
  Router.getAuthProxy typ
    (Router.SetAuthProxy (h +:+ ":" +:+ p +:+ ":" +:+ u +:+ ":" +:+ pw) r)
    = (Some (Router.mkResult typ
               (h +:+ ":" +:+ p +:+ ":" +:+ u +:+ ":" +:+ pw) None
               (h +:+ ":" +:+ p)), None) ∧
  Router.splitAuthProxy (h +:+ ":" +:+ p) = [h; p] ∧
  Router.getAuthProxy typ (Router.SetAuthProxy (h +:+ ":" +:+ p) r)
    = (Some (Router.mkResult typ (h +:+ ":" +:+ p) None (h +:+ ":" +:+ p)),
       None) ∧
  (∀ s, Router.mode (Router.SetAuthProxy s r) = Router.mode r ∧
        Router.proxyType (Router.SetAuthProxy s r) = Router.proxyType r ∧
        Router.pool (Router.SetAuthProxy s r) = Router.pool r).
Proof.
  intros Hh Hp Hu Hpw Nh Np Nu Npw.
  assert (Router.splitAuthProxy
            (h +:+ ":" +:+ p +:+ ":" +:+ u +:+ ":" +:+ pw) = [h; p; u; pw])
    as H4.
  { rewrite splitAuthProxy_pieces, !pieces_part by (done || lia).
    by rewrite pieces_last, eqb_nonempty by (done || lia). }
  assert (Router.splitAuthProxy (h +:+ ":" +:+ p) = [h; p]) as H2.
  { rewrite splitAuthProxy_pieces, !pieces_part by (done || lia).
    by rewrite pieces_last, eqb_nonempty by (done || lia). }
  split; [done|]. split; [|split; [done|split]].
  - unfold Router.SetAuthProxy, Router.getAuthProxy. rewrite H4. cbn.
    by rewrite !eqb_nonempty.
  - unfold Router.SetAuthProxy, Router.getAuthProxy. rewrite H2. cbn.
    by rewrite !eqb_nonempty.
  - intros s. unfold Router.SetAuthProxy.
    by destruct (2 <=? length (Router.splitAuthProxy s))%nat,
      (4 <=? length (Router.splitAuthProxy s))%nat.
Qed.

(** X23. What [SetAuthProxy] makes of other strings. A password with a
    colon is cut at that colon; with three parts, or with an empty
    password, the user name is dropped with the password; a string with
    less than two parts, such as one without a colon, leaves the host and
    the port that were set and clears the credentials. And
    [getAuthProxy] fails exactly when the host or the port is empty, as
    on a new manager. *)
Theorem SetAuthProxy_on_other_strings
    (h p u pa tail s : string) (typ : Router.ProxyType) (r : Router.t) :
  colon_free h = true → colon_free p = true →
  colon_free u = true → colon_free pa = true → colon_free s = true →
  u ≠ "" →
  Router.authPassword
    (Router.SetAuthProxy
       (h +:+ ":" +:+ p +:+ ":" +:+ u +:+ ":" +:+ pa +:+ ":" +:+ tail) r)
    = pa ∧
  Router.SetAuthProxy (h +:+ ":" +:+ p +:+ ":" +:+ u) r
    = Router.set_authCredentials "" "" (Router.set_authAddr h p r) ∧
  Router.SetAuthProxy (h +:+ ":" +:+ p +:+ ":" +:+ u +:+ ":") r
    = Router.set_authCredentials "" "" (Router.set_authAddr h p r) ∧
  Router.SetAuthProxy s r = Router.set_authCredentials "" "" r ∧
  Router.SetAuthProxy (s +:+ ":") r = Router.set_authCredentials "" "" r ∧
  (Router.getAuthProxy typ r = (None, Some Router.ErrAuthUnset) ↔
     Router.authHost r = "" ∨ Router.authPort r = "") ∧
  Router.getAuthProxy typ Router.NewProxy = (None, Some Router.ErrAuthUnset).
Proof.
  intros Hh Hp Hu Hpa Hs Nu.
  split; [|split; [|split; [|split; [|split; [|split]]]]].
  - unfold Router.SetAuthProxy.
    rewrite splitAuthProxy_pieces, !pieces_part by (done || lia).
    rewrite pieces_late. by destruct (String.eqb tail "").
  - unfold Router.SetAuthProxy.
    rewrite splitAuthProxy_pieces, !pieces_part by (done || lia).
    by rewrite pieces_last, eqb_nonempty by (done || lia).
  - unfold Router.SetAuthProxy.
    assert (h +:+ ":" +:+ p +:+ ":" +:+ u +:+ ":"
            = h +:+ ":" +:+ p +:+ ":" +:+ u +:+ ":" +:+ "") as ->
      by (by rewrite append_nil_r).
    rewrite splitAuthProxy_pieces, !pieces_part by (done || lia).
    by rewrite pieces_last by (done || lia).
  - unfold Router.SetAuthProxy.
    rewrite splitAuthProxy_pieces, pieces_last by (done || lia).
    by destruct (String.eqb s "").
  - unfold Router.SetAuthProxy.
    assert (s +:+ ":" = s +:+ ":" +:+ "") as -> by (by rewrite append_nil_r).
    rewrite splitAuthProxy_pieces, pieces_part by (done || lia).
    by rewrite pieces_last by (done || lia).
  - unfold Router.getAuthProxy.
    destruct (String.eqb_spec (Router.authHost r) "") as [->|Hhost];
      [by split; [left|]|].
    destruct (String.eqb_spec (Router.authPort r) "") as [->|Hport];
      [by split; [right|]|].
    cbn [orb]. split; [done|]. by intros [?|?].
  - done.
Qed.

(** *** The pool of the manager *)

Section RouterFacts.

Variable clock : nat → Time.
Variable racers : gmap ProxyPool.addr ProxyItem.t
                  → gmap ProxyPool.addr ProxyItem.t.
Variable SimpleFetchFunc : ProxyPool.FetchFunc.
Variable rand : nat → Z → Z.

Local Abbreviation initPool := (Router.initPool SimpleFetchFunc).
Local Abbreviation getPoolProxy :=
  (Router.getPoolProxy clock racers SimpleFetchFunc).
Local Abbreviation GetProxy_loop :=
  (Router.GetProxy_loop clock racers SimpleFetchFunc).
Local Abbreviation GetProxy :=
  (Router.GetProxy clock racers SimpleFetchFunc rand).
Local Abbreviation getVirtualProxy := (Router.getVirtualProxy rand).
Local Abbreviation attempt := (attempt clock racers SimpleFetchFunc).
Local Abbreviation failed_attempts :=
  (failed_attempts clock racers SimpleFetchFunc).

(** X24. The settings of the pool, set through the manager. Before the
    first use there is no pool, and the pool made at the first use takes
    the settings through [New]: a number that is not positive gives the
    default (5, 180, 3). Once the pool is there, the same setters store
    the number in the pool as it is, also when it is not positive, and
    [initPool] keeps the pool. The manager records what it was given in
    both cases. On a manager without a pool, [GetPool] and
    [GetPoolStats] make the pool too; the statistics of the new pool are
    all zero. *)
Theorem pool_settings_before_and_after_first_use
    (r : Router.t) (url : string) (count secs size : Z) :
  let r1 :=
    Router.SetPoolMinSize size
      (Router.SetPoolExpireSeconds secs
         (Router.SetPoolMaxUseCount count (Router.SetPoolAPI url r))) in
  (Router.pool r = None →
     Router.pool r1 = None ∧
     Router.pool (initPool r1) =
       Some (ProxyPool.mk [] false url
               (if count <=? 0 then 5 else count)
               (if secs <=? 0 then 180 else secs)
               (if size <=? 0 then 3 else size)
               (Some SimpleFetchFunc) false false 0)) ∧
  (∀ pl, Router.pool r = Some pl →
     Router.pool r1 =
       Some (ProxyPool.mk (ProxyPool.proxies pl) (ProxyPool.refreshMu pl)
               url count secs size (ProxyPool.fetchFunc pl)
               (ProxyPool.onProxyGet pl) (ProxyPool.onRefresh pl)
               (ProxyPool.roundRobinIdx pl)) ∧
     initPool r1 = r1) ∧
  Router.poolAPIURL r1 = url ∧ Router.poolMaxUseCount r1 = count ∧
  Router.poolExpireSeconds r1 = secs ∧ Router.poolMinSize r1 = size ∧
  initPool (initPool r1) = initPool r1 ∧
  (∀ w, Router.pool (Router.proxy w) = None →
     ∃ pl,
       Router.pool (initPool (Router.proxy w)) = Some pl ∧
       Router.GetPool SimpleFetchFunc w = Some (Some pl, holding pl w) ∧
       Router.GetPoolStats clock SimpleFetchFunc w =
         Some (ProxyPool.mkStats 0 0 0 0, holding pl w)).
Proof.
  intros r1. subst r1.
  unfold Router.SetPoolMinSize, Router.SetPoolExpireSeconds,
    Router.SetPoolMaxUseCount, Router.SetPoolAPI.
  split; [|split; [|split; [|split; [|split; [|split; [|split]]]]]].
  - destruct r as [m ty [pl|] u0 c0 s0 z0 ah ap au apw]; [done|].
    intros _. by cbn.
  - intros pl Hpl.
    destruct r as [m ty po u0 c0 s0 z0 ah ap au apw]. cbn in Hpl.
    subst po. by cbn.
  - by destruct r as [m ty [pl|] u0 c0 s0 z0 ah ap au apw].
  - by destruct r as [m ty [pl|] u0 c0 s0 z0 ah ap au apw].
  - by destruct r as [m ty [pl|] u0 c0 s0 z0 ah ap au apw].
  - by destruct r as [m ty [pl|] u0 c0 s0 z0 ah ap au apw].
  - by destruct r as [m ty [pl|] u0 c0 s0 z0 ah ap au apw].
  - intros w Hnil. unfold Router.initPool. rewrite Hnil.
    eexists. split; [done|].
    unfold Router.GetPool, Router.GetPoolStats, Router.bind,
      Router.getProxy, Router.setProxy, Router.onPool, Router.ret,
      Router.initPool, holding.
    cbn. rewrite Hnil. by cbn.
Qed.

(** A call of [getPoolProxy] is one attempt: the world it leaves is the
    world its one call of [Get] leaves, and its result is made from what
    that call returns. *)
Lemma getPoolProxy_attempt (typ : Router.ProxyType) w r w1 :
  getPoolProxy typ w = Some (r, w1) →
  ∃ gr,
    attempt w gr w1 ∧
    ((∃ err, gr.2 = Some err ∧ r = (None, Some (Router.PoolError err))) ∨
     (∃ a it,
        gr = (Some a, None) ∧ Router.heap w1 !! a = Some it ∧
        r = (Some (Router.mkResult typ (ProxyItem.String it) None
                     (ProxyItem.String it)), None))).
Proof.
  unfold Router.getPoolProxy, Router.bind, Router.getProxy, Router.setProxy,
    Router.onPool, attempt. cbn.
  destruct (Router.pool (initPool (Router.proxy w))) as [pl|] eqn:Hpl;
    [|done].
  destruct (ProxyPool.Get clock racers _) as [[[res [err|]] pw]|] eqn:Hget;
    [| |done].
  - intros [= <- <-]. exists (res, Some err). split.
    + by exists pl, pw.
    + left. by exists err.
  - destruct res as [a|]; [|done]. cbn.
    unfold ProxyPool.String, ProxyPool.bind, ProxyPool.deref, ProxyPool.ret.
    cbn. destruct (ProxyPool.heap pw !! a) as [it|] eqn:Hit; [|done]. cbn.
    rewrite Hit. cbn. intros [= <- <-]. exists (Some a, None). split.
    + exists pl, pw. split; [done|]. split; [done|].
      unfold Router.after_pool, Router.pool_world. cbn.
      destruct pw as [h p t tr sp]. cbn. done.
    + right. exists a, it. split; [done|]. split; [|done].
      cbn. by destruct pw.
Qed.

Lemma attempt_frame w gr w1 :
  attempt w gr w1 →
  is_Some (Router.pool (Router.proxy w1)) ∧
  Router.slept w1 = Router.slept w ∧ Router.draws w1 = Router.draws w.
Proof. intros (pl & pw & _ & _ & ->). by cbn. Qed.

Lemma failed_attempts_frame k w wk :
  failed_attempts k w wk →
  Router.slept wk = Router.slept w ++ replicate k Second ∧
  (is_Some (Router.pool (Router.proxy w)) ∨ (0 < k)%nat →
   is_Some (Router.pool (Router.proxy wk))).
Proof.
  induction 1 as [w|k w gr err w1 w' Hatt Herr _ [IHs IHp]].
  - cbn. rewrite app_nil_r. split; [done|]. intros [?|?]; [done|lia].
  - destruct (attempt_frame _ _ _ Hatt) as (Hpool & Hsl & _).
    split.
    + rewrite IHs. cbn. by rewrite Hsl, <- app_assoc.
    + intros _. apply IHp. by left.
Qed.

(** X25. [GetProxy] in the pool mode makes at most ten attempts, each
    of them one call of [Get] on the pool of the manager. The attempts
    that fail come first, one after the other, each followed by a sleep
    of one second. Either fewer than ten fail and the next attempt
    returns an entry: [GetProxy] returns it, with the type of the manager
    and ip:port both as the proxy and as the address shown, and the world
    is as that attempt leaves it. Or ten fail: [GetProxy] makes no
    further attempt and returns the error that tells of ten retries, not
    the error of the pool. Any mode other than the three named ones is
    served this way. *)
Theorem GetProxy_pool_mode_tries_ten_times w res w' :
  pool_mode (Router.mode (Router.proxy w)) →
  GetProxy w = Some (res, w') →
  ∃ (k : nat) (wk : Router.World),
    (k ≤ 10)%nat ∧
    failed_attempts k w wk ∧
    Router.slept w' = Router.slept w ++ replicate k Second ∧
    ((k < 10)%nat ∧
     (∃ a it,
        attempt wk (Some a, None) w' ∧
        Router.heap w' !! a = Some it ∧
        res = (Some (Router.mkResult (Router.proxyType (Router.proxy w))
                       (ProxyItem.String it) None (ProxyItem.String it)),
               None))
     ∨ k = 10%nat ∧ w' = wk ∧
       res = (None, Some (Router.ErrRetriesExhausted 10))) ∧
    is_Some (Router.pool (Router.proxy w')).
Proof.
  intros (Hnone & Hvirt & Hauth) Hrun.
  unfold Router.GetProxy, Router.bind at 1, Router.getProxy in Hrun.
  rewrite (proj2 (String.eqb_neq _ _) Hnone),
    (proj2 (String.eqb_neq _ _) Hvirt),
    (proj2 (String.eqb_neq _ _) Hauth) in Hrun.
  unfold Router.maxRetry in Hrun.
  set (typ := Router.proxyType (Router.proxy w)) in *. clearbody typ.
  assert (∀ n w0 res0 w1,
    GetProxy_loop n typ w0 = Some (res0, w1) →
    ∃ (k : nat) (wk : Router.World),
      (k ≤ n)%nat ∧
      failed_attempts k w0 wk ∧
      ((k < n)%nat ∧
       (∃ a it,
          attempt wk (Some a, None) w1 ∧
          Router.heap w1 !! a = Some it ∧
          res0 = (Some (Router.mkResult typ (ProxyItem.String it) None
                          (ProxyItem.String it)), None))
       ∨ k = n ∧ w1 = wk ∧
         res0 = (None, Some (Router.ErrRetriesExhausted 10)))) as Hloop.
  { clear. induction n as [|n IH]; intros w0 res0 w1 Hrun.
    - injection Hrun as <- <-. exists 0%nat, w0.
      split; [lia|]. split; [constructor|]. by right.
    - cbn [Router.GetProxy_loop] in Hrun. unfold Router.bind at 1 in Hrun.
      destruct (getPoolProxy typ w0) as [[r w2]|] eqn:Hstep; [|done].
      destruct (getPoolProxy_attempt typ w0 r w2 Hstep)
        as (gr & Hatt & [(err & Herr & ->)|(a & it & -> & Hit & ->)]).
      + cbn [snd] in Hrun. unfold Router.bind at 1, Router.Sleep in Hrun.
        apply IH in Hrun as (k & wk & Hk & Hfail & Hres).
        exists (S k), wk. split; [lia|].
        split; [by apply (failed_next _ _ _ k w0 gr err w2 wk)|].
        destruct Hres as [(Hlt & Hres)|(-> & Hres)];
          [left; split; [lia|done]|by right].
      + cbn in Hrun. injection Hrun as <- <-.
        exists 0%nat, w0. split; [lia|]. split; [constructor|].
        left. split; [lia|]. by exists a, it. }
  destruct (Hloop 10%nat w res w' Hrun) as (k & wk & Hk & Hfail & Hres).
  destruct (failed_attempts_frame k w wk Hfail) as [Hslept Hpool].
  exists k, wk. split; [done|]. split; [done|].
  destruct Hres as [(Hlt & a & it & Hatt & Hit & ->)|(-> & -> & ->)].
  - destruct (attempt_frame _ _ _ Hatt) as (Hp & Hsl & _).
    split; [by rewrite Hsl|]. split; [|done].
    left. split; [done|]. by exists a, it.
  - split; [done|]. split; [by right|]. apply Hpool. right. lia.
Qed.

(** An empty pool whose source gives nothing: [Get] enters [Refresh],
    asks the source and fails; the pool is as before. *)
Lemma Get_on_a_barren_pool (f : ProxyPool.FetchFunc) (pw : ProxyPool.World) :
  ProxyPool.proxies (ProxyPool.pool pw) = [] →
  ProxyPool.refreshMu (ProxyPool.pool pw) = false →
  ProxyPool.fetchFunc (ProxyPool.pool pw) = Some f →
  ProxyPool.onRefresh (ProxyPool.pool pw) = false →
  (f (ProxyPool.apiURL (ProxyPool.pool pw))).1 = [] →
  ProxyPool.Get clock racers pw =
    Some ((None, Some ProxyPool.ErrNoAvailableProxy),
          logged [ProxyPool.EvRefresh;
                  ProxyPool.EvFetch (ProxyPool.apiURL (ProxyPool.pool pw))]
            pw).
Proof.
  destruct pw as [h [ps mu url mx ex mn ff og orf idx] t tr sp]. cbn.
  intros -> -> -> -> Hnone.
  unfold ProxyPool.Get, ProxyPool.Get_replenish, ProxyPool.cleanupUnsafe,
    ProxyPool.Refresh, ProxyPool.Get_select, ProxyPool.callOnRefresh,
    ProxyPool.unlockRefresh, ProxyPool.bind, ProxyPool.getPool,
    ProxyPool.setPool, ProxyPool.emit, ProxyPool.ret, logged.
  cbn. rewrite andb_false_r. cbn.
  destruct (f url) as [cands [err|]]; cbn in Hnone; subst cands; cbn;
    by rewrite <- app_assoc.
Qed.

Lemma getPoolProxy_barren (typ : Router.ProxyType) (pl : ProxyPool.t) w :
  Router.pool (Router.proxy w) = Some pl →
  ProxyPool.proxies pl = [] → ProxyPool.refreshMu pl = false →
  ProxyPool.fetchFunc pl = Some SimpleFetchFunc →
  ProxyPool.onRefresh pl = false →
  (SimpleFetchFunc (ProxyPool.apiURL pl)).1 = [] →
  getPoolProxy typ w =
    Some ((None, Some (Router.PoolError ProxyPool.ErrNoAvailableProxy)),
          Router.mkWorld (Router.proxy w) (Router.heap w) (Router.ticks w)
            (Router.trace w
               ++ [ProxyPool.EvRefresh;
                   ProxyPool.EvFetch (ProxyPool.apiURL pl)])
            (Router.spawned w) (Router.slept w) (Router.draws w)).
Proof.
  intros Hpool Hps Hmu Hff Hcb Hnone.
  unfold Router.getPoolProxy, Router.bind, Router.getProxy, Router.setProxy,
    Router.onPool, Router.initPool. cbn. rewrite Hpool. cbn. rewrite Hpool.
  rewrite (Get_on_a_barren_pool SimpleFetchFunc); try done. cbn.
  unfold Router.ret, Router.after_pool. cbn. do 2 f_equal.
  destruct w as [[m ty po u0 c0 s0 z0 ah ap au apw] h t tr sp sl dr].
  cbn in *. by rewrite Hpool.
Qed.

Lemma GetProxy_loop_barren (typ : Router.ProxyType) (pl : ProxyPool.t)
    (n : nat) : ∀ w,
  Router.pool (Router.proxy w) = Some pl →
  ProxyPool.proxies pl = [] → ProxyPool.refreshMu pl = false →
  ProxyPool.fetchFunc pl = Some SimpleFetchFunc →
  ProxyPool.onRefresh pl = false →
  (SimpleFetchFunc (ProxyPool.apiURL pl)).1 = [] →
  GetProxy_loop n typ w =
    Some ((None, Some (Router.ErrRetriesExhausted 10)),
          after_failures n (ProxyPool.apiURL pl) w).
Proof.
  induction n as [|n IH]; intros w Hpool Hps Hmu Hff Hcb Hnone.
  - cbn. unfold Router.ret, after_failures. cbn. rewrite !app_nil_r.
    by destruct w.
  - cbn [Router.GetProxy_loop]. unfold Router.bind at 1.
    rewrite (getPoolProxy_barren typ pl w) by done. cbn [snd].
    unfold Router.bind at 1, Router.Sleep.
    rewrite IH by done. unfold after_failures. cbn.
    by rewrite <- !app_assoc.
Qed.

(** The first attempt makes the pool. *)
Lemma GetProxy_loop_init (typ : Router.ProxyType) (n : nat) w :
  Router.pool (Router.proxy w) = None →
  GetProxy_loop (S n) typ w =
    GetProxy_loop (S n) typ
      (holding (ProxyPool.New
                  (ProxyPool.Config.mk
                     (Router.poolAPIURL (Router.proxy w))
                     (Router.poolMaxUseCount (Router.proxy w))
                     (Router.poolExpireSeconds (Router.proxy w))
                     (Router.poolMinSize (Router.proxy w))
                     (Some SimpleFetchFunc) false false)) w).
Proof.
  intros Hnil. cbn [Router.GetProxy_loop]. unfold Router.bind at 1 3.
  assert (getPoolProxy typ w = getPoolProxy typ (holding
            (ProxyPool.New
               (ProxyPool.Config.mk
                  (Router.poolAPIURL (Router.proxy w))
                  (Router.poolMaxUseCount (Router.proxy w))
                  (Router.poolExpireSeconds (Router.proxy w))
                  (Router.poolMinSize (Router.proxy w))
                  (Some SimpleFetchFunc) false false)) w)) as ->; [|done].
  unfold Router.getPoolProxy, Router.bind, Router.getProxy,
    Router.setProxy, Router.onPool, Router.initPool. cbn.
  by rewrite Hnil.
Qed.

(** X26. A manager in the pool mode, not used before, whose source gives
    nothing: [GetProxy] makes the pool from the settings of the manager,
    asks the source ten times, a second apart, ends with a sleep of one
    more second and returns the error of ten retries. The pool stays
    empty and no clock is read. *)
Theorem GetProxy_gives_up_on_a_barren_source w :
  pool_mode (Router.mode (Router.proxy w)) →
  Router.pool (Router.proxy w) = None →
  (SimpleFetchFunc (Router.poolAPIURL (Router.proxy w))).1 = [] →
  ∃ pl,
    Router.pool (initPool (Router.proxy w)) = Some pl ∧
    ProxyPool.proxies pl = [] ∧
    GetProxy w =
      Some ((None, Some (Router.ErrRetriesExhausted 10)),
            after_failures 10 (Router.poolAPIURL (Router.proxy w))
              (holding pl w)).
Proof.
  intros (Hnone & Hvirt & Hauth) Hnil Hbarren.
  unfold Router.initPool. rewrite Hnil. cbn [Router.pool Router.set_pool].
  eexists. split; [done|]. split; [done|].
  unfold Router.GetProxy, Router.bind at 1, Router.getProxy.
  rewrite (proj2 (String.eqb_neq _ _) Hnone),
    (proj2 (String.eqb_neq _ _) Hvirt),
    (proj2 (String.eqb_neq _ _) Hauth).
  change Router.maxRetry with (S 9).
  rewrite (GetProxy_loop_init _ 9 w Hnil).
  by rewrite (GetProxy_loop_barren _
                (ProxyPool.New
                   (ProxyPool.Config.mk
                      (Router.poolAPIURL (Router.proxy w))
                      (Router.poolMaxUseCount (Router.proxy w))
                      (Router.poolExpireSeconds (Router.proxy w))
                      (Router.poolMinSize (Router.proxy w))
                      (Some SimpleFetchFunc) false false)) 10).
Qed.

(** X27. The modes that do not reach the pool. With the mode without
    proxy, [GetProxy] returns an empty proxy for a direct connection;
    with the account mode it returns what [getAuthProxy] makes of the
    account held. Neither makes the pool, reads the clock or draws a
    number: the world is as before. The four named modes are told apart,
    the pool mode is served by the pool, and so is the empty mode of a
    manager that was not made by [NewProxy]. *)
Theorem GetProxy_without_the_pool w :
  (Router.mode (Router.proxy w) = Router.ModeNone →
     GetProxy w =
       Some ((Some (Router.mkResult "" "" None "直连"), None), w)) ∧
  (Router.mode (Router.proxy w) = Router.ModeAuth →
     GetProxy w =
       Some (Router.getAuthProxy (Router.proxyType (Router.proxy w))
               (Router.proxy w), w)) ∧
  (pool_mode (Router.mode (Router.proxy w)) →
     GetProxy w =
       GetProxy_loop 10 (Router.proxyType (Router.proxy w)) w) ∧
  pool_mode Router.ModePool ∧ pool_mode "" ∧
  Router.mode Router.NewProxy = Router.ModeNone ∧
  Router.pool Router.NewProxy = None.
Proof.
  split; [|split; [|split]].
  - intros Hm. unfold Router.GetProxy, Router.bind, Router.getProxy.
    by rewrite Hm.
  - intros Hm. unfold Router.GetProxy, Router.bind, Router.getProxy.
    by rewrite Hm.
  - intros (Hnone & Hvirt & Hauth).
    unfold Router.GetProxy, Router.bind, Router.getProxy.
    by rewrite (proj2 (String.eqb_neq _ _) Hnone),
      (proj2 (String.eqb_neq _ _) Hvirt),
      (proj2 (String.eqb_neq _ _) Hauth).
  - repeat split; done.
Qed.

(** X28. The virtual mode draws four numbers and makes an address of
    them: the first part is from 1 to 223, the two in the middle from 0
    to 255, the last from 1 to 254. The nine headers all carry that
    address, the proxy is empty, and neither the manager nor the pool is
    touched. *)
Theorem getVirtualProxy_octets w :
  (∀ k n, 0 < n → 0 ≤ rand k n < n) →
  Router.mode (Router.proxy w) = Router.ModeVirtual →
  let a := rand (Router.draws w) 223 + 1 in
  let b := rand (S (Router.draws w)) 256 in
  let c := rand (S (S (Router.draws w))) 256 in
  let d := rand (S (S (S (Router.draws w)))) 254 + 1 in
  let ip :=
    Router.itoa a +:+ "." +:+ Router.itoa b +:+ "." +:+ Router.itoa c
    +:+ "." +:+ Router.itoa d in
  1 ≤ a ≤ 223 ∧ 0 ≤ b ≤ 255 ∧ 0 ≤ c ≤ 255 ∧ 1 ≤ d ≤ 254 ∧
  ∃ headers,
    GetProxy w =
      Some ((Some (Router.mkResult "" "" (Some headers) (ip +:+ " (虚拟)")),
             None),
            Router.mkWorld (Router.proxy w) (Router.heap w) (Router.ticks w)
              (Router.trace w) (Router.spawned w) (Router.slept w)
              (4 + Router.draws w)) ∧
    dom headers = list_to_set virtual_headers ∧
    (∀ key, key ∈ virtual_headers → headers !! key = Some ip).
Proof.
  intros Hrand Hm a b c d ip.
  pose proof (Hrand (Router.draws w) 223 ltac:(lia)) as Ha.
  pose proof (Hrand (S (Router.draws w)) 256 ltac:(lia)) as Hb.
  pose proof (Hrand (S (S (Router.draws w))) 256 ltac:(lia)) as Hc.
  pose proof (Hrand (S (S (S (Router.draws w)))) 254 ltac:(lia)) as Hd.
  split; [lia|]. split; [lia|]. split; [lia|]. split; [lia|].
  eexists. split; [|split].
  - unfold Router.GetProxy, Router.bind at 1, Router.getProxy.
    rewrite Hm.
    change (String.eqb Router.ModeVirtual Router.ModeNone) with false.
    change (String.eqb Router.ModeVirtual Router.ModeVirtual) with true.
    cbv iota. unfold Router.getVirtualProxy, Router.bind, Router.Intn,
      Router.ret. cbn. reflexivity.
  - rewrite !dom_insert_L, dom_empty_L. unfold virtual_headers. cbn.
    set_solver.
  - intros key Hkey. unfold virtual_headers in Hkey.
    repeat (apply elem_of_cons in Hkey as [->|Hkey];
            [by simplify_map_eq|]).
    by apply elem_of_nil in Hkey.
Qed.

End RouterFacts.

(** ** The manager, the default pool and the life of a pool, on samples *)

Lemma SetAuthProxy_getAuthProxy_round_trip_witness :
  Router.getAuthProxy "http"
    (Router.SetAuthProxy "10.0.0.1:8080:user:secret" Router.NewProxy)
  = (Some (Router.mkResult "http" "10.0.0.1:8080:user:secret" None
             "10.0.0.1:8080"), None).
Proof.
  refine (proj1 (proj2 (SetAuthProxy_getAuthProxy_round_trip
                          "10.0.0.1" "8080" "user" "secret" "http"
                          Router.NewProxy _ _ _ _ _ _ _ _)));
    (reflexivity || discriminate).
Defined.

Lemma SetAuthProxy_on_other_strings_witness :
  Router.authPassword
    (Router.SetAuthProxy "10.0.0.1:8080:user:se:cret" Router.NewProxy)
  = "se".
Proof.
  refine (proj1 (SetAuthProxy_on_other_strings
                   "10.0.0.1" "8080" "user" "se" "cret" "" "http"
                   Router.NewProxy _ _ _ _ _ _));
    (reflexivity || discriminate).
Defined.

Lemma GetProxy_pool_mode_tries_ten_times_witness :
  ∃ w',
    Router.GetProxy (Demo.frozen 0) Demo.quiet Demo.supplier
      RouterDemo.zeros RouterDemo.manager
    = Some ((Some (Router.mkResult "http" "10.0.0.1:8080" None
                     "10.0.0.1:8080"), None), w') ∧
    attempt (Demo.frozen 0) Demo.quiet Demo.supplier RouterDemo.manager
      (Some 1%positive, None) w' ∧
    Router.slept w' = [] ∧
    is_Some (Router.pool (Router.proxy w')).
Proof.
  assert (∃ w',
    Router.GetProxy (Demo.frozen 0) Demo.quiet Demo.supplier
      RouterDemo.zeros RouterDemo.manager
    = Some ((Some (Router.mkResult "http" "10.0.0.1:8080" None
                     "10.0.0.1:8080"), None), w')) as (w' & Hrun)
    by (eexists; vm_compute; reflexivity).
  destruct (GetProxy_pool_mode_tries_ten_times (Demo.frozen 0) Demo.quiet
              Demo.supplier RouterDemo.zeros RouterDemo.manager
              (Some (Router.mkResult "http" "10.0.0.1:8080" None
                       "10.0.0.1:8080"), None) w')
    as (k & wk & _ & _ & _ & _ & Hpool).
  - repeat split; discriminate.
  - exact Hrun.
  - exists w'. split; [exact Hrun|].
    assert (Router.GetProxy (Demo.frozen 0) Demo.quiet Demo.supplier
              RouterDemo.zeros RouterDemo.manager
            = Some ((Some (Router.mkResult "http" "10.0.0.1:8080" None
                             "10.0.0.1:8080"), None), w')) as Hrun'
      by exact Hrun.
    vm_compute in Hrun'. injection Hrun' as Hw.
    split; [|split; [by rewrite <- Hw|exact Hpool]].
    eexists _, _. split; [reflexivity|]. split; [vm_compute; reflexivity|].
    rewrite <- Hw. vm_compute. reflexivity.
Defined.

Lemma GetProxy_gives_up_on_a_barren_source_witness :
  ∃ w',
    Router.GetProxy (Demo.frozen 0) Demo.quiet Demo.broken_supplier
      RouterDemo.zeros RouterDemo.manager
    = Some ((None, Some (Router.ErrRetriesExhausted 10)), w') ∧
    Router.slept w' = replicate 10 Second ∧
    length (Router.trace w') = 20%nat.
Proof.
  destruct (GetProxy_gives_up_on_a_barren_source (Demo.frozen 0) Demo.quiet
              Demo.broken_supplier RouterDemo.zeros RouterDemo.manager)
    as (pl & _ & _ & Hrun).
  - repeat split; discriminate.
  - reflexivity.
  - reflexivity.
  - eexists. split; [exact Hrun|]. split; reflexivity.
Defined.

Lemma getVirtualProxy_octets_witness :
  ∃ headers w',
    Router.GetProxy (Demo.frozen 0) Demo.quiet Demo.supplier
      RouterDemo.zeros RouterDemo.virtual
    = Some ((Some (Router.mkResult "" "" (Some headers) "1.0.0.1 (虚拟)"),
             None), w') ∧
    headers !! "X-Real-IP" = Some "1.0.0.1".
Proof.
  destruct (getVirtualProxy_octets (Demo.frozen 0) Demo.quiet Demo.supplier
              RouterDemo.zeros RouterDemo.virtual)
    as (_ & _ & _ & _ & headers & Hrun & _ & Hall).
  - intros k n Hn. unfold RouterDemo.zeros. lia.
  - reflexivity.
  - exists headers. eexists. split; [exact Hrun|].
    apply (Hall "X-Real-IP"). right. left.
Defined.

Lemma first_call_makes_the_default_pool_witness :
  Singleton.perform_all
    [Singleton.CallDefault;
     Singleton.CallInitDefault
       (ProxyPool.Config.mk "http://supplier" 9 9 9 None false false);
     Singleton.CallDefault] Singleton.initial
  = ([Some 0%nat; Some 0%nat; Some 0%nat],
     Singleton.mk [ProxyPool.mk [] false "" 5 180 3 None false false 0]
       (Some 0%nat) true).
Proof.
  refine (proj1 (proj2 (first_call_makes_the_default_pool Singleton.initial
                          Singleton.zeroConfig
                          [Singleton.CallInitDefault
                             (ProxyPool.Config.mk "http://supplier" 9 9 9
                                None false false);
                           Singleton.CallDefault] _))).
  reflexivity.
Defined.

Lemma Refresh_needs_a_fetch_function_witness :
  ProxyPool.Refresh (Demo.frozen 0) RouterDemo.unfetchable =
    Some (Some ProxyPool.ErrFetchFuncUnset,
          logged [ProxyPool.EvRefresh] RouterDemo.unfetchable) ∧
  ∃ w',
    ProxyPool.GetN (Demo.frozen 0) Demo.quiet 3 RouterDemo.unfetchable =
      Some (replicate 3 (None, Some ProxyPool.ErrNoAvailableProxy), w') ∧
    ProxyPool.pool w' = ProxyPool.pool RouterDemo.unfetchable.
Proof.
  destruct (Refresh_needs_a_fetch_function (Demo.frozen 0) Demo.quiet
              RouterDemo.unfetchable 3) as [Href Hget].
  - discriminate.
  - reflexivity.
  - reflexivity.
  - split; [exact Href|].
    destruct (Hget eq_refl) as (w' & Hrun & Hpool & _).
    exists w'. split; [exact Hrun|exact Hpool].
Defined.

Lemma endpoints_stay_distinct_witness :
  ∃ w',
    perform_all (Demo.frozen 0) Demo.quiet
      [CallAddProxy "10.0.0.1" "8080"; CallRefresh; CallGet;
       CallRemove "10.0.0.2" "8080"; CallAddProxy "10.0.0.1" "8080";
       CallCleanup]
      Demo.drained = Some (tt, w') ∧
    distinct_endpoints w'.
Proof.
  assert (∃ w',
    perform_all (Demo.frozen 0) Demo.quiet
      [CallAddProxy "10.0.0.1" "8080"; CallRefresh; CallGet;
       CallRemove "10.0.0.2" "8080"; CallAddProxy "10.0.0.1" "8080";
       CallCleanup]
      Demo.drained = Some (tt, w')) as (w' & Hrun)
    by (eexists; vm_compute; reflexivity).
  exists w'. split; [exact Hrun|].
  apply (endpoints_stay_distinct (Demo.frozen 0) Demo.quiet
           [CallAddProxy "10.0.0.1" "8080"; CallRefresh; CallGet;
            CallRemove "10.0.0.2" "8080"; CallAddProxy "10.0.0.1" "8080";
            CallCleanup]
           Demo.drained w');
    [|exists []; split; constructor|exact Hrun].
  intros h. apply same_identities_refl.
Defined.

(** ** Settings that are not positive *)

Section DeadEntryFacts.

Import ProxyPool.

Variable clock : nat → Time.

Implicit Types (w : World) (a : addr) (it : ProxyItem.t) (ps : list addr).

Local Abbreviation available_at := (available_at clock).
Local Abbreviation pruned := (pruned clock).
Local Abbreviation scanned := (scanned clock).

Lemma available_at_app h t ps1 ps2 :
  available_at h t (ps1 ++ ps2) =
    available_at h t ps1 ++ available_at h (length ps1 + t) ps2.
Proof.
  revert t. induction ps1 as [|a ps1 IH]; intros t; [done|].
  cbn [app available_at length].
  replace (S (length ps1) + t)%nat with (length ps1 + S t)%nat by lia.
  destruct (h !! a) as [it|]; [destruct (ProxyItem.IsAvailable _ it)|];
    by rewrite IH.
Qed.

(** X30. The setters of the pool take any number, and the entries made
    afterwards carry it. After [SetMaxUseCount] with a number that is not
    positive, an endpoint added by [AddProxy] is never available: no scan
    of [Get] offers it, and the next pruning pass drops it. The same
    holds after [SetExpireSeconds] with a number from -9223372036 to 0,
    at the clock readings that are not before the one of the
    insertion. *)
Theorem entries_of_a_nonpositive_setting_are_dead
    (ip port : string) (count secs : Z) (p : ProxyPool.t) w items :
  entries_of (heap w) (proxies (pool w)) items →
  key_of ip port ∉ identities items →
  (p = SetMaxUseCount count (pool w) ∧ count ≤ 0) ∨
  (p = SetExpireSeconds secs (pool w) ∧ -9223372036 ≤ secs ≤ 0) →
  ∃ w1 a it,
    AddProxy clock ip port (with_pool p w) = Some (true, w1) ∧
    proxies (pool w1) = proxies (pool w) ++ [a] ∧
    heap w1 !! a = Some it ∧
    (∀ t, clock (ticks w) ≤ clock t →
          ProxyItem.IsAvailable (clock t) it = false) ∧
    ((∀ t, clock (ticks w) ≤ clock t) →
       scanned w1 = available_at (heap w) (ticks w1) (proxies (pool w)) ∧
       proxies (pool (pruned w1)) =
         available_at (heap w) (ticks w1) (proxies (pool w))).
Proof.
  intros Hent Hnew Hset.
  assert (proxies p = proxies (pool w) ∧
          (maxUseCount p ≤ 0 ∨ -9223372036 ≤ expireSeconds p ≤ 0))
    as [Hps Hbad].
  { destruct Hset as [[-> Hc]|[-> Hs]]; (split; [done|]); [by left|by right]. }
  clear Hset.
  set (w0 := with_pool p w).
  assert (entries_of (heap w0) (proxies (pool w0)) items) as Hent0
    by (cbn; by rewrite Hps).
  exists (inserted clock ip port w0), (new_addr w0),
    (new_entry clock ip port w0).
  assert (∀ t, clock (ticks w) ≤ clock t →
            ProxyItem.IsAvailable (clock t) (new_entry clock ip port w0)
            = false) as Hnever.
  { intros t Ht. unfold ProxyItem.IsAvailable, new_entry,
      ProxyItem.NewProxyItemWithConfig, Before, Add. cbn.
    apply andb_false_iff. destruct Hbad as [Hlim|Hsecs].
    - right. apply Z.ltb_ge. lia.
    - left. apply Z.ltb_ge. rewrite seconds_exact by lia. lia. }
  split; [by apply (AddProxy_new clock _ _ _ items)|].
  split; [cbn; by rewrite Hps|].
  split; [cbn; apply lookup_insert_eq|].
  split; [exact Hnever|].
  intros Hmono.
  assert (available_at (heap (inserted clock ip port w0))
            (ticks (inserted clock ip port w0))
            (proxies (pool (inserted clock ip port w0)))
          = available_at (heap w) (2 + ticks w) (proxies (pool w)))
    as Hscan.
  { cbn [inserted heap pool ticks proxies set_proxies with_pool].
    change (pool w0) with p. change (heap w0) with (heap w).
    change (ticks w0) with (ticks w).
    rewrite Hps, available_at_app. cbn [available_at].
    rewrite lookup_insert_eq, Hnever by apply Hmono.
    rewrite app_nil_r.
    assert (∀ ps t, (∀ b, b ∈ ps → b ≠ new_addr w0) →
              available_at (<[new_addr w0 := new_entry clock ip port w0]>
                              (heap w)) t ps
              = available_at (heap w) t ps) as Hsame.
    { clear. induction ps as [|b ps IH]; intros t Hne; [done|].
      cbn [available_at].
      rewrite lookup_insert_ne by (apply not_eq_sym, Hne; left).
      rewrite IH by (intros c Hc; apply Hne; by right). done. }
    apply Hsame. intros b Hb ->.
    apply list_elem_of_lookup in Hb as [i Hi].
    destruct (Forall2_lookup_l _ _ _ _ _ Hent Hi) as (it & _ & Hit).
    pose proof (new_addr_fresh w0) as Hfresh. cbn in Hfresh.
    congruence. }
  split; [exact Hscan|]. cbn [pruned pool with_pool proxies set_proxies].
  exact Hscan.
Qed.

End DeadEntryFacts.

Lemma entries_of_a_nonpositive_setting_are_dead_witness :
  ∃ w1,
    ProxyPool.AddProxy (Demo.frozen 0) "10.0.0.9" "8080"
      (with_pool (ProxyPool.SetMaxUseCount 0 (ProxyPool.pool Demo.three))
         Demo.three) = Some (true, w1) ∧
    length (ProxyPool.proxies (ProxyPool.pool w1)) = 4%nat ∧
    scanned (Demo.frozen 0) w1 = [1; 2; 3]%positive.
Proof.
  destruct (entries_of_a_nonpositive_setting_are_dead (Demo.frozen 0)
              "10.0.0.9" "8080" 0 0
              (ProxyPool.SetMaxUseCount 0 (ProxyPool.pool Demo.three))
              Demo.three
              [Demo.entry "10.0.0.1" 0 5 1000;
               Demo.entry "10.0.0.2" 0 5 1000;
               Demo.entry "10.0.0.3" 1 5 1000])
    as (w1 & a & it & Hrun & Hps & _ & _ & Hscan).
  - repeat constructor.
  - intros H.
    repeat (apply elem_of_cons in H as [H|H]; [discriminate H|]).
    by apply elem_of_nil in H.
  - left. split; [reflexivity|lia].
  - exists w1. split; [exact Hrun|]. split; [by rewrite Hps|].
    destruct Hscan as [Hscan _]; [intros t; reflexivity|].
    rewrite Hscan. reflexivity.
Defined.
